(** * Aquafin: import preview, upload zone, rule management and the
      import/categorization contracts

    A shallow embedding of the TypeScript front end of Aquafin
    (frontend/src/components/import, frontend/src/components/categories,
    frontend/src/components/dashboard, the transactions page,
    frontend/src/lib) together with models of the back-end contracts
    (parsers, categorization engine, normalization utilities) that the
    front end relies on.

    Conventions.
    - A JavaScript or Python string is a Rocq [string]: bytes, UTF-8 for
      what leaves the ASCII range.  String functions work on the list of
      bytes ([Text.chars]).
    - A JavaScript [number] is a double.  A finite double is embedded as
      the rational ([Q]) that is its shortest decimal, the one JavaScript
      prints and [Intl.NumberFormat] starts from ([Number.shortest]); the
      double a decimal of a JSON document becomes is [Number.of_decimal].
      Comparisons are the comparisons of [Q].  Integers (priorities, sizes,
      counts) are [Z], [N] or [nat].
    - A React component is embedded as its render function, from props and
      state to a small virtual DOM, and as the function from an event to
      the next state and the callbacks it fires.
    - The back end (parsers, categorization engine, normalization) is not
      among the front-end sources; what is needed of it is modelled from
      the specification, and every such definition says so. *)

From Stdlib Require Import ZArith QArith Qround Qabs Qpower Lia Lqa Bool Ascii List.
From Stdlib Require Import DecimalN DecimalPos.
From Stdlib Require Import Sorting.Sorted Sorting.Permutation.
From Stdlib Require String.
From stdpp Require Import base option list gmap strings.

Local Open Scope Z_scope.
Set Warnings "-register-all".

(** Results of fallible operations: [Ok] for a returned value, [Err] for a
    raised error. *)
Inductive result (E A : Type) : Type :=
| Ok (a : A)
| Err (e : E).
Arguments Ok {E A} a.
Arguments Err {E A} e.

(* ===================================================================== *)
(** * Part I: definitions                                                *)
(* ===================================================================== *)

(** ** Strings

    Text that may leave the ASCII range is held UTF-8 encoded, one [ascii]
    per byte, as the source files themselves are. *)

Module Text.

Abbreviation chars := (list ascii).

Definition of_string : string -> chars := String.list_ascii_of_string.
Definition to_string : chars -> string := String.string_of_list_ascii.

(** U+00A0 NO-BREAK SPACE and U+20AC EURO SIGN in UTF-8. *)
Definition nbsp : chars := [ascii_of_nat 194; ascii_of_nat 160].
Definition euro : chars := [ascii_of_nat 226; ascii_of_nat 130; ascii_of_nat 172].

(** [s.startsWith(p)]. *)
Fixpoint starts_with (p s : chars) : bool :=
  match p, s with
  | [], _ => true
  | _ :: _, [] => false
  | a :: p', b :: s' => if decide (a = b) then starts_with p' s' else false
  end.

(** [s.endsWith(p)]. *)
Definition ends_with (p s : chars) : bool := starts_with (rev p) (rev s).

(** [s.includes(p)]. *)
Fixpoint includes (p s : chars) : bool :=
  starts_with p s ||
  match s with
  | [] => false
  | _ :: s' => includes p s'
  end.

(** ASCII lower-casing of one byte; bytes of multi-byte characters are left
    alone. *)
Definition lower_ascii (c : ascii) : ascii :=
  let n := N_of_ascii c in
  if ((65 <=? n) && (n <=? 90))%N then ascii_of_N (n + 32) else c.

Definition lower (s : chars) : chars := map lower_ascii s.

(** [s.replaceAll(pat, "")] for a non-empty [pat]: scan left to right and
    drop every occurrence.  [skip] counts the bytes of the current
    occurrence that are still to be dropped. *)
Fixpoint remove_from (pat : chars) (skip : nat) (s : chars) : chars :=
  match s with
  | [] => []
  | c :: s' =>
    match skip with
    | S k => remove_from pat k s'
    | O => if starts_with pat s
           then remove_from pat (length pat - 1) s'
           else c :: remove_from pat 0 s'
    end
  end.

Definition remove_all (pat s : chars) : chars :=
  match pat with
  | [] => s
  | _ :: _ => remove_from pat 0 s
  end.

(** [s.trim()] restricted to the blanks that occur in the modelled inputs:
    space, tab, line feed, carriage return. *)
Definition is_blank (c : ascii) : bool :=
  match c with
  | " " | "009" | "010" | "013" => true
  | _ => false
  end%char.

Fixpoint trim_start (s : chars) : chars :=
  match s with
  | c :: s' => if is_blank c then trim_start s' else s
  | [] => []
  end.

Definition trim (s : chars) : chars := rev (trim_start (rev (trim_start s))).

(** Decimal digits. *)
Fixpoint digits_of_uint (d : Decimal.uint) : chars :=
  match d with
  | Decimal.Nil => []
  | Decimal.D0 d => "0"%char :: digits_of_uint d
  | Decimal.D1 d => "1"%char :: digits_of_uint d
  | Decimal.D2 d => "2"%char :: digits_of_uint d
  | Decimal.D3 d => "3"%char :: digits_of_uint d
  | Decimal.D4 d => "4"%char :: digits_of_uint d
  | Decimal.D5 d => "5"%char :: digits_of_uint d
  | Decimal.D6 d => "6"%char :: digits_of_uint d
  | Decimal.D7 d => "7"%char :: digits_of_uint d
  | Decimal.D8 d => "8"%char :: digits_of_uint d
  | Decimal.D9 d => "9"%char :: digits_of_uint d
  end.

Definition digit_of_ascii (c : ascii) : option (Decimal.uint -> Decimal.uint) :=
  match c with
  | "0" => Some Decimal.D0
  | "1" => Some Decimal.D1
  | "2" => Some Decimal.D2
  | "3" => Some Decimal.D3
  | "4" => Some Decimal.D4
  | "5" => Some Decimal.D5
  | "6" => Some Decimal.D6
  | "7" => Some Decimal.D7
  | "8" => Some Decimal.D8
  | "9" => Some Decimal.D9
  | _ => None
  end%char.

Definition is_digit (c : ascii) : bool :=
  match digit_of_ascii c with Some _ => true | None => false end.

(** Reads a run of digits; [None] when a byte is not a digit. *)
Fixpoint uint_of_digits (s : chars) : option Decimal.uint :=
  match s with
  | [] => Some Decimal.Nil
  | c :: s' =>
    match digit_of_ascii c, uint_of_digits s' with
    | Some d, Some u => Some (d u)
    | _, _ => None
    end
  end.

(** [String(n)] for a natural number. *)
Definition digits_of_N (n : N) : chars := digits_of_uint (N.to_uint n).

End Text.

(** ** [String.prototype.trim]

    The white space and line terminators of ECMAScript, UTF-8 encoded:
    U+0009 to U+000D and U+0020 (one byte), U+00A0 (two bytes), and U+1680,
    U+2000 to U+200A, U+2028, U+2029, U+202F, U+205F, U+3000 and U+FEFF
    (three bytes). *)

Module JsText.
Import Text.

Definition code (c : ascii) : N := N_of_ascii c.

Definition white_space1 (c : ascii) : bool :=
  ((0x09 <=? code c) && (code c <=? 0x0D) || (code c =? 0x20))%N.

Definition white_space2 (c1 c2 : ascii) : bool :=
  ((code c1 =? 0xC2) && (code c2 =? 0xA0))%N.

Definition white_space3 (c1 c2 c3 : ascii) : bool :=
  ((code c1 =? 0xE1) && (code c2 =? 0x9A) && (code c3 =? 0x80) ||
   (code c1 =? 0xE2) && (code c2 =? 0x80) &&
     ((0x80 <=? code c3) && (code c3 <=? 0x8A) ||
      (code c3 =? 0xA8) || (code c3 =? 0xA9) || (code c3 =? 0xAF)) ||
   (code c1 =? 0xE2) && (code c2 =? 0x81) && (code c3 =? 0x9F) ||
   (code c1 =? 0xE3) && (code c2 =? 0x80) && (code c3 =? 0x80) ||
   (code c1 =? 0xEF) && (code c2 =? 0xBB) && (code c3 =? 0xBF))%N.

(** Drop the white space [s] starts with.  With [backwards] the bytes of
    [s] come last byte first, as when the end of a string is trimmed. *)
Fixpoint drop_white_space (backwards : bool) (s : chars) : chars :=
  match s with
  | [] => []
  | c1 :: s1 =>
    if white_space1 c1 then drop_white_space backwards s1
    else
      match s1 with
      | [] => s
      | c2 :: s2 =>
        if (if backwards then white_space2 c2 c1 else white_space2 c1 c2)
        then drop_white_space backwards s2
        else
          match s2 with
          | [] => s
          | c3 :: s3 =>
            if (if backwards then white_space3 c3 c2 c1 else white_space3 c1 c2 c3)
            then drop_white_space backwards s3
            else s
          end
      end
  end.

Definition trim_chars (s : chars) : chars :=
  rev (drop_white_space true (rev (drop_white_space false s))).

(** [s] starts with a white space, read in the given direction. *)
Definition white_start (backwards : bool) (s : chars) : bool :=
  match s with
  | [] => false
  | c1 :: s1 =>
    white_space1 c1 ||
    match s1 with
    | [] => false
    | c2 :: s2 =>
      (if backwards then white_space2 c2 c1 else white_space2 c1 c2) ||
      match s2 with
      | [] => false
      | c3 :: _ => if backwards then white_space3 c3 c2 c1 else white_space3 c1 c2 c3
      end
    end
  end.

(** [s.trim()]. *)
Definition trim (s : string) : string := to_string (trim_chars (of_string s)).

End JsText.

(** ** JavaScript numbers

    A JavaScript [number] is an IEEE 754 binary64 value.  A decimal of a
    JSON document or of a literal becomes the double nearest to it, ties to
    the even significand ([nearest]).  What JavaScript prints for a finite
    double, and what [Intl.NumberFormat] rounds, is its shortest decimal:
    the decimal with the fewest digits that reads back as the same double,
    the closest one when there are several ([shortest]). *)

Module Number.
Local Open Scope Q_scope.

(** [floor(log2 q)] for a positive [q]. *)
Definition ilog2 (q : Q) : Z :=
  let k := (Z.log2 (Qnum q) - Z.log2 (Z.pos (Qden q)))%Z in
  if Qle_bool (2 ^ k) q then k else (k - 1)%Z.

(** Rounding to the nearest integer, ties to even. *)
Definition round_half_even (t : Q) : Z :=
  let f := Qfloor t in
  match Qcompare (t - inject_Z f) (1 # 2) with
  | Lt => f
  | Gt => (f + 1)%Z
  | Eq => if Z.even f then f else (f + 1)%Z
  end.

(** The exponent of the last bit of the doubles around a positive [q]: 53
    bits of significand, and not below [2^-1074], the smallest subnormal. *)
Definition quantum (q : Q) : Z := Z.max (ilog2 q - 52) (-1074).

(** The double nearest to a positive [q]; [None] when it is infinite. *)
Definition nearest_pos (q : Q) : option Q :=
  let p := quantum q in
  let d := inject_Z (round_half_even (q / 2 ^ p)) * 2 ^ p in
  if Qle_bool (2 ^ 1024) d then None else Some d.

(** The double nearest to [q].  [None] stands for the values that [Q] has
    no room for: the infinities and the negative zero. *)
Definition nearest (q : Q) : option Q :=
  match Qcompare q 0 with
  | Eq => Some 0
  | Gt => nearest_pos q
  | Lt => match nearest_pos (- q) with
          | Some d => if Qeq_bool d 0 then None else Some (- d)
          | None => None
          end
  end.

(** The decimal [c] reads back as the double [d]. *)
Definition reads_as (d c : Q) : bool :=
  match nearest c with
  | Some d' => Qeq_bool d' d
  | None => false
  end.

(** Among the multiples of [10^j], the one that reads back as the positive
    double [d], if any: it is one of the two next to [d]; of two that read
    back as [d] the closer, and on a tie the even one. *)
Definition pick (d : Q) (j : Z) : option Q :=
  let u := 10 ^ j in
  let k := Qfloor (d / u) in
  let lo := inject_Z k * u in
  let hi := inject_Z (k + 1) * u in
  match reads_as d lo, reads_as d hi with
  | false, false => None
  | true, false => Some lo
  | false, true => Some hi
  | true, true =>
    match Qcompare (d - lo) (hi - d) with
    | Lt => Some lo
    | Gt => Some hi
    | Eq => if Z.even k then Some lo else Some hi
    end
  end.

(** From the coarsest unit to the finest: the first unit with a multiple
    that reads back as [d] gives the fewest digits. *)
Fixpoint scan (d : Q) (j : Z) (fuel : nat) : Q :=
  match fuel with
  | O => d
  | S n => match pick d j with
           | Some c => c
           | None => scan d (j - 1) n
           end
  end.

(** Every finite double is below [10^309] and a multiple of [2^-1074],
    which has 1074 decimals. *)
Definition shortest_pos (d : Q) : Q := scan d 309 1400.

(** The shortest decimal of a double. *)
Definition shortest (d : Q) : Q :=
  match Qcompare d 0 with
  | Eq => 0
  | Gt => shortest_pos d
  | Lt => - shortest_pos (- d)
  end.

(** The number that a decimal [q] of a JSON document or of a literal
    becomes, as its shortest decimal. *)
Definition of_decimal (q : Q) : option Q := shortest <$> nearest q.

End Number.

(** ** Number formatting ([formatCurrency], frontend/src/lib/api.ts) *)

Module Format.
Import Text.

(** Rounding to the nearest integer, ties away from zero: the default
    rounding mode ("halfExpand") of [Intl.NumberFormat]. *)
Definition round_half_expand (q : Q) : Z :=
  Z.sgn (Qnum q) *
  ((2 * Z.abs (Qnum q) + Z.pos (Qden q)) / (2 * Z.pos (Qden q))).

(** Grouping of an integer part written least significant digit first: a
    dot after every third digit that has a digit after it. *)
Fixpoint group_lsd (l : chars) : chars :=
  match l with
  | a :: b :: c :: ((_ :: _) as rest) => a :: b :: c :: "."%char :: group_lsd rest
  | _ => l
  end.

Definition group_thousands (digits : chars) : chars :=
  rev (group_lsd (rev digits)).

Definition digit_char (n : N) : ascii := ascii_of_N (48 + n).

(** A value below one hundred on exactly two digits. *)
Definition two_digits (n : N) : chars :=
  [digit_char (n / 10); digit_char (n mod 10)].

(** The integer part with its grouping dots.  How many digits a number
    needs before it is grouped is locale data of the runtime: the grouping
    separator is used when at least [minimumGroupingDigits] digits stand
    before the first one.  For it-IT that is 1 in older releases of the
    locale data and 2 in current ones, where 1234,56 is printed without a
    dot and 12.345,67 with one. *)
Definition integer_part (minimumGroupingDigits : nat) (digits : chars) : chars :=
  if bool_decide (3 + minimumGroupingDigits <= length digits)%nat
  then group_thousands digits
  else digits.

(** [formatCurrency(amount)]:
    [new Intl.NumberFormat("it-IT", { style: "currency", currency: "EUR",
       minimumFractionDigits: 2, maximumFractionDigits: 2 }).format(amount)].
    The it-IT pattern for currencies is [#,##0.00 ¤] with [.] for grouping,
    [,] for decimals, a hyphen-minus for negative values and a no-break
    space before the symbol: [-1.234,56 €].  [amount] is the number as its
    shortest decimal, which is what the formatter rounds. *)
Definition formatCurrency_chars (minimumGroupingDigits : nat) (amount : Q) : chars :=
  let cents := Z.to_N (Z.abs (round_half_expand (amount * 100))) in
  (if Qnum amount <? 0 then ["-"%char] else []) ++
  integer_part minimumGroupingDigits (digits_of_N (cents / 100)) ++
  [","%char] ++ two_digits (cents mod 100) ++ nbsp ++ euro.

Definition formatCurrency (minimumGroupingDigits : nat) (amount : Q) : string :=
  to_string (formatCurrency_chars minimumGroupingDigits amount).

(** The bytes a formatted amount is made of, before the blank and the
    currency symbol: digits, grouping dots, the decimal comma, the sign. *)
Definition amount_char (c : ascii) : bool :=
  is_digit c || bool_decide (c = "."%char) || bool_decide (c = ","%char)
  || bool_decide (c = "-"%char).

End Format.

(** ** Normalization utilities (back end, section 4.1 of the spec) *)

Module Normalization.
Import Text.

Inductive NormalizationError := DateFormatError | AmountFormatError.

(** An exact decimal: [coeff * 10^(-scale)], as Python's [Decimal] holds
    it (sign and digits in [coeff], exponent [-scale]). *)
Record decimal := { coeff : Z; scale : nat }.

Definition decimal_value (d : decimal) : Q :=
  Qmake (coeff d) (Z.to_pos (10 ^ Z.of_nat (scale d))).


Definition currency_symbols : list chars :=
  [euro; ["$"%char]; [ascii_of_nat 194; ascii_of_nat 163]].

Definition blanks : list chars := [nbsp; [" "%char]].

Definition thousands_separator : chars := ["."%char].

Definition strip_all (pats : list chars) (s : chars) : chars :=
  foldl (fun acc p => remove_all p acc) s pats.

Definition comma_to_point (s : chars) : chars :=
  map (fun c => if decide (c = ","%char) then "."%char else c) s.

(** Splits at the first decimal point; no point, no fraction. *)
Fixpoint split_point (s : chars) : chars * chars :=
  match s with
  | [] => ([], [])
  | c :: s' =>
    if decide (c = "."%char) then ([], s')
    else let '(i, f) := split_point s' in (c :: i, f)
  end.

Definition split_sign (s : chars) : bool * chars :=
  match s with
  | "-"%char :: r => (true, r)
  | "+"%char :: r => (false, r)
  | _ => (false, s)
  end.

(** A plain decimal literal: optional sign, digits, optional point and
    digits.  Anything else is non-numeric residue. *)
Definition parse_decimal (s : chars) : result NormalizationError decimal :=
  let '(negative, body) := split_sign s in
  let '(ip, fp) := split_point body in
  match ip, uint_of_digits ip, uint_of_digits fp with
  | _ :: _, Some u, Some v =>
    let magnitude :=
      Z.of_N (N.of_uint u) * 10 ^ Z.of_nat (length fp) + Z.of_N (N.of_uint v) in
    Ok {| coeff := if negative then - magnitude else magnitude;
          scale := length fp |}
  | _, _, _ => Err AmountFormatError
  end.

(** [s.split(sep)]. *)
Fixpoint split_on (sep : ascii) (s : chars) : list chars :=
  match s with
  | [] => [[]]
  | c :: s' =>
    if decide (c = sep) then [] :: split_on sep s'
    else match split_on sep s' with
         | [] => [[c]]
         | field :: fields => (c :: field) :: fields
         end
  end.

(** A calendar date. *)
Record Date := { year : Z; month : Z; day : Z }.

Definition is_leap_year (y : Z) : bool :=
  ((y mod 4 =? 0) && negb (y mod 100 =? 0)) || (y mod 400 =? 0).

Definition days_in_month (y m : Z) : Z :=
  if (m =? 2) then (if is_leap_year y then 29 else 28)
  else if (m =? 4) || (m =? 6) || (m =? 9) || (m =? 11) then 30
  else 31.

Definition valid_date (d : Date) : bool :=
  (1 <=? month d) && (month d <=? 12) &&
  (1 <=? day d) && (day d <=? days_in_month (year d) (month d)).

(** A field of one to [width] digits. *)
Definition number_field (width : nat) (s : chars) : option Z :=
  match s with
  | [] => None
  | _ :: _ =>
    if bool_decide (length s ≤ width)%nat
    then (fun u => Z.of_N (N.of_uint u)) <$> uint_of_digits s
    else None
  end.

Definition checked_date (y m d : option Z) : option Date :=
  y ← y; m ← m; d ← d;
  let date := {| year := y; month := m; day := d |} in
  if valid_date date then Some date else None.

(** [dd<sep>mm<sep>yyyy]. *)
Definition parse_dmy (sep : ascii) (s : chars) : option Date :=
  match split_on sep s with
  | [d; m; y] =>
    if bool_decide (length y = 4%nat)
    then checked_date (number_field 4 y) (number_field 2 m) (number_field 2 d)
    else None
  | _ => None
  end.

(** [yyyy-mm-dd]. *)
Definition parse_iso (s : chars) : option Date :=
  match split_on "-"%char s with
  | [y; m; d] =>
    if bool_decide (length y = 4%nat)
    then checked_date (number_field 4 y) (number_field 2 m) (number_field 2 d)
    else None
  | _ => None
  end.

(** Modelled from the spec: [parseLocalizedDate] is back-end code that is
    not part of the front-end sources.  Section 4.1: "tries formats in
    priority order [dd/mm/yyyy], [dd-mm-yyyy], [dd.mm.yyyy], then ISO
    [yyyy-mm-dd]; fails with [DateFormatError] if none match". *)
Definition parseLocalizedDate (text : string) : result NormalizationError Date :=
  let s := trim (of_string text) in
  match parse_dmy "/"%char s, parse_dmy "-"%char s, parse_dmy "."%char s, parse_iso s with
  | Some d, _, _, _ => Ok d
  | None, Some d, _, _ => Ok d
  | None, None, Some d, _ => Ok d
  | None, None, None, Some d => Ok d
  | None, None, None, None => Err DateFormatError
  end.

(** Modelled from the spec: [parseLocalizedAmount] is back-end code that is
    not part of the front-end sources.  Section 4.1: "strips currency
    symbols and thousands separators ([.] in Italian convention), converts
    decimal comma to decimal point, preserves sign; fails with
    [AmountFormatError] on non-numeric residue.  Must use exact decimal
    arithmetic".  The blank that separates the amount from the symbol is
    stripped with the symbol. *)
Definition parseLocalizedAmount (text : string) : result NormalizationError decimal :=
  parse_decimal
    (comma_to_point
       (strip_all (blanks ++ currency_symbols ++ [thousands_separator])
          (of_string text))).

End Normalization.

(** ** A small virtual DOM

    What a component renders: text, and elements with a tag (an HTML tag or
    the name of a child component), attributes and children.  Event
    handlers are not part of what is displayed and are left out. *)

Module Dom.

(** What an expression of the render hands to a prop or puts among the
    children: a string, or, where a lookup in a plain object finds nothing
    of the object's own but a member that every object inherits from
    [Object.prototype], that member (a function or, for [__proto__], the
    prototype itself). *)
Inductive value :=
| Str (s : string)
| Inherited (name : string).

Inductive node :=
| Text (s : string)
| Foreign (name : string)
| El (tag : string) (attrs : list (string * value)) (children : list node).

(** A value among the children of an element. *)
Definition child (v : value) : node :=
  match v with
  | Str s => Text s
  | Inherited name => Foreign name
  end.

Definition children (n : node) : list node :=
  match n with
  | Text _ | Foreign _ => []
  | El _ _ cs => cs
  end.

(** The value of a prop. *)
Definition prop (name : string) (n : node) : option value :=
  match n with
  | Text _ | Foreign _ => None
  | El _ attrs _ => snd <$> List.find (fun kv => String.eqb (fst kv) name) attrs
  end.


(** Every element with the given tag, the node itself included, in document
    order ([querySelectorAll(tag)]). *)
Fixpoint find_all (tag : string) (n : node) : list node :=
  match n with
  | Text _ | Foreign _ => []
  | El tg _ cs =>
    (if String.eqb tg tag then [n] else []) ++
    (fix go (l : list node) : list node :=
       match l with
       | [] => []
       | c :: l' => find_all tag c ++ go l'
       end) cs
  end.

(** [textContent]: the strings of the tree, in order.  A child that is not
    a string adds no text. *)
Fixpoint text_content (n : node) : string :=
  match n with
  | Text s => s
  | Foreign _ => ""
  | El _ _ cs =>
    (fix go (l : list node) : string :=
       match l with
       | [] => ""
       | c :: l' => text_content c +:+ go l'
       end) cs
  end.

End Dom.

(** ** The import preview table
    (frontend/src/components/import/preview-table.tsx) *)

Module Preview.
Import Dom.

(** [type: "income" | "expense" | "transfer"]. *)
Inductive TransactionType := income | expense | transfer.

(** [interface PreviewTransaction]: the shape of a parsed transaction as the
    upload endpoint returns it. *)
Record PreviewTransaction := {
  temp_id : string;
  date : string;
  amount : Q;
  currency : string;
  description : string;
  original_description : string;
  type : TransactionType;
  category_name : option string;
  confidence : Q;
  matched_by : option string
}.

(** [interface PreviewTableProps], without the [onCategoryOverride]
    callback. *)
Record PreviewTableProps := {
  transactions : list PreviewTransaction;
  errors : list string;
  categoryOverrides : gmap string string
}.

(** What the component imports from modules that are not among the
    sources: the translation function of [useTranslations("upload")] (with
    and without a [count] parameter), [formatDate] (whose output depends on
    the time zone of the browser) and the class-name joiner [cn] of
    [@/lib/utils]; and what [formatCurrency] takes from the locale data of
    the runtime, [minimumGroupingDigits] of it-IT. *)
Record Env := {
  t : string -> string;
  t_count : string -> nat -> string;
  formatDate : string -> string;
  cn : list string -> string;
  minimumGroupingDigits : nat
}.

(** [confidenceColor(c)]:
    [if (c >= 0.7) return "bg-emerald-500";
     if (c >= 0.4) return "bg-amber-400";
     return "bg-rose-500";] *)
Definition confidenceColor (c : Q) : string :=
  if Qle_bool (7 # 10) c then "bg-emerald-500"
  else if Qle_bool (4 # 10) c then "bg-amber-400"
  else "bg-rose-500".

(** [confidenceLabel(c, t)]: the same thresholds, returning the translated
    label. *)
Definition confidenceLabel (c : Q) (t : string -> string) : string :=
  if Qle_bool (7 # 10) c then t "highConfidence"
  else if Qle_bool (4 # 10) c then t "mediumConfidence"
  else t "lowConfidence".

(** [typeLabel(type)]; the [default] branch of the [switch] is out of reach
    of a value of the declared union. *)
Definition typeLabel (e : Env) (ty : TransactionType) : string :=
  match ty with
  | income => t e "income"
  | expense => t e "expense"
  | transfer => t e "transfer"
  end.

(** The names of the members of [Object.prototype], which a plain object
    such as [categoryOverrides] inherits. *)
Definition Object_prototype : list string :=
  ["constructor"; "__defineGetter__"; "__defineSetter__"; "hasOwnProperty";
   "__lookupGetter__"; "__lookupSetter__"; "isPrototypeOf";
   "propertyIsEnumerable"; "toString"; "valueOf"; "__proto__";
   "toLocaleString"].

(** [categoryOverrides[tx.temp_id]]: the override stored under the key, or
    else the inherited member of that name, or else [undefined]. *)
Definition overridden (ov : gmap string string) (tx : PreviewTransaction) :
    option value :=
  match ov !! temp_id tx with
  | Some o => Some (Str o)
  | None => if bool_decide (temp_id tx ∈ Object_prototype)
            then Some (Inherited (temp_id tx))
            else None
  end.

(** [overridden ?? tx.category_name ?? "—"]. *)
Definition displayCategory (ov : gmap string string) (tx : PreviewTransaction) : value :=
  match overridden ov tx with
  | Some o => o
  | None => Str (default "—" (category_name tx))
  end.

Definition className (c : string) : string * value := ("className", Str c).

(** The body of [transactions.map((tx) => ...)]: one [<tr>] of six cells. *)
Definition render_row (e : Env) (ov : gmap string string)
    (editingId : option string) (tx : PreviewTransaction) : node :=
  let isEditing := bool_decide (editingId = Some (temp_id tx)) in
  El "tr" [("key", Str (temp_id tx)); className "hover:bg-slate-50/60"] [
    El "td" [className "whitespace-nowrap px-4 py-2.5 text-slate-700"]
      [Text (formatDate e (date tx))];
    El "td" [className "max-w-[240px] truncate px-4 py-2.5 text-slate-700";
             ("title", Str (original_description tx))]
      [Text (description tx)];
    El "td" [className (cn e ["whitespace-nowrap px-4 py-2.5 text-right font-medium";
                              match type tx with
                              | income => "text-emerald-600"
                              | _ => "text-rose-600"
                              end])]
      [Text (Format.formatCurrency (minimumGroupingDigits e) (amount tx))];
    El "td" [className "px-4 py-2.5"]
      [El "span" [className (cn e ["inline-block rounded-full px-2 py-0.5 text-xs font-medium";
                                   match type tx with
                                   | income => "bg-emerald-100 text-emerald-700"
                                   | transfer => "bg-blue-100 text-blue-700"
                                   | expense => "bg-rose-100 text-rose-700"
                                   end])]
         [Text (typeLabel e (type tx))]];
    El "td" [className "px-4 py-2.5"]
      [if isEditing
       then El "Input" [("defaultValue", displayCategory ov tx);
                        className "h-7 w-32 text-xs"] []
       else El "button" [("type", Str "button");
                         className "inline-block rounded-md bg-slate-100 px-2 py-0.5 text-xs font-medium text-slate-700 hover:bg-slate-200";
                         ("title", Str (t e "category"))]
              [child (displayCategory ov tx)]];
    El "td" [className "px-4 py-2.5"]
      [El "span" [className "flex items-center gap-1.5 text-xs text-slate-600"]
         [El "span" [className (cn e ["inline-block h-2 w-2 rounded-full";
                                      confidenceColor (confidence tx)])] [];
          Text (confidenceLabel (confidence tx) (t e))]]
  ].

(** [String(i)] for an array index. *)
Definition index_key (i : nat) : string :=
  Text.to_string (Text.digits_of_N (N.of_nat i)).

(** The block [{errors.length > 0 && (...)}]: the box of parsing errors,
    one [<li>] per error, keyed by its position in [errors]. *)
Definition error_box (e : Env) (errors : list string) : list node :=
  if bool_decide (0 < length errors)%nat
  then [El "div" [className "rounded-lg border border-amber-300 bg-amber-50 p-3"]
          [El "div" [className "mb-1 flex items-center gap-2 text-sm font-medium text-amber-800"]
             [El "AlertTriangle" [className "h-4 w-4"] [];
              Text (t e "parsingErrors")];
           El "ul" [className "list-inside list-disc text-xs text-amber-700"]
             (imap (fun i err => El "li" [("key", Str (index_key i))] [Text err])
                   errors)]]
  else [].

(** The [<thead>]: six column titles. *)
Definition table_head (e : Env) : node :=
  El "thead" [className "border-b border-slate-200 bg-slate-50 text-xs uppercase text-slate-500"]
    [El "tr" []
       [El "th" [className "px-4 py-3"] [Text (t e "date")];
        El "th" [className "px-4 py-3"] [Text (t e "description")];
        El "th" [className "px-4 py-3 text-right"] [Text (t e "amount")];
        El "th" [className "px-4 py-3"] [Text (t e "type")];
        El "th" [className "px-4 py-3"] [Text (t e "category")];
        El "th" [className "px-4 py-3"] [Text (t e "confidence")]]].

(** [export function PreviewTable(...)]: the subtitle with the number of
    transactions, the box of parsing errors when there are any, and the
    table.  [editingId] is the component's state. *)
Definition PreviewTable (e : Env) (p : PreviewTableProps)
    (editingId : option string) : node :=
  El "div" [className "space-y-4"] (
    [El "p" [className "text-sm text-slate-600"]
       [Text (t_count e "previewSubtitle" (length (transactions p)))]] ++
    error_box e (errors p) ++
    [El "div" [className "overflow-x-auto rounded-lg border border-slate-200"]
       [El "table" [className "w-full text-left text-sm"]
          [table_head e;
           El "tbody" [className "divide-y divide-slate-100"]
             (map (render_row e (categoryOverrides p) editingId)
                  (transactions p))]]]).

(** *** Reading the rendered table back *)

(** The rows of the table body. *)
Definition body_rows (dom : node) : list node :=
  concat (map children (find_all "tbody" dom)).








(** What the category cell offers: the child of the button, or the value
    the input starts with while the row is being edited. *)
Definition category_shown (row : node) : option value :=
  cell ← children row !! 4%nat;
  widget ← head (children cell);
  match prop "defaultValue" widget with
  | Some v => Some v
  | None =>
    match children widget with
    | [Text s] => Some (Str s)
    | [Foreign name] => Some (Inherited name)
    | _ => None
    end
  end.

(** [tx] with its [matched_by] replaced. *)
Definition with_matched_by (m : option string) (tx : PreviewTransaction) :
    PreviewTransaction :=
  {| temp_id := temp_id tx; date := date tx; amount := amount tx;
     currency := currency tx; description := description tx;
     original_description := original_description tx; type := type tx;
     category_name := category_name tx; confidence := confidence tx;
     matched_by := m |}.


(** A sample environment (every key translated to itself, dates shown as
    they come, classes joined by blanks) and a sample preview of one
    transaction, categorized by the given tier. *)
Definition sample_env : Env :=
  {| t := fun key => key;
     t_count := fun key _ => key;
     formatDate := fun d => d;
     cn := String.concat " ";
     minimumGroupingDigits := 2 |}.

Definition sample_row (tier : string) : PreviewTransaction :=
  {| temp_id := "tmp-1"; date := "2025-02-25"; amount := -8950 # 100;
     currency := "EUR"; description := "ADDEBITO SDD ENEL ENERGIA";
     original_description := "ADDEBITO SDD ENEL ENERGIA"; type := expense;
     category_name := Some "Utenze"; confidence := 6 # 10;
     matched_by := Some tier |}.


(** A sample preview of a file of three rows of which the second could not
    be parsed: the transactions of the first and of the third row, and one
    error message. *)
Definition sample_parsed (tempId description : string) (amount : Q) : PreviewTransaction :=
  {| temp_id := tempId; date := "2025-02-25"; amount := amount;
     currency := "EUR"; description := description;
     original_description := description; type := expense;
     category_name := Some "Utenze"; confidence := 6 # 10;
     matched_by := Some "keyword" |}.


End Preview.

(** ** The upload zone
    (frontend/src/components/import/upload-zone.tsx) *)

Module Upload.
Import Text.

(** The fields of a DOM [File] that the drop zone reads. *)
Record File := {
  name : string;
  type : string;
  size : N
}.

(** The options the component passes to [useDropzone]. *)
Definition accept : list (string * list string) :=
  [("text/csv", [".csv"]); ("application/pdf", [".pdf"])].

Definition maxSize : N := 10 * 1024 * 1024.

Definition multiple : bool := false.

(** *** What file-selector hands to the drop zone

    [useDropzone] belongs to the react-dropzone package, a dependency, and
    reads the files of a drop or of a selection with its own dependency
    file-selector.  Both are embedded as the packages are written. *)

(** How the files arrive: dropped on the zone, or picked in the file
    dialog. *)
Inductive Gesture := dropped | picked.

(** What stands after the last dot of a name that has one:
    [name.split(".").pop()] under [name.lastIndexOf(".") !== -1]. *)
Fixpoint extension_from (s : chars) (found : option chars) : option chars :=
  match s with
  | [] => found
  | c :: s' =>
    if decide (c = "."%char) then extension_from s' (Some [])
    else extension_from s' ((fun ext => ext ++ [c]) <$> found)
  end.

Definition extension (name : string) : option string :=
  to_string <$> extension_from (of_string name) None.

Section FileSelector.

(** The table of file-selector from extensions to MIME types, about 1200
    entries, is not among the sources: [COMMON_MIME_TYPES ext] stands for
    [COMMON_MIME_TYPES.get(ext.toLowerCase())]. *)
Variable COMMON_MIME_TYPES : string -> option string.

(** [withMimeType(file)]: a file that comes without a type gets the type
    the table has for its extension. *)
Definition withMimeType (file : File) : File :=
  match extension (name file) with
  | Some ext =>
    if bool_decide (type file = "")
    then match COMMON_MIME_TYPES ext with
         | Some ty => if bool_decide (ty = "") then file
                      else {| name := name file; type := ty; size := size file |}
         | None => file
         end
    else file
  | None => file
  end.

Definition FILES_TO_IGNORE : list string := [".DS_Store"; "Thumbs.db"].

(** [noIgnoredFiles(files)]. *)
Definition noIgnoredFiles (files : list File) : list File :=
  List.filter (fun f => negb (bool_decide (name f ∈ FILES_TO_IGNORE))) files.

(** [fromEvent(event)]: every file goes through [withMimeType]; the files
    of a drop are cleared of the ignored ones. *)
Definition fromEvent (g : Gesture) (files : list File) : list File :=
  match g with
  | dropped => noIgnoredFiles (map withMimeType files)
  | picked => map withMimeType files
  end.

End FileSelector.

(** *** The filter of react-dropzone

    The [accept] table is flattened into a list of MIME types and
    extensions; a file is acceptable when its type is
    [application/x-moz-file], or when its MIME type or the end of its name
    matches an entry (case ignored); a file larger than [maxSize] is
    rejected, and without [multiple] a drop that holds more than one
    acceptable file is rejected as a whole. *)

Definition acceptPropAsAcceptAttr (a : list (string * list string)) : list string :=
  flat_map (fun '(mime, exts) => mime :: exts) a.

(** [mime.replace(/\/.*$/, "")]: what stands before the first slash. *)
Fixpoint base_mime (mime : chars) : chars :=
  match mime with
  | [] => []
  | c :: rest => if decide (c = "/"%char) then [] else c :: base_mime rest
  end.

(** [accepts(file, acceptedTypes)] of attr-accept. *)
Definition accepts (file : File) (acceptedTypes : list string) : bool :=
  let fileName := lower (of_string (name file)) in
  let mimeType := lower (of_string (type file)) in
  existsb
    (fun ty =>
       let validType := lower (JsText.trim_chars (of_string ty)) in
       if starts_with ["."%char] validType then ends_with validType fileName
       else if ends_with (of_string "/*") validType
            then bool_decide (base_mime mimeType = base_mime validType)
            else bool_decide (mimeType = validType))
    acceptedTypes.

(** [fileAccepted(file, accept)]:
    [file.type === "application/x-moz-file" || accepts(file, accept)]. *)
Definition fileAccepted (file : File) : bool :=
  bool_decide (type file = "application/x-moz-file") ||
  accepts file (acceptPropAsAcceptAttr accept).

Definition fileMatchSize (file : File) : bool :=
  negb (maxSize <? size file)%N.

(** A file passes when its type is accepted and its size fits. *)
Definition passes (f : File) : bool := fileAccepted f && fileMatchSize f.

(** The accepted files and the rejected files among the files that
    file-selector hands over. *)
Definition dropzone_filter (files : list File) : list File * list File :=
  let acceptedFiles := List.filter passes files in
  let fileRejections := List.filter (fun f => negb (passes f)) files in
  if negb multiple && bool_decide (1 < length acceptedFiles)%nat
  then ([], fileRejections ++ acceptedFiles)
  else (acceptedFiles, fileRejections).

(** *** The component *)

(** [onDrop]: [if (accepted.length > 0) onFileSelect(accepted[0])].  The
    result is the list of arguments [onFileSelect] is called with. *)
Definition onDrop (accepted : list File) : list File :=
  if bool_decide (0 < length accepted)%nat
  then match accepted !! 0%nat with
       | Some f => [f]
       | None => []
       end
  else [].

(** The calls of [onFileSelect] that one drop or selection of [files]
    leads to. *)
Definition onFileSelect_calls (COMMON_MIME_TYPES : string -> option string)
    (g : Gesture) (files : list File) : list File :=
  onDrop (fst (dropzone_filter (fromEvent COMMON_MIME_TYPES g files))).

(** The two formats of the [accept] table, each recognised by its MIME
    type or by its extension. *)
Definition is_csv (f : File) : bool :=
  bool_decide (lower (of_string (type f)) = of_string "text/csv") ||
  ends_with (of_string ".csv") (lower (of_string (name f))).

Definition is_pdf (f : File) : bool :=
  bool_decide (lower (of_string (type f)) = of_string "application/pdf") ||
  ends_with (of_string ".pdf") (lower (of_string (name f))).

(** The type Firefox gives to what it cannot tell the type of. *)
Definition is_moz_file (f : File) : bool :=
  bool_decide (type f = "application/x-moz-file").

(** Sample files, and the two entries of the table of file-selector that
    lead to an accepted type. *)
Definition photo : File :=
  {| name := "holiday.jpg"; type := "image/jpeg"; size := 2048 |}.

Definition moz_photo : File :=
  {| name := "holiday.jpg"; type := "application/x-moz-file"; size := 2048 |}.

Definition untyped_statement : File :=
  {| name := "Estratto.CSV"; type := ""; size := 2048 |}.

Definition sample_mime_types (ext : string) : option string :=
  let e := lower (of_string ext) in
  if bool_decide (e = of_string "csv") then Some "text/csv"
  else if bool_decide (e = of_string "pdf") then Some "application/pdf"
  else if bool_decide (e = of_string "jpg") then Some "image/jpeg"
  else None.

Definition statement : File :=
  {| name := "estratto.csv"; type := "text/csv"; size := 2048 |}.

End Upload.

(** ** Arrays *)

Module Arrays.

(** [Array.prototype.sort(comparefn)]: a stable sort.  An element goes
    before the first element of the sorted rest that it does not compare
    greater than, so elements that compare equal keep their order. *)
Fixpoint sort_insert {A} (cmp : A -> A -> Z) (x : A) (l : list A) : list A :=
  match l with
  | [] => [x]
  | y :: l' => if cmp x y <=? 0 then x :: l else y :: sort_insert cmp x l'
  end.

Definition array_sort {A} (cmp : A -> A -> Z) (l : list A) : list A :=
  foldr (sort_insert cmp) [] l.

(** The order of a list sorted by a key, largest first. *)
Definition key_desc {A} (key : A -> Z) (a b : A) : Prop := key a >= key b.

End Arrays.

(** ** Categorization rules: the rule form (rule-form.tsx) and the rules
    list (frontend/src/components/categories/rules-list.tsx) *)

Module Rules.

(** The fields of [CategorizationRule] and [Category] (declared in
    [@/lib/mock-categories]) that the two components read and write.  A
    [MatchType] is a string at run time. *)
Record CategorizationRule := {
  id : string;
  pattern : string;
  matchType : string;
  categoryId : string;
  categoryName : string;
  priority : Z
}.

Record Category := {
  cat_id : string;
  name : string;
  icon : string;
  parentId : option string
}.

(** [const MATCH_TYPES: MatchType[]]. *)
Definition MATCH_TYPES : list string :=
  ["contains"; "exact"; "regex"; "starts_with"].

(** [const MATCH_KEYS: Record<MatchType, string>] of the form, and
    [MATCH_TYPE_KEYS], [MATCH_TYPE_COLORS] of the list. *)
Definition MATCH_KEYS : gmap string string :=
  list_to_map [("contains", "matchContains"); ("exact", "matchExact");
               ("regex", "matchRegex"); ("starts_with", "matchStartsWith")].

Definition MATCH_TYPE_KEYS : gmap string string :=
  list_to_map [("contains", "matchContains"); ("exact", "matchExact");
               ("regex", "matchRegex"); ("starts_with", "matchStartsWith")].

Definition MATCH_TYPE_COLORS : gmap string string :=
  list_to_map [("contains", "bg-blue-50 text-blue-700");
               ("exact", "bg-purple-50 text-purple-700");
               ("regex", "bg-amber-50 text-amber-700");
               ("starts_with", "bg-cyan-50 text-cyan-700")].

(** *** The form *)

Record RuleFormProps := {
  rule : option CategorizationRule;
  categories : list Category
}.

(** The four [useState] cells. *)
Record FormState := {
  st_pattern : string;
  st_matchType : string;
  st_categoryId : string;
  st_priority : Z
}.

(** [useState(rule?.pattern ?? "")], [useState(rule?.matchType ??
    "contains")], [useState(rule?.categoryId ?? "")],
    [useState(rule?.priority ?? 10)]. *)
Definition initial_state (p : RuleFormProps) : FormState :=
  {| st_pattern := default "" (pattern <$> rule p);
     st_matchType := default "contains" (matchType <$> rule p);
     st_categoryId := default "" (categoryId <$> rule p);
     st_priority := default 10 (priority <$> rule p) |}.

(** [allLeaves]: the categories no category has as its parent. *)
Definition allLeaves (cats : list Category) : list Category :=
  List.filter
    (fun c => negb (existsb (fun ch => bool_decide (parentId ch = Some (cat_id c))) cats))
    cats.

(** The [value]s of the [<option>]s of the two [<select>]s. *)
Definition matchType_options : list string := MATCH_TYPES.

Definition category_options (p : RuleFormProps) : list string :=
  "" :: map cat_id (allLeaves (categories p)).

(** What the user can do to the form.  Choosing in a [<select>] is choosing
    one of its options, by position; [Submit] carries the value of
    [Date.now()] at that moment. *)
Inductive FormEvent :=
| ChangePattern (value : string)
| SelectMatchType (option_index : nat)
| SelectCategory (option_index : nat)
| ChangePriority (value : Z)
| Submit (now : Z)
| Cancel.

Inductive Callback :=
| onSave (saved : CategorizationRule)
| onCancel.

(** [s.trim()]. *)
Definition trim (s : string) : string := JsText.trim s.

(** [`rule-${now}`]. *)
Definition fresh_id (now : Z) : string :=
  "rule-" +:+
  Text.to_string ((if now <? 0 then ["-"%char] else []) ++
                  Text.digits_of_N (Z.to_N (Z.abs now))).

(** [handleSubmit]: nothing is saved while the trimmed pattern or the
    category is empty. *)
Definition handleSubmit (p : RuleFormProps) (st : FormState) (now : Z) : list Callback :=
  if bool_decide (trim (st_pattern st) = "") || bool_decide (st_categoryId st = "")
  then []
  else
    let selectedCat :=
      List.find (fun c => bool_decide (cat_id c = st_categoryId st)) (categories p) in
    [onSave {| id := default (fresh_id now) (id <$> rule p);
               pattern := trim (st_pattern st);
               matchType := st_matchType st;
               categoryId := st_categoryId st;
               categoryName := default "" (name <$> selectedCat);
               priority := st_priority st |}].

(** One event: the next state and the callbacks it fires. *)
Definition form_step (p : RuleFormProps) (st : FormState) (ev : FormEvent) :
    FormState * list Callback :=
  match ev with
  | ChangePattern v =>
    ({| st_pattern := v; st_matchType := st_matchType st;
        st_categoryId := st_categoryId st; st_priority := st_priority st |}, [])
  | SelectMatchType i =>
    match matchType_options !! i with
    | Some v =>
      ({| st_pattern := st_pattern st; st_matchType := v;
          st_categoryId := st_categoryId st; st_priority := st_priority st |}, [])
    | None => (st, [])
    end
  | SelectCategory i =>
    match category_options p !! i with
    | Some v =>
      ({| st_pattern := st_pattern st; st_matchType := st_matchType st;
          st_categoryId := v; st_priority := st_priority st |}, [])
    | None => (st, [])
    end
  | ChangePriority v =>
    ({| st_pattern := st_pattern st; st_matchType := st_matchType st;
        st_categoryId := st_categoryId st; st_priority := v |}, [])
  | Submit now => (st, handleSubmit p st now)
  | Cancel => (st, [onCancel])
  end.

(** A whole session with the form: the final state and every callback
    fired, in order. *)
Fixpoint form_run (p : RuleFormProps) (st : FormState) (evs : list FormEvent) :
    FormState * list Callback :=
  match evs with
  | [] => (st, [])
  | ev :: evs' =>
    let '(st1, out1) := form_step p st ev in
    let '(st2, out2) := form_run p st1 evs' in
    (st2, out1 ++ out2)
  end.

(** The rules the form hands to [onSave] in a session. *)
Definition saved_rules (p : RuleFormProps) (evs : list FormEvent) : list CategorizationRule :=
  omap (fun c => match c with onSave r => Some r | onCancel => None end)
       (snd (form_run p (initial_state p) evs)).

(** *** The list *)

(** [(a, b) => b.priority - a.priority]. *)
Definition by_priority_desc (a b : CategorizationRule) : Z :=
  priority b - priority a.

(** [rules.sort(...).map((rule) => <tr key={rule.id}>...)]: the rules in
    the order of the rendered rows.  The sort is in place, so this is also
    the [rules] array after the render. *)
Definition rendered_rules (rules : list CategorizationRule) : list CategorizationRule :=
  Arrays.array_sort by_priority_desc rules.

(** [handleSave]: replace the rule with the same id, or append. *)
Definition handleSave (saved : CategorizationRule) (prev : list CategorizationRule) :
    list CategorizationRule :=
  match List.find (fun r => bool_decide (id r = id saved)) prev with
  | Some _ => map (fun r => if bool_decide (id r = id saved) then saved else r) prev
  | None => prev ++ [saved]
  end.

(** A sample session: an existing regex rule is opened, its pattern is
    retyped, the fourth match type is chosen, and the form is submitted. *)
Definition sample_form : RuleFormProps :=
  {| rule := Some {| id := "rule-1"; pattern := "ESSELUNGA"; matchType := "regex";
                     categoryId := "alimentari"; categoryName := "Alimentari";
                     priority := 10 |};
     categories := [{| cat_id := "alimentari"; name := "Alimentari";
                       icon := "A"; parentId := None |}] |}.

Definition sample_session : list FormEvent :=
  [ChangePattern " esselunga "; SelectMatchType 3; Submit 1700000000000].

(** [handleDelete], once the user has confirmed. *)
Definition handleDelete (rid : string) (prev : list CategorizationRule) :
    list CategorizationRule :=
  List.filter (fun r => negb (bool_decide (id r = rid))) prev.

End Rules.

(** ** The categorization engine (back end, section 4.4 of the spec) *)

Module Engine.
Import Text.

Inductive TransactionType := income | expense | transfer.

(** [RawTransaction], section 3. *)
Record RawTransaction := {
  date : Normalization.Date;
  amount : Normalization.decimal;
  currency : string;
  description : string;
  original_description : string;
  type : TransactionType;
  metadata : gmap string string
}.

Inductive MatchedBy := user_rule | keyword | pattern | fallback.

(** [CategoryAssignment], section 3. *)
Record CategoryAssignment := {
  category_id : string;
  confidence : Q;
  matched_by : MatchedBy
}.

Inductive MatchType := contains | exact | regex | starts_with.

Inductive Scope := user_owned | system_owned.

(** [CategorizationRule], section 3.  Rules come from the rule store in
    creation order. *)
Record CategorizationRule := {
  rule_pattern : string;
  match_type : MatchType;
  rule_category : string;
  priority : Z;
  scope : Scope
}.

Inductive EngineError := InvalidRegexError.

(** Modelled from the spec: the static dictionaries, the regular
    expression engine and the confidence scores are back-end code that is
    not part of the front-end sources, and the spec fixes them only up to
    ranges ("the documents describe ranges, not formulas").  A regular
    expression may throw at match time; [normalize] is the lower-casing and
    accent normalization of the keyword tier. *)
Class Dictionaries := {
  keyword_dictionary : list (string * string);
  pattern_dictionary : list (string * string);
  regex_search : string -> string -> result EngineError bool;
  normalize : string -> string;
  keyword_confidence : string -> string -> Q;
  pattern_confidence : string -> string -> Q
}.

Section Cascade.
Context `{D : Dictionaries}.

(** Modelled from the spec: the match-type semantics of section 4.4.
    "[contains] = case-insensitive substring; [exact] = case-insensitive
    full-string equality after trim; [regex] = compiled regular expression
    search; [starts_with] = case-insensitive prefix match". *)
Definition rule_matches (r : CategorizationRule) (text : string) :
    result EngineError bool :=
  let pat := of_string (rule_pattern r) in
  let txt := of_string text in
  match match_type r with
  | contains => Ok (Text.includes (lower pat) (lower txt))
  | exact => Ok (bool_decide (lower (trim pat) = lower (trim txt)))
  | regex => regex_search (rule_pattern r) text
  | starts_with => Ok (Text.starts_with (lower pat) (lower txt))
  end.

(** Modelled from the spec: "catch and skip-with-log any regex that throws
    at match time rather than aborting the whole batch".  A test that
    throws counts as no match. *)
Definition guarded (test : result EngineError bool) : bool :=
  match test with
  | Ok b => b
  | Err _ => false
  end.

(** Modelled from the spec: the user-owned rules, "highest [priority]
    first", ties broken "by rule creation order (earliest first)". *)
Definition user_rules (rules : list CategorizationRule) : list CategorizationRule :=
  Arrays.array_sort (fun a b => priority b - priority a)
    (List.filter (fun r => match scope r with
                           | user_owned => true
                           | system_owned => false
                           end) rules).

(** Modelled from the spec, tier 1: "first rule whose [pattern]/[match_type]
    matches [description] wins: confidence 1.0, [matched_by = user_rule]". *)
Definition user_tier (tx : RawTransaction) (rules : list CategorizationRule) :
    result EngineError (option CategoryAssignment) :=
  Ok ((fun r => {| category_id := rule_category r; confidence := 1;
                   matched_by := user_rule |}) <$>
      List.find (fun r => guarded (rule_matches r (description tx)))
                (user_rules rules)).

(** Modelled from the spec, tier 2: "scan a static keyword to category
    dictionary against a lower-cased, accent-normalized description; first
    match wins". *)
Definition keyword_hit (tx : RawTransaction) (entry : string * string) : bool :=
  Text.includes (of_string (fst entry)) (of_string (normalize (description tx))).

Definition keyword_tier (tx : RawTransaction) :
    result EngineError (option CategoryAssignment) :=
  Ok ((fun entry => {| category_id := snd entry;
                       confidence := keyword_confidence (fst entry) (description tx);
                       matched_by := keyword |}) <$>
      List.find (keyword_hit tx) keyword_dictionary).

(** Modelled from the spec, tier 3: "scan a static regex dictionary tuned to
    bank transaction codes against [original_description]; first match
    wins". *)
Definition pattern_hit (tx : RawTransaction) (entry : string * string) : bool :=
  guarded (regex_search (fst entry) (original_description tx)).

Definition pattern_tier (tx : RawTransaction) :
    result EngineError (option CategoryAssignment) :=
  Ok ((fun entry => {| category_id := snd entry;
                       confidence := pattern_confidence (fst entry) (original_description tx);
                       matched_by := pattern |}) <$>
      List.find (pattern_hit tx) pattern_dictionary).

(** Modelled from the spec, tier 4: "category = sentinel uncategorized,
    confidence = 0.0, [matched_by = fallback]". *)
Definition fallback_assignment : CategoryAssignment :=
  {| category_id := "uncategorized"; confidence := 0; matched_by := fallback |}.

(** First match wins: the next tier runs only when this one has nothing;
    an error of a tier would abort the cascade. *)
Definition or_else (tier : result EngineError (option CategoryAssignment))
    (next : result EngineError CategoryAssignment) :
    result EngineError CategoryAssignment :=
  match tier with
  | Err e => Err e
  | Ok (Some a) => Ok a
  | Ok None => next
  end.

(** Modelled from the spec: [categorize(transaction, rules)], the
    "sequential short-circuit cascade" user rules, keyword dictionary,
    pattern dictionary, fallback. *)
Definition categorize (tx : RawTransaction) (rules : list CategorizationRule) :
    result EngineError CategoryAssignment :=
  or_else (user_tier tx rules)
    (or_else (keyword_tier tx)
       (or_else (pattern_tier tx)
          (Ok fallback_assignment))).

(** *** When a tier matches, said without the cascade *)

Definition user_rule_matches (tx : RawTransaction) (rules : list CategorizationRule) : Prop :=
  exists r, In r rules /\ scope r = user_owned /\
            rule_matches r (description tx) = Ok true.

Definition keyword_matches (tx : RawTransaction) : Prop :=
  exists entry, In entry keyword_dictionary /\ keyword_hit tx entry = true.

Definition pattern_matches (tx : RawTransaction) : Prop :=
  exists entry, In entry pattern_dictionary /\
                regex_search (fst entry) (original_description tx) = Ok true.

End Cascade.

(** *** Sample dictionaries

    A small instance: three keywords, three bank codes, and a regular
    expression engine for literal patterns that throws on an unbalanced
    parenthesis. *)

Definition literal_search (pat text : string) : result EngineError bool :=
  if Text.includes (of_string "(") (of_string pat) then Err InvalidRegexError
  else Ok (Text.includes (of_string pat) (of_string text)).

#[export] Instance sample_dictionaries : Dictionaries := {|
  keyword_dictionary :=
    [("supermercato", "alimentari"); ("farmacia", "salute");
     ("netflix", "abbonamenti")];
  pattern_dictionary :=
    [("ADDEBITO SDD", "utenze"); ("BONIFICO", "bonifici");
     ("PRELIEVO BANCOMAT", "contanti")];
  regex_search := literal_search;
  normalize := fun s => to_string (lower (of_string s));
  keyword_confidence := fun _ _ => 7 # 10;
  pattern_confidence := fun _ _ => 5 # 10
|}.

Definition sample_transaction (text : string) : RawTransaction :=
  {| date := {| Normalization.year := 2025; Normalization.month := 2;
                Normalization.day := 25 |};
     amount := {| Normalization.coeff := -1599; Normalization.scale := 2 |};
     currency := "EUR";
     description := text;
     original_description := text;
     type := expense;
     metadata := ∅ |}.

Definition netflix_rule : CategorizationRule :=
  {| rule_pattern := "NETFLIX"; match_type := contains;
     rule_category := "abbonamenti"; priority := 5; scope := user_owned |}.

Definition broken_rule : CategorizationRule :=
  {| rule_pattern := "(unclosed"; match_type := regex;
     rule_category := "altro"; priority := 9; scope := user_owned |}.

End Engine.

(** ** Source parsers (back end, section 4.2 of the spec) *)

Module Parser.
Import Text Normalization.

Inductive SourceType := bank_csv | satispay | paypal | pdf.

(** [ParseResult], section 3. *)
Record ParseResult := {
  transactions : list Engine.RawTransaction;
  source_type : SourceType;
  row_count : nat;
  parsed_count : nat;
  errors : list string
}.

Inductive ParseError := NoParserMatchedError | UnreadableFileError.

(** Modelled from the spec: what one CSV source parser contributes to the
    common contract of section 4.2, its identity tag and the mapping of the
    cells of one row (under the cells of the header) to a transaction.
    Row-local failures are the normalization errors of section 7. *)
Class SourceParser := {
  source_tag : SourceType;
  parse_cells : list chars -> list chars ->
                result NormalizationError Engine.RawTransaction
}.

(** [text.splitlines()]: the lines of a text, without their terminators;
    a final line feed opens no further line. *)
Definition strip_cr (line : chars) : chars :=
  match last line with
  | Some c => if decide (c = "013"%char) then removelast line else line
  | None => line
  end.

Definition lines (text : chars) : list chars :=
  let segments := split_on "010"%char text in
  map strip_cr
    (match last segments with
     | Some [] => removelast segments
     | _ => segments
     end).

(** Modelled from the spec: "must tolerate delimiter variance ([;] vs [,]):
    detect by sampling the header line". *)
Definition detect_delimiter (header : chars) : ascii :=
  if bool_decide (";"%char ∈ header) then ";"%char else ","%char.

Definition is_blank_row (row : chars) : bool :=
  bool_decide (trim row = []).

Inductive RowStatus :=
| Blank
| Valid (tx : Engine.RawTransaction)
| Malformed (e : NormalizationError).

Section Parse.
Context `{P : SourceParser}.

(** What becomes of one data row: "rows may be legitimately skipped (blank
    lines) without being errors"; a row whose normalization fails is
    malformed. *)
Definition row_status (header : chars) (row : chars) : RowStatus :=
  if is_blank_row row then Blank
  else
    let delimiter := detect_delimiter header in
    match parse_cells (split_on delimiter header) (split_on delimiter row) with
    | Ok tx => Valid tx
    | Err e => Malformed e
    end.

(** The entry of [errors] for a failed row: "row index, raw content". *)
Definition error_message (index : nat) (row : chars) (e : NormalizationError) : string :=
  "Row " +:+ to_string (digits_of_N (N.of_nat index)) +:+ ": " +:+
  match e with
  | DateFormatError => "DateFormatError"
  | AmountFormatError => "AmountFormatError"
  end +:+ ": " +:+ to_string row.

(** The state of the row loop. *)
Record Acc := {
  acc_transactions : list Engine.RawTransaction;
  acc_errors : list string;
  acc_parsed : nat;
  acc_rows : nat
}.

Definition empty_acc : Acc :=
  {| acc_transactions := []; acc_errors := []; acc_parsed := 0; acc_rows := 0 |}.

(** Modelled from the spec: "must process every row independently: a
    single malformed row appends to [errors] and continues; it never aborts
    the whole file". *)
Definition parse_row (header : chars) (acc : Acc) (row : chars) : Acc :=
  match row_status header row with
  | Blank =>
    {| acc_transactions := acc_transactions acc; acc_errors := acc_errors acc;
       acc_parsed := acc_parsed acc; acc_rows := S (acc_rows acc) |}
  | Valid tx =>
    {| acc_transactions := acc_transactions acc ++ [tx];
       acc_errors := acc_errors acc;
       acc_parsed := S (acc_parsed acc); acc_rows := S (acc_rows acc) |}
  | Malformed e =>
    {| acc_transactions := acc_transactions acc;
       acc_errors := acc_errors acc ++ [error_message (S (acc_rows acc)) row e];
       acc_parsed := acc_parsed acc; acc_rows := S (acc_rows acc) |}
  end.

(** Modelled from the spec: [parse(filename, content)] of a CSV source
    parser, on the decoded text of the file.  A file without a header line
    is unreadable ("empty/truncated CSV"); after the header every row is
    data. *)
Definition parse (filename : string) (content : string) :
    result ParseError ParseResult :=
  match lines (of_string content) with
  | [] => Err UnreadableFileError
  | header :: rows =>
    if is_blank_row header then Err UnreadableFileError
    else
      let acc := foldl (parse_row header) empty_acc rows in
      Ok {| transactions := acc_transactions acc;
            source_type := source_tag;
            row_count := acc_rows acc;
            parsed_count := acc_parsed acc;
            errors := acc_errors acc |}
  end.

Definition is_valid (header row : chars) : bool :=
  match row_status header row with Valid _ => true | _ => false end.

Definition is_malformed (header row : chars) : bool :=
  match row_status header row with Malformed _ => true | _ => false end.

Definition count_valid (header : chars) (rows : list chars) : nat :=
  length (List.filter (is_valid header) rows).

Definition count_malformed (header : chars) (rows : list chars) : nat :=
  length (List.filter (is_malformed header) rows).

End Parse.

(** The cell of a row under the header cell of the given name (case and
    surrounding blanks ignored); empty when the column or the cell is
    missing. *)
Definition column (name : string) (header : list chars) (cells : list chars) : string :=
  let wanted := lower (of_string name) in
  match list_find (fun h => lower (trim h) = wanted) header with
  | Some (i, _) => to_string (default [] (cells !! i))
  | None => ""
  end.

(** Modelled from the spec: the Bank-CSV parser of section 4.2 in its
    variant with "a single signed Importo column", the columns found by
    their Italian header names; [type] is inferred from the sign of the
    amount and the currency defaults to EUR. *)
Definition bank_cells (header cells : list chars) :
    result NormalizationError Engine.RawTransaction :=
  match parseLocalizedDate (column "Data" header cells) with
  | Err e => Err e
  | Ok date =>
    match parseLocalizedAmount (column "Importo" header cells) with
    | Err e => Err e
    | Ok amount =>
      let raw := column "Descrizione" header cells in
      Ok {| Engine.date := date;
            Engine.amount := amount;
            Engine.currency := "EUR";
            Engine.description := to_string (trim (of_string raw));
            Engine.original_description := raw;
            Engine.type := if coeff amount <? 0 then Engine.expense else Engine.income;
            Engine.metadata := ∅ |}
    end
  end.

#[export] Instance BankCsvParser : SourceParser :=
  {| source_tag := bank_csv; parse_cells := bank_cells |}.

(** A sample statement: three data rows, the second with an impossible
    date. *)
Definition newline : string := String "010"%char "".

Definition sample_csv : string :=
  "Data;Importo;Descrizione" +:+ newline +:+
  "25/02/2025;-89,50;ADDEBITO SDD ENEL ENERGIA" +:+ newline +:+
  "31/02/2025;12,00;DATA IMPOSSIBILE" +:+ newline +:+
  "27/02/2025;2.850,00;BONIFICO STIPENDIO MARZO" +:+ newline.

End Parser.

(** ** The rules list and the rule form: auxiliary definitions *)

Module RulesAux.
Import Rules.

(** [r.id !== rid]. *)
Definition other_id (rid : string) (r : CategorizationRule) : bool :=
  negb (bool_decide (id r = rid)).

(** Three sample rules. *)
Definition rule_a : CategorizationRule :=
  {| id := "rule-1"; pattern := "ESSELUNGA"; matchType := "contains";
     categoryId := "alimentari"; categoryName := "Alimentari"; priority := 10 |}.

Definition rule_b : CategorizationRule :=
  {| id := "rule-2"; pattern := "NETFLIX"; matchType := "contains";
     categoryId := "abbonamenti"; categoryName := "Abbonamenti"; priority := 20 |}.

Definition rule_c : CategorizationRule :=
  {| id := "rule-3"; pattern := "^POS "; matchType := "regex";
     categoryId := "altro"; categoryName := "Altro"; priority := 10 |}.

(** A form that creates a rule, over a category with one child, and a
    session with it. *)
Definition sample_new_form : RuleFormProps :=
  {| rule := None;
     categories := [{| cat_id := "casa"; name := "Casa"; icon := "C"; parentId := None |};
                    {| cat_id := "affitto"; name := "Affitto"; icon := "A";
                       parentId := Some "casa" |}] |}.

Definition sample_new_session : list FormEvent :=
  [ChangePattern "CANONE"; SelectCategory 1; Submit 1700000000000].

(** What the sample session of the form saves, and what the session above
    saves. *)
Definition sample_saved : CategorizationRule :=
  {| id := "rule-1"; pattern := "esselunga"; matchType := "starts_with";
     categoryId := "alimentari"; categoryName := "Alimentari"; priority := 10 |}.

Definition sample_new_saved : CategorizationRule :=
  {| id := "rule-1700000000000"; pattern := "CANONE"; matchType := "contains";
     categoryId := "affitto"; categoryName := "Affitto"; priority := 10 |}.

(** A text that does not start with a blank. *)
Definition starts_clean (s : Text.chars) : Prop :=
  match s with
  | [] => True
  | c :: _ => Text.is_blank c = false
  end.

End RulesAux.

(** ** Editing a category in the preview table
    (frontend/src/components/import/preview-table.tsx, the handlers of the
    category cell) *)

Module PreviewEdit.
Import Preview.

(** [const isEditing = editingId === tx.temp_id]. *)
Definition isEditing (editingId : option string) (tx : PreviewTransaction) : bool :=
  bool_decide (editingId = Some (temp_id tx)).

(** A handler of the table answers with the next [editingId] and the
    arguments of its calls of [onCategoryOverride], in order. *)
Definition Outcome : Type := option string * list (string * string).

(** [onClick={() => setEditingId(tx.temp_id)}] of the category button. *)
Definition onClick (tx : PreviewTransaction) : Outcome := (Some (temp_id tx), []).

(** [onBlur] of the input:
    [const val = e.target.value.trim();
     if (val && val !== tx.category_name) onCategoryOverride(tx.temp_id, val);
     setEditingId(null);] *)
Definition onBlur (tx : PreviewTransaction) (value : string) : Outcome :=
  let val := JsText.trim value in
  (None,
   if negb (bool_decide (val = "")) && negb (bool_decide (category_name tx = Some val))
   then [(temp_id tx, val)]
   else []).

(** [onKeyDown] of the input: [Enter] blurs the input, which runs [onBlur]
    with the value typed so far; [Escape] leaves the edit. *)
Definition onKeyDown (editingId : option string) (tx : PreviewTransaction)
    (key value : string) : Outcome :=
  if bool_decide (key = "Enter") then onBlur tx value
  else if bool_decide (key = "Escape") then (None, [])
  else (editingId, []).

(** What the user can do in the table, on the row at a position.  A row
    being edited has the input and no button, any other row the button and
    no input. *)
Inductive TableEvent :=
| ClickCategory (row : nat)
| BlurInput (row : nat) (value : string)
| KeyDownInput (row : nat) (key value : string).

Definition table_step (txs : list PreviewTransaction) (editingId : option string)
    (ev : TableEvent) : Outcome :=
  match ev with
  | ClickCategory row =>
    match txs !! row with
    | Some tx => if isEditing editingId tx then (editingId, []) else onClick tx
    | None => (editingId, [])
    end
  | BlurInput row value =>
    match txs !! row with
    | Some tx => if isEditing editingId tx then onBlur tx value else (editingId, [])
    | None => (editingId, [])
    end
  | KeyDownInput row key value =>
    match txs !! row with
    | Some tx =>
      if isEditing editingId tx then onKeyDown editingId tx key value
      else (editingId, [])
    | None => (editingId, [])
    end
  end.

(** [handleCategoryOverride] of import-view.tsx, the [onCategoryOverride]
    the table is given: [(prev) => ({ ...prev, [tempId]: category })]. *)
Definition handleCategoryOverride (tempId category : string)
    (prev : gmap string string) : gmap string string :=
  <[tempId := category]> prev.

Definition apply_overrides (calls : list (string * string))
    (prev : gmap string string) : gmap string string :=
  foldl (fun ov call => handleCategoryOverride (fst call) (snd call) ov) prev calls.

(** The table with its state and the overrides held by its parent: one
    event, and a session of events. *)
Definition edit_step (txs : list PreviewTransaction)
    (st : option string * gmap string string) (ev : TableEvent) :
    option string * gmap string string :=
  let '(editingId', calls) := table_step txs (fst st) ev in
  (editingId', apply_overrides calls (snd st)).

Definition edit_run (txs : list PreviewTransaction)
    (st : option string * gmap string string) (evs : list TableEvent) :
    option string * gmap string string :=
  foldl (edit_step txs) st evs.

(** The inputs on display. *)
Definition shown_inputs (dom : Dom.node) : list Dom.node := Dom.find_all "Input" dom.

(** Two rows of a sample preview. *)
Definition row_enel : PreviewTransaction := sample_row "keyword".

Definition row_bar : PreviewTransaction :=
  {| temp_id := "tmp-2"; date := "2025-02-26"; amount := -350 # 100;
     currency := "EUR"; description := "BAR CENTRALE";
     original_description := "POS BAR CENTRALE"; type := expense;
     category_name := None; confidence := 0;
     matched_by := None |}.

(** The props with other overrides. *)
Definition with_overrides (ov : gmap string string) (p : PreviewTableProps) :
    PreviewTableProps :=
  {| transactions := transactions p; errors := errors p; categoryOverrides := ov |}.

(** An override a user can have made: a category that is not empty, for a
    row of the table, other than the guess of that row. *)
Definition user_choice (txs : list PreviewTransaction) (k v : string) : Prop :=
  v <> "" /\ exists tx, tx ∈ txs /\ temp_id tx = k /\ category_name tx <> Some v.

End PreviewEdit.

(** ** The import flow
    (frontend/src/components/import/import-view.tsx, with the source and
    account selectors)

    [ImportView] as a state machine.  A state holds the [useState] cells of
    the component, the cell of the [PreviewTable] it has mounted, and the
    number of calls of each [async] handler that are waiting for the back
    end.  An event is something the user does to what the state renders,
    or the settling of such a call.  A response is taken to have the shape
    its interface declares. *)

Module ImportFlow.

Inductive FlowState := upload | uploading | preview | confirming | success | error.

(** [type SourceType = "bank" | "satispay" | "paypal"]. *)
Inductive SourceType := bank | satispay | paypal.

#[global] Instance SourceType_eq_dec : EqDecision SourceType.
Proof. solve_decision. Defined.

Record AccountOption := {
  acc_id : string;
  acc_name : string;
  acc_type : string
}.

(** [MOCK_ACCOUNTS]. *)
Definition MOCK_ACCOUNTS : list AccountOption :=
  [{| acc_id := "acc-1"; acc_name := "Conto Principale"; acc_type := "bank" |};
   {| acc_id := "acc-2"; acc_name := "Satispay"; acc_type := "satispay" |};
   {| acc_id := "acc-3"; acc_name := "PayPal"; acc_type := "paypal" |};
   {| acc_id := "acc-4"; acc_name := "Contanti"; acc_type := "cash" |}].

(** [const [accounts] = useState<AccountOption[]>(MOCK_ACCOUNTS)]: never
    set. *)
Definition accounts : list AccountOption := MOCK_ACCOUNTS.

(** The fields of [UploadResponse] and [ConfirmResponse] that are read. *)
Record UploadResponse := {
  res_id : string;
  res_transactions : list Preview.PreviewTransaction;
  res_errors : list string
}.

Record ConfirmResponse := {
  imported_count : Q;
  categorized_count : Q
}.

Record State := {
  state : FlowState;
  errorMessage : option string;
  file : option Upload.File;
  source : option SourceType;
  accountId : option string;
  importId : option string;
  transactions : list Preview.PreviewTransaction;
  parseErrors : list string;
  categoryOverrides : gmap string string;
  importedCount : Q;
  categorizedCount : Q;
  (** the [editingId] of the mounted [PreviewTable]; [None] when no table
      is mounted *)
  editingId : option string;
  (** calls of [handleUpload], [handleConfirm] and [handleCancel] that are
      waiting *)
  uploads_waiting : nat;
  confirms_waiting : nat;
  cancels_waiting : nat
}.

Definition initial : State :=
  {| state := upload; errorMessage := None;
     file := None; source := None; accountId := None;
     importId := None; transactions := []; parseErrors := [];
     categoryOverrides := ∅;
     importedCount := 0; categorizedCount := 0;
     editingId := None;
     uploads_waiting := 0; confirms_waiting := 0; cancels_waiting := 0 |}.

(** What the handlers send to the back end, each once [getToken] has
    answered: [api.upload("/imports/upload", formData)] with the fields
    [file], [account_id] and, when a source is chosen, [source_type];
    [api.post(`/imports/${importId}/confirm`, body)] with
    [category_overrides] in the body or not; [api.del(`/imports/${importId}`)]. *)
Inductive Request :=
| UploadRequest (file : Upload.File) (account_id : string)
                (source_type : option SourceType)
| ConfirmRequest (importId : string) (category_overrides : option (gmap string string))
| DeleteRequest (importId : string).

(** How a call to the back end ends for the handler: with the response, or
    with something thrown ([Some] of its message when it is an [Error]). *)
Definition Settled (A : Type) : Type := result (option string) A.

Inductive Event :=
| Drop (g : Upload.Gesture) (files : list Upload.File)
| ClickSource (key : SourceType)
| SelectAccount (option_index : nat)
| ClickUpload
| Table (ev : PreviewEdit.TableEvent)
| ClickCancel
| ClickConfirm
| ClickRetry
| UploadSettled (outcome : Settled UploadResponse)
| ConfirmSettled (outcome : Settled ConfirmResponse)
| CancelSettled.

(** [onFileSelect={setFile}]. *)
Definition setFile (f : Upload.File) (st : State) : State :=
  {| state := state st; errorMessage := errorMessage st;
     file := Some f; source := source st; accountId := accountId st;
     importId := importId st; transactions := transactions st;
     parseErrors := parseErrors st; categoryOverrides := categoryOverrides st;
     importedCount := importedCount st; categorizedCount := categorizedCount st;
     editingId := editingId st;
     uploads_waiting := uploads_waiting st; confirms_waiting := confirms_waiting st;
     cancels_waiting := cancels_waiting st |}.

(** [onChange={setSource}]. *)
Definition setSource (s : option SourceType) (st : State) : State :=
  {| state := state st; errorMessage := errorMessage st;
     file := file st; source := s; accountId := accountId st;
     importId := importId st; transactions := transactions st;
     parseErrors := parseErrors st; categoryOverrides := categoryOverrides st;
     importedCount := importedCount st; categorizedCount := categorizedCount st;
     editingId := editingId st;
     uploads_waiting := uploads_waiting st; confirms_waiting := confirms_waiting st;
     cancels_waiting := cancels_waiting st |}.

(** [onChange={setAccountId}]. *)
Definition setAccountId (a : string) (st : State) : State :=
  {| state := state st; errorMessage := errorMessage st;
     file := file st; source := source st; accountId := Some a;
     importId := importId st; transactions := transactions st;
     parseErrors := parseErrors st; categoryOverrides := categoryOverrides st;
     importedCount := importedCount st; categorizedCount := categorizedCount st;
     editingId := editingId st;
     uploads_waiting := uploads_waiting st; confirms_waiting := confirms_waiting st;
     cancels_waiting := cancels_waiting st |}.

(** The table's [setEditingId] and the [setCategoryOverrides] of
    [handleCategoryOverride]. *)
Definition setEditing (ed : option string) (ov : gmap string string) (st : State) : State :=
  {| state := state st; errorMessage := errorMessage st;
     file := file st; source := source st; accountId := accountId st;
     importId := importId st; transactions := transactions st;
     parseErrors := parseErrors st; categoryOverrides := ov;
     importedCount := importedCount st; categorizedCount := categorizedCount st;
     editingId := ed;
     uploads_waiting := uploads_waiting st; confirms_waiting := confirms_waiting st;
     cancels_waiting := cancels_waiting st |}.

(** [setErrorMessage(m); setState(s)], which also unmounts the table when
    [s] is not [preview]. *)
Definition setFlow (s : FlowState) (m : option string) (st : State) : State :=
  {| state := s; errorMessage := m;
     file := file st; source := source st; accountId := accountId st;
     importId := importId st; transactions := transactions st;
     parseErrors := parseErrors st; categoryOverrides := categoryOverrides st;
     importedCount := importedCount st; categorizedCount := categorizedCount st;
     editingId := match s with preview => editingId st | _ => None end;
     uploads_waiting := uploads_waiting st; confirms_waiting := confirms_waiting st;
     cancels_waiting := cancels_waiting st |}.

Definition waiting (u c x : nat) (st : State) : State :=
  {| state := state st; errorMessage := errorMessage st;
     file := file st; source := source st; accountId := accountId st;
     importId := importId st; transactions := transactions st;
     parseErrors := parseErrors st; categoryOverrides := categoryOverrides st;
     importedCount := importedCount st; categorizedCount := categorizedCount st;
     editingId := editingId st;
     uploads_waiting := u; confirms_waiting := c; cancels_waiting := x |}.

(** [const canUpload = !!file && !!accountId]. *)
Definition canUpload (st : State) : bool :=
  bool_decide (is_Some (file st)) &&
  match accountId st with
  | Some a => negb (bool_decide (a = ""))
  | None => false
  end.

(** [handleUpload] up to its first [await]: the guard, [setState],
    [setErrorMessage]; the request is the one the handler sends once
    [getToken] has answered, from the values of its closure. *)
Definition handleUpload (st : State) : State * list Request :=
  match file st, accountId st with
  | Some f, Some a =>
    if bool_decide (a = "") then (st, [])
    else (waiting (S (uploads_waiting st)) (confirms_waiting st) (cancels_waiting st)
            (setFlow uploading None st),
          [UploadRequest f a (source st)])
  | _, _ => (st, [])
  end.

(** The rest of [handleUpload]: the [try] has ended with the response, or
    in the [catch]. *)
Definition uploadSettled (t : string -> string) (outcome : Settled UploadResponse)
    (st : State) : State :=
  match outcome with
  | Ok res =>
    {| state := preview; errorMessage := errorMessage st;
       file := file st; source := source st; accountId := accountId st;
       importId := Some (res_id res);
       transactions := res_transactions res;
       parseErrors := res_errors res;
       categoryOverrides := ∅;
       importedCount := importedCount st; categorizedCount := categorizedCount st;
       editingId := match state st with preview => editingId st | _ => None end;
       uploads_waiting := uploads_waiting st; confirms_waiting := confirms_waiting st;
       cancels_waiting := cancels_waiting st |}
  | Err err => setFlow error (Some (default (t "errorTitle") err)) st
  end.

(** [handleConfirm] up to its first [await], with the request it sends:
    [category_overrides] only when there is an override. *)
Definition handleConfirm (st : State) : State * list Request :=
  match importId st with
  | Some i =>
    if bool_decide (i = "") then (st, [])
    else (waiting (uploads_waiting st) (S (confirms_waiting st)) (cancels_waiting st)
            (setFlow confirming None st),
          [ConfirmRequest i
             (if bool_decide (0 < length (map_to_list (categoryOverrides st)))%nat
              then Some (categoryOverrides st) else None)])
  | None => (st, [])
  end.

Definition confirmSettled (t : string -> string) (outcome : Settled ConfirmResponse)
    (st : State) : State :=
  match outcome with
  | Ok res =>
    let st1 := setFlow success (errorMessage st) st in
    {| state := state st1; errorMessage := errorMessage st1;
       file := file st1; source := source st1; accountId := accountId st1;
       importId := importId st1; transactions := transactions st1;
       parseErrors := parseErrors st1; categoryOverrides := categoryOverrides st1;
       importedCount := imported_count res;
       categorizedCount := categorized_count res;
       editingId := editingId st1;
       uploads_waiting := uploads_waiting st1; confirms_waiting := confirms_waiting st1;
       cancels_waiting := cancels_waiting st1 |}
  | Err err => setFlow error (Some (default (t "errorTitle") err)) st
  end.

(** The end of [handleCancel]: "Reset all state". *)
Definition reset (st : State) : State :=
  {| state := upload; errorMessage := None;
     file := None; source := None; accountId := None;
     importId := None; transactions := []; parseErrors := [];
     categoryOverrides := ∅;
     importedCount := importedCount st; categorizedCount := categorizedCount st;
     editingId := None;
     uploads_waiting := uploads_waiting st; confirms_waiting := confirms_waiting st;
     cancels_waiting := cancels_waiting st |}.

(** [handleCancel]: with an import id the handler waits for the deletion
    (whose failure it ignores) before it resets; without one it resets at
    once. *)
Definition handleCancel (st : State) : State * list Request :=
  match importId st with
  | Some i =>
    if bool_decide (i = "") then (reset st, [])
    else (waiting (uploads_waiting st) (confirms_waiting st) (S (cancels_waiting st)) st,
          [DeleteRequest i])
  | None => (reset st, [])
  end.

(** [handleRetry]. *)
Definition handleRetry (st : State) : State := setFlow upload None st.

(** [SourceSelector]: [onClick={() => onChange(selected ? null : key)}]. *)
Definition clickSource (key : SourceType) (st : State) : State :=
  setSource (if bool_decide (source st = Some key) then None else Some key) st.

(** [AccountSelector]: the options that can be chosen are the accounts. *)
Definition selectAccount (i : nat) (st : State) : State :=
  match accounts !! i with
  | Some acc => setAccountId (acc_id acc) st
  | None => st
  end.

(** One event.  Each block of the render offers its own widgets: the
    upload form in [upload], the table with its two buttons in [preview],
    the retry button in [error], and nothing that reaches the component in
    [uploading], [confirming] and [success]. *)
Definition step (COMMON_MIME_TYPES : string -> option string)
    (t : string -> string) (st : State) (ev : Event) : State * list Request :=
  match ev with
  | Drop g files =>
    match state st with
    | upload => (foldl (fun s f => setFile f s) st (Upload.onFileSelect_calls COMMON_MIME_TYPES g files), [])
    | _ => (st, [])
    end
  | ClickSource key =>
    match state st with
    | upload => (clickSource key st, [])
    | _ => (st, [])
    end
  | SelectAccount i =>
    match state st with
    | upload => (selectAccount i st, [])
    | _ => (st, [])
    end
  | ClickUpload =>
    match state st with
    | upload => if canUpload st then handleUpload st else (st, [])
    | _ => (st, [])
    end
  | Table ev =>
    match state st with
    | preview =>
      let '(ed, ov) :=
        PreviewEdit.edit_step (transactions st) (editingId st, categoryOverrides st) ev in
      (setEditing ed ov st, [])
    | _ => (st, [])
    end
  | ClickCancel =>
    match state st with
    | preview => handleCancel st
    | _ => (st, [])
    end
  | ClickConfirm =>
    match state st with
    | preview => handleConfirm st
    | _ => (st, [])
    end
  | ClickRetry =>
    match state st with
    | error => (handleRetry st, [])
    | _ => (st, [])
    end
  | UploadSettled outcome =>
    match uploads_waiting st with
    | S n => (uploadSettled t outcome
                (waiting n (confirms_waiting st) (cancels_waiting st) st), [])
    | O => (st, [])
    end
  | ConfirmSettled outcome =>
    match confirms_waiting st with
    | S n => (confirmSettled t outcome
                (waiting (uploads_waiting st) n (cancels_waiting st) st), [])
    | O => (st, [])
    end
  | CancelSettled =>
    match cancels_waiting st with
    | S n => (reset (waiting (uploads_waiting st) (confirms_waiting st) n st), [])
    | O => (st, [])
    end
  end.

(** A session: the final state and the requests sent, in order. *)
Fixpoint run (COMMON_MIME_TYPES : string -> option string)
    (t : string -> string) (st : State) (evs : list Event) :
    State * list Request :=
  match evs with
  | [] => (st, [])
  | ev :: evs' =>
    let '(st1, out1) := step COMMON_MIME_TYPES t st ev in
    let '(st2, out2) := run COMMON_MIME_TYPES t st1 evs' in
    (st2, out1 ++ out2)
  end.

(** The props the component gives to [PreviewTable]. *)
Definition preview_props (st : State) : Preview.PreviewTableProps :=
  {| Preview.transactions := transactions st;
     Preview.errors := parseErrors st;
     Preview.categoryOverrides := categoryOverrides st |}.

Definition is_confirm (r : Request) : bool :=
  match r with ConfirmRequest _ _ => true | _ => false end.

Definition is_upload_success (ev : Event) : bool :=
  match ev with UploadSettled (Ok _) => true | _ => false end.

(** A sample session: a statement is dropped, an account chosen, the file
    uploaded; in the preview one category is changed; the import is
    confirmed. *)
Definition sample_response : UploadResponse :=
  {| res_id := "imp-1";
     res_transactions := [PreviewEdit.row_enel; PreviewEdit.row_bar];
     res_errors := [] |}.

Definition sample_session : list Event :=
  [Drop Upload.picked [Upload.statement]; SelectAccount 0; ClickUpload;
   UploadSettled (Ok sample_response);
   Table (PreviewEdit.ClickCategory 1); Table (PreviewEdit.BlurInput 1 "Bar");
   ClickConfirm;
   ConfirmSettled (Ok {| imported_count := 2; categorized_count := 2 |})].

(** What a request says of the state it is sent from. *)
Definition sent_from (st : State) (r : Request) : Prop :=
  match r with
  | UploadRequest f a s =>
    state st = upload /\ file st = Some f /\ accountId st = Some a /\ a <> "" /\
    source st = s
  | ConfirmRequest i ov =>
    state st = preview /\ importId st = Some i /\ i <> "" /\
    match ov with
    | Some m => m = categoryOverrides st /\ m <> ∅
    | None => categoryOverrides st = ∅
    end
  | DeleteRequest i => state st = preview /\ importId st = Some i /\ i <> ""
  end.

(** The preview a state holds is the one of an upload response among the
    events so far, or none. *)
Definition from_response (evs : list Event) (st : State) : Prop :=
  (importId st = None /\ transactions st = []) \/
  exists res, In (UploadSettled (Ok res)) evs /\
              importId st = Some (res_id res) /\
              transactions st = res_transactions res /\
              parseErrors st = res_errors res.

(** What holds of every state a session reaches. *)
Record Inv (evs : list Event) (st : State) : Prop := {
  inv_file : forall f, file st = Some f -> Upload.passes f = true;
  inv_account : forall a, accountId st = Some a -> a ∈ map acc_id accounts;
  inv_overrides : forall k v, categoryOverrides st !! k = Some v ->
                              PreviewEdit.user_choice (transactions st) k v;
  inv_response : from_response evs st
}.

(** The upload form with a statement dropped and an account chosen, and
    the preview of the sample response. *)
Definition ready : State := fst (run Upload.sample_mime_types (fun key => key) initial
                                   [Drop Upload.picked [Upload.statement]; SelectAccount 0]).

Definition previewing : State :=
  fst (run Upload.sample_mime_types (fun key => key) initial
         [Drop Upload.picked [Upload.statement]; SelectAccount 0; ClickUpload;
          UploadSettled (Ok sample_response)]).

End ImportFlow.

(** ** The API client (frontend/src/lib/api.ts)

    [apiFetch] in two halves: the call of [fetch] it makes, and what it
    returns or throws once [fetch] has answered. *)

Module Api.

(** What [response.json()] can give. *)
Inductive Json :=
| JNull
| JBool (b : bool)
| JNumber (q : Q)
| JString (s : string)
| JArray (items : list Json)
| JObject (members : list (string * Json)).

(** A request body: a string (such as [JSON.stringify] gives) or a
    [FormData]. *)
Inductive Body :=
| TextBody (text : string)
| FormDataBody (fields : list (string * string)).

(** [interface ApiOptions extends RequestInit { token?: string }]: the
    token and the fields of [RequestInit] the client sets or reads, each
    absent or present; [headers] as the record the code casts it to.  The
    other fields of [RequestInit] reach [fetch] untouched. *)
Record ApiOptions := {
  token : option string;
  method : option string;
  body : option Body;
  headers : option (gmap string string)
}.

Definition no_options : ApiOptions :=
  {| token := None; method := None; body := None; headers := None |}.

(** The arguments of [fetch]. *)
Record FetchCall := {
  url : string;
  fetch_method : option string;
  fetch_body : option Body;
  fetch_headers : gmap string string
}.

(** [{ ...a, ...b }] on records of strings. *)
Definition spread (a b : gmap string string) : gmap string string := b ∪ a.

(** The first half of [apiFetch]:
    [const { token, ...fetchOptions } = options;
     const isFormData = ... fetchOptions.body instanceof FormData;
     const headers = { ...(isFormData ? {} : { "Content-Type": "application/json" }),
                       ...(fetchOptions.headers || {}) };
     if (token) headers.Authorization = `Bearer ${token}`;
     fetch(`${API_BASE}${endpoint}`, { ...fetchOptions, headers })].
    [FormData] is defined, as it is in a browser. *)
Definition apiFetch_call (API_BASE endpoint : string) (options : ApiOptions) : FetchCall :=
  let isFormData :=
    match body options with
    | Some (FormDataBody _) => true
    | _ => false
    end in
  let headers :=
    spread (if isFormData then ∅ else {["Content-Type" := "application/json"]})
           (default ∅ (headers options)) in
  let headers :=
    match token options with
    | Some tk =>
      if bool_decide (tk = "") then headers
      else <["Authorization" := "Bearer " +:+ tk]> headers
    | None => headers
    end in
  {| url := API_BASE +:+ endpoint;
     fetch_method := method options;
     fetch_body := body options;
     fetch_headers := headers |}.

(** [{ method: m, body: b, ...options }]: the fields of [options] that are
    present win. *)
Definition with_defaults (m : option string) (b : option Body) (options : ApiOptions) :
    ApiOptions :=
  {| token := token options;
     method := match method options with Some x => Some x | None => m end;
     body := match body options with Some x => Some x | None => b end;
     headers := headers options |}.

(** [api.get], [api.post], [api.put], [api.del], [api.upload];
    [stringified] stands for [JSON.stringify(body)]. *)
Definition get (API_BASE endpoint : string) (options : ApiOptions) : FetchCall :=
  apiFetch_call API_BASE endpoint (with_defaults (Some "GET") None options).

Definition post (API_BASE endpoint stringified : string) (options : ApiOptions) : FetchCall :=
  apiFetch_call API_BASE endpoint
    (with_defaults (Some "POST") (Some (TextBody stringified)) options).

Definition put (API_BASE endpoint stringified : string) (options : ApiOptions) : FetchCall :=
  apiFetch_call API_BASE endpoint
    (with_defaults (Some "PUT") (Some (TextBody stringified)) options).

Definition del (API_BASE endpoint : string) (options : ApiOptions) : FetchCall :=
  apiFetch_call API_BASE endpoint (with_defaults (Some "DELETE") None options).

Definition upload (API_BASE endpoint : string) (formData : list (string * string))
    (options : ApiOptions) : FetchCall :=
  apiFetch_call API_BASE endpoint
    (with_defaults (Some "POST") (Some (FormDataBody formData)) options).

(** What the client reads of a [Response]: [json] is what
    [response.json()] resolves to, [None] when it rejects. *)
Record Response := {
  status : Z;
  statusText : string;
  json : option Json
}.

(** [response.ok]: a status from 200 to 299. *)
Definition ok (r : Response) : bool := (200 <=? status r) && (status r <=? 299).

(** The message of an [Error]: a string, or [String(v)] of a value that is
    not a string. *)
Inductive Message :=
| Literal (s : string)
| StringOf (v : Json).

Inductive Thrown :=
| ApiError (status : Z) (message : Message)
| TypeError
| SyntaxError.

(** [v.detail] of a value other than [null]: the last member of that name
    of an object, [undefined] on anything else. *)
Definition detail (v : Json) : option Json :=
  match v with
  | JObject members =>
    snd <$> List.find (fun kv => String.eqb (fst kv) "detail") (rev members)
  | _ => None
  end.

(** Whether [v || ...] keeps [v]. *)
Definition truthy (v : Json) : bool :=
  match v with
  | JNull => false
  | JBool b => b
  | JNumber q => negb (Qeq_bool q 0)
  | JString s => negb (bool_decide (s = ""))
  | JArray _ | JObject _ => true
  end.

Definition message_of (v : Json) : Message :=
  match v with
  | JString s => Literal s
  | _ => StringOf v
  end.

(** The second half of [apiFetch]:
    [if (!response.ok) {
       const error = await response.json().catch(() => ({ detail: response.statusText }));
       throw new ApiError(response.status, error.detail || "Unknown error");
     }
     if (response.status === 204) return undefined as T;
     return response.json();]
    [Ok None] is [undefined]. *)
Definition apiFetch_result (r : Response) : result Thrown (option Json) :=
  if negb (ok r) then
    let error := default (JObject [("detail", JString (statusText r))]) (json r) in
    match error with
    | JNull => Err TypeError
    | _ =>
      Err (ApiError (status r)
             (match detail error with
              | Some d => if truthy d then message_of d else Literal "Unknown error"
              | None => Literal "Unknown error"
              end))
    end
  else if status r =? 204 then Ok None
  else
    match json r with
    | Some v => Ok (Some v)
    | None => Err SyntaxError
    end.

(** What [err.message] is for the caller. *)
Definition message (e : Thrown) : option Message :=
  match e with
  | ApiError _ m => Some m
  | _ => None
  end.

(** Options that carry a token and nothing else, as the callers in the
    sources pass them. *)
Definition with_token (tk : option string) : ApiOptions :=
  {| token := tk; method := None; body := None; headers := None |}.

(** The [Authorization] header of a token that is not empty. *)
Definition bearer (tk : option string) : gmap string string :=
  match tk with
  | Some s => if bool_decide (s = "") then ∅ else {["Authorization" := "Bearer " +:+ s]}
  | None => ∅
  end.

(** A sample response of a failed validation. *)
Definition validation_failure : Response :=
  {| status := 422; statusText := "Unprocessable Entity";
     json := Some (JObject [("detail", JString "File type not supported")]) |}.

End Api.

(** ** The transactions page
    (unnamed/part_004: the category popover and [TransactionsView];
    frontend/src/components/dashboard/dashboard-view.tsx: the table and the
    pagination) *)

Module Transactions.

(** The fields of [Transaction] that the table shows. *)
Record Transaction := {
  id : Z;
  account_id : option Z;
  category_id : option Z;
  amount : Q;
  date : string;
  description : string;
  type : Preview.TransactionType
}.

Record CategoryOption := {
  cat_id : Z;
  cat_name : string;
  cat_color : string
}.

(** *** Selection *)

(** [handleToggleSelect]:
    [const next = new Set(prev);
     if (next.has(id)) next.delete(id); else next.add(id);
     return next;] *)
Definition handleToggleSelect (i : Z) (prev : gset Z) : gset Z :=
  if bool_decide (i ∈ prev) then prev ∖ {[i]} else prev ∪ {[i]}.

(** [handleToggleAll]:
    [if (selectedIds.size === transactions.length) setSelectedIds(new Set());
     else setSelectedIds(new Set(transactions.map((tx) => tx.id)));] *)
Definition handleToggleAll (transactions : list Transaction) (selectedIds : gset Z) : gset Z :=
  if bool_decide (size selectedIds = length transactions) then ∅
  else list_to_set (map id transactions).

(** [const allSelected =
       transactions.length > 0 && selectedIds.size === transactions.length]:
    the state of the checkbox in the table head. *)
Definition allSelected (transactions : list Transaction) (selectedIds : gset Z) : bool :=
  bool_decide (0 < length transactions)%nat &&
  bool_decide (size selectedIds = length transactions).

(** [const isSelected = selectedIds.has(tx.id)]: the checkbox of a row. *)
Definition isSelected (selectedIds : gset Z) (tx : Transaction) : bool :=
  bool_decide (id tx ∈ selectedIds).

(** *** The amount cell of the table *)

(** [{tx.type === "income" ? "+" : tx.type === "expense" ? "-" : ""}
     {formatCurrency(Math.abs(tx.amount))}] in its [<td>]. *)
Definition amount_cell (minimumGroupingDigits : nat) (tx : Transaction) : Dom.node :=
  Dom.El "td"
    [("className",
      Dom.Str ("whitespace-nowrap px-3 py-3 text-right font-semibold " +:+
               match type tx with
               | Preview.income => "text-emerald-600"
               | Preview.expense => "text-rose-600"
               | Preview.transfer => "text-slate-600"
               end))]
    [Dom.Text match type tx with
              | Preview.income => "+"
              | Preview.expense => "-"
              | Preview.transfer => ""
              end;
     Dom.Text (Format.formatCurrency minimumGroupingDigits (Qabs (amount tx)))].

(** How often a byte occurs in a string. *)
Definition occurrences (c : ascii) (s : string) : nat :=
  length (List.filter (fun x => bool_decide (x = c)) (Text.of_string s)).

(** *** Pagination *)

(** [Math.ceil]. *)
Definition Math_ceil (q : Q) : Z := Qceiling q.

(** [const totalPages = Math.max(1, Math.ceil(total / limit))]. *)
Definition totalPages (total limit : Z) : Z :=
  Z.max 1 (Math_ceil (inject_Z total / inject_Z limit)).

(** [from: total === 0 ? 0 : (page - 1) * limit + 1] and
    [to: Math.min(page * limit, total)] of the "showing" line. *)
Definition showing_from (page limit total : Z) : Z :=
  if total =? 0 then 0 else (page - 1) * limit + 1.

Definition showing_to (page limit total : Z) : Z := Z.min (page * limit) total.

(** [const PAGE_SIZES = [10, 20, 50]]. *)
Definition PAGE_SIZES : list Z := [10; 20; 50].

(** The [page] and [limit] cells of [TransactionsView]:
    [useState(1)], [useState(20)]. *)
Record Paging := {
  page : Z;
  limit : Z
}.

Definition initial_paging : Paging := {| page := 1; limit := 20 |}.

(** What changes the two cells: the two arrow buttons (each disabled at
    its end: [page <= 1], [page >= totalPages]), the page-size select
    ([setLimit(newLimit); setPage(1)], on a change to another size) and a
    change of the filters (the effect that runs [setPage(1)]).  The
    pagination is rendered only when [total > 0]. *)
Inductive PagingEvent :=
| ClickPrevious
| ClickNext
| SelectPageSize (option_index : nat)
| FiltersChanged.

Definition paging_step (total : Z) (p : Paging) (ev : PagingEvent) : Paging :=
  match ev with
  | ClickPrevious =>
    if (0 <? total) && negb (page p <=? 1)
    then {| page := page p - 1; limit := limit p |} else p
  | ClickNext =>
    if (0 <? total) && negb (totalPages total (limit p) <=? page p)
    then {| page := page p + 1; limit := limit p |} else p
  | SelectPageSize i =>
    if 0 <? total
    then match PAGE_SIZES !! i with
         | Some size =>
           if size =? limit p then p else {| page := 1; limit := size |}
         | None => p
         end
    else p
  | FiltersChanged => {| page := 1; limit := limit p |}
  end.

Definition paging_run (total : Z) (p : Paging) (evs : list PagingEvent) : Paging :=
  foldl (paging_step total) p evs.

(** *** The category popover *)

Record PopoverProps := {
  currentCategoryId : option Z;
  categories : list CategoryOption
}.

(** The [search], [selected] and [applyToSimilar] cells. *)
Record PopoverState := {
  search : string;
  selected : option Z;
  applyToSimilar : bool
}.

Definition popover_initial (p : PopoverProps) : PopoverState :=
  {| search := ""; selected := currentCategoryId p; applyToSimilar := false |}.

(** [categories.filter((c) =>
       c.name.toLowerCase().includes(search.toLowerCase()))];
    [toLowerCase] is the one of the run time. *)
Definition filtered (toLowerCase : string -> string) (p : PopoverProps)
    (st : PopoverState) : list CategoryOption :=
  List.filter
    (fun c => Text.includes (Text.of_string (toLowerCase (search st)))
                            (Text.of_string (toLowerCase (cat_name c))))
    (categories p).

Inductive PopoverEvent :=
| ChangeSearch (value : string)
| ClickOption (position : nat)
| CheckApplyToSimilar (checked : bool)
| ClickConfirmAction
| ClickClose.

Inductive PopoverCallback :=
| onConfirm (categoryId : Z) (applyToSimilar : bool)
| onClose.

(** One event.  The confirm button is
    [disabled={selected === null || selected === currentCategoryId}] and
    its handler is [if (selected !== null) onConfirm(selected, applyToSimilar)]. *)
Definition popover_step (toLowerCase : string -> string) (p : PopoverProps)
    (st : PopoverState) (ev : PopoverEvent) : PopoverState * list PopoverCallback :=
  match ev with
  | ChangeSearch v =>
    ({| search := v; selected := selected st; applyToSimilar := applyToSimilar st |}, [])
  | ClickOption i =>
    match filtered toLowerCase p st !! i with
    | Some cat =>
      ({| search := search st; selected := Some (cat_id cat);
          applyToSimilar := applyToSimilar st |}, [])
    | None => (st, [])
    end
  | CheckApplyToSimilar b =>
    ({| search := search st; selected := selected st; applyToSimilar := b |}, [])
  | ClickConfirmAction =>
    match selected st with
    | Some s =>
      if bool_decide (selected st = currentCategoryId p) then (st, [])
      else (st, [onConfirm s (applyToSimilar st)])
    | None => (st, [])
    end
  | ClickClose => (st, [onClose])
  end.

Fixpoint popover_run (toLowerCase : string -> string) (p : PopoverProps)
    (st : PopoverState) (evs : list PopoverEvent) : PopoverState * list PopoverCallback :=
  match evs with
  | [] => (st, [])
  | ev :: evs' =>
    let '(st1, out1) := popover_step toLowerCase p st ev in
    let '(st2, out2) := popover_run toLowerCase p st1 evs' in
    (st2, out1 ++ out2)
  end.

(** [MOCK_CATEGORIES]. *)
Definition MOCK_CATEGORIES : list CategoryOption :=
  [{| cat_id := 1; cat_name := "Alimentari"; cat_color := "#4CAF50" |};
   {| cat_id := 2; cat_name := "Casa"; cat_color := "#2196F3" |};
   {| cat_id := 3; cat_name := "Trasporti"; cat_color := "#FF9800" |};
   {| cat_id := 4; cat_name := "Svago"; cat_color := "#E91E63" |};
   {| cat_id := 5; cat_name := "Servizi"; cat_color := "#00BCD4" |};
   {| cat_id := 6; cat_name := "Salute"; cat_color := "#F44336" |};
   {| cat_id := 7; cat_name := "Shopping"; cat_color := "#9C27B0" |};
   {| cat_id := 8; cat_name := "Stipendio"; cat_color := "#4CAF50" |};
   {| cat_id := 9; cat_name := "Utenze"; cat_color := "#607D8B" |};
   {| cat_id := 10; cat_name := "Abbonamenti"; cat_color := "#795548" |};
   {| cat_id := 11; cat_name := "Altro"; cat_color := "#9E9E9E" |}].

(** Samples: ASCII lower-casing, a page of two transactions, a popover on
    the second. *)
Definition ascii_lower (s : string) : string :=
  Text.to_string (Text.lower (Text.of_string s)).

Definition sample_page : list Transaction :=
  [{| id := 41; account_id := Some 1; category_id := Some 9; amount := -8950 # 100;
      date := "2025-02-25"; description := "ENEL ENERGIA"; type := Preview.expense |};
   {| id := 42; account_id := Some 1; category_id := Some 8; amount := 185000 # 100;
      date := "2025-02-27"; description := "STIPENDIO"; type := Preview.income |}].

Definition sample_popover : PopoverProps :=
  {| currentCategoryId := Some 8; categories := MOCK_CATEGORIES |}.

End Transactions.

(** ** The category list and the category form
    (frontend/src/components/categories/category-list.tsx,
    unnamed/part_009) *)

Module Categories.

Inductive CategoryType := expense | income.

#[global] Instance CategoryType_eq_dec : EqDecision CategoryType.
Proof. solve_decision. Defined.

(** [Category], as the form builds it. *)
Record Category := {
  id : string;
  name : string;
  icon : string;
  color : string;
  type : CategoryType;
  parentId : option string;
  isSystem : bool;
  transactionCount : Q;
  totalAmount : Q
}.

(** *** The list *)

(** [const parents = categories.filter((c) => c.parentId === null)]. *)
Definition parents (categories : list Category) : list Category :=
  List.filter (fun c => bool_decide (parentId c = None)) categories.

(** [childrenOf]. *)
Definition childrenOf (categories : list Category) (pid : string) : list Category :=
  List.filter (fun c => bool_decide (parentId c = Some pid)) categories.

(** [handleDelete], once the user has confirmed:
    [prev.filter((c) => c.id !== id && c.parentId !== id)]. *)
Definition handleDelete (cid : string) (prev : list Category) : list Category :=
  List.filter
    (fun c => negb (bool_decide (id c = cid)) && negb (bool_decide (parentId c = Some cid)))
    prev.

(** [handleSave]: replace the category with the same id, or append. *)
Definition handleSave (category : Category) (prev : list Category) : list Category :=
  match List.find (fun c => bool_decide (id c = id category)) prev with
  | Some _ => map (fun c => if bool_decide (id c = id category) then category else c) prev
  | None => prev ++ [category]
  end.

(** The amount of a row:
    [{cat.type === "income" ? "+" : "-"}{formatCurrency(cat.totalAmount)}]. *)
Definition stats_cell (minimumGroupingDigits : nat) (cat : Category) : Dom.node :=
  Dom.El "span"
    [("className",
      Dom.Str ("text-sm font-medium min-w-[90px] text-right " +:+
               match type cat with
               | income => "text-emerald-600"
               | expense => "text-rose-600"
               end))]
    [Dom.Text match type cat with income => "+" | expense => "-" end;
     Dom.Text (Format.formatCurrency minimumGroupingDigits (totalAmount cat))].

(** Every parent named in the list is in the list, at the top level. *)
Definition two_levels (categories : list Category) : Prop :=
  forall c p, c ∈ categories -> parentId c = Some p ->
    exists q, q ∈ categories /\ id q = p /\ parentId q = None.

(** *** The form *)

(** [COLOR_PRESETS] of [@/lib/mock-categories] is a constant that is not
    empty: its first entry and the others. *)
Record FormProps := {
  category : option Category;
  categories : list Category;
  first_preset : string;
  more_presets : list string
}.

Definition COLOR_PRESETS (p : FormProps) : list string :=
  first_preset p :: more_presets p.

(** The five [useState] cells. *)
Record FormState := {
  st_name : string;
  st_icon : string;
  st_color : string;
  st_parentId : option string;
  st_type : CategoryType
}.

(** The icon a new category starts with, as the source file has it. *)
Definition default_icon : string := "üìÅ".

Definition initial_state (p : FormProps) : FormState :=
  {| st_name := default "" (name <$> category p);
     st_icon := default default_icon (icon <$> category p);
     st_color := default (first_preset p) (color <$> category p);
     st_parentId := category p ≫= parentId;
     st_type := default expense (type <$> category p) |}.

(** [const parentOptions =
       categories.filter((c) => c.type === type && c.id !== category?.id)]. *)
Definition parentOptions (p : FormProps) (st : FormState) : list Category :=
  List.filter
    (fun c => bool_decide (type c = st_type st) &&
              negb (bool_decide (Some (id c) = id <$> category p)))
    (categories p).

(** The [value]s of the options of the parent select, the first for "no
    parent". *)
Definition parent_values (p : FormProps) (st : FormState) : list string :=
  "" :: map id (parentOptions p st).

Inductive FormEvent :=
| ChangeName (value : string)
| ChangeIcon (value : string)
| ClickColor (position : nat)
| ClickType (ty : CategoryType)
| SelectParent (option_index : nat)
| Submit (now : Z)
| Cancel.

Inductive Callback :=
| onSave (saved : Category)
| onCancel.

(** [`cust-${now}`]. *)
Definition fresh_id (now : Z) : string :=
  "cust-" +:+
  Text.to_string ((if now <? 0 then ["-"%char] else []) ++
                  Text.digits_of_N (Z.to_N (Z.abs now))).

(** [handleSubmit]: nothing is saved while the trimmed name is empty. *)
Definition handleSubmit (p : FormProps) (st : FormState) (now : Z) : list Callback :=
  if bool_decide (JsText.trim (st_name st) = "") then []
  else
    [onSave {| id := default (fresh_id now) (id <$> category p);
               name := JsText.trim (st_name st);
               icon := st_icon st;
               color := st_color st;
               type := st_type st;
               parentId := st_parentId st;
               isSystem := false;
               transactionCount := default 0%Q (transactionCount <$> category p);
               totalAmount := default 0%Q (totalAmount <$> category p) |}].

Definition form_step (p : FormProps) (st : FormState) (ev : FormEvent) :
    FormState * list Callback :=
  match ev with
  | ChangeName v =>
    ({| st_name := v; st_icon := st_icon st; st_color := st_color st;
        st_parentId := st_parentId st; st_type := st_type st |}, [])
  | ChangeIcon v =>
    ({| st_name := st_name st; st_icon := v; st_color := st_color st;
        st_parentId := st_parentId st; st_type := st_type st |}, [])
  | ClickColor i =>
    match COLOR_PRESETS p !! i with
    | Some c =>
      ({| st_name := st_name st; st_icon := st_icon st; st_color := c;
          st_parentId := st_parentId st; st_type := st_type st |}, [])
    | None => (st, [])
    end
  | ClickType ty =>
    ({| st_name := st_name st; st_icon := st_icon st; st_color := st_color st;
        st_parentId := None; st_type := ty |}, [])
  | SelectParent i =>
    match parent_values p st !! i with
    | Some v =>
      ({| st_name := st_name st; st_icon := st_icon st; st_color := st_color st;
          st_parentId := if bool_decide (v = "") then None else Some v;
          st_type := st_type st |}, [])
    | None => (st, [])
    end
  | Submit now => (st, handleSubmit p st now)
  | Cancel => (st, [onCancel])
  end.

Fixpoint form_run (p : FormProps) (st : FormState) (evs : list FormEvent) :
    FormState * list Callback :=
  match evs with
  | [] => (st, [])
  | ev :: evs' =>
    let '(st1, out1) := form_step p st ev in
    let '(st2, out2) := form_run p st1 evs' in
    (st2, out1 ++ out2)
  end.

Definition saved_categories (p : FormProps) (evs : list FormEvent) : list Category :=
  omap (fun c => match c with onSave r => Some r | onCancel => None end)
       (snd (form_run p (initial_state p) evs)).

(** The form as the list mounts it to create a category:
    [<CategoryForm categories={parents} ... />]. *)
Definition create_form (first_preset : string) (more_presets : list string)
    (all : list Category) : FormProps :=
  {| category := None; categories := parents all;
     first_preset := first_preset; more_presets := more_presets |}.

(** A sample list: a top-level category, a child of it and a child of the
    child. *)
Definition sample_home : Category :=
  {| id := "casa"; name := "Casa"; icon := "C"; color := "#2196F3"; type := expense;
     parentId := None; isSystem := true; transactionCount := 12;
     totalAmount := 145000 # 100 |}.

Definition sample_rent : Category :=
  {| id := "affitto"; name := "Affitto"; icon := "A"; color := "#2196F3"; type := expense;
     parentId := Some "casa"; isSystem := false; transactionCount := 3;
     totalAmount := 120000 # 100 |}.

Definition sample_refund : Category :=
  {| id := "rimborsi"; name := "Rimborsi"; icon := "R"; color := "#4CAF50"; type := expense;
     parentId := None; isSystem := false; transactionCount := 2;
     totalAmount := -4550 # 100 |}.

(** The parent chosen in the form is one of the categories offered, of the
    type chosen. *)
Definition parent_offered (p : FormProps) (st : FormState) : Prop :=
  forall v, st_parentId st = Some v ->
    exists q, q ∈ categories p /\ id q = v /\ type q = st_type st.

(** A sample session with the create form. *)
Definition sample_creation : list FormEvent :=
  [ChangeName " Bollette "; SelectParent 1; Submit 1700000000000].

(** *** The list while its create form is open

    The rows of the list stay in use while the create form is open: a
    category that is not a system category can be deleted, and the form is
    then rendered again with the parents that are left, its state as it
    was.  [handleSave] closes the form, and so does [handleCancel]. *)
Inductive CreateEvent :=
| InForm (ev : FormEvent)
| ClickDelete (cid : string).

(** The categories and, while the form is open, its state. *)
Definition CreateState : Type := list Category * option FormState.

(** The rows with a delete button: [{!cat.isSystem && (...)}]. *)
Definition deletable (cid : string) (all : list Category) : bool :=
  existsb (fun c => bool_decide (id c = cid) && negb (isSystem c)) all.

Definition create_step (first_preset : string) (more_presets : list string)
    (s : CreateState) (ev : CreateEvent) : CreateState :=
  match ev with
  | InForm fev =>
    match snd s with
    | Some st =>
      let '(st', calls) :=
        form_step (create_form first_preset more_presets (fst s)) st fev in
      match calls with
      | [] => (fst s, Some st')
      | onSave saved :: _ => (handleSave saved (fst s), None)
      | onCancel :: _ => (fst s, None)
      end
    | None => s
    end
  | ClickDelete cid =>
    (if deletable cid (fst s) then handleDelete cid (fst s) else fst s, snd s)
  end.

Definition create_run (first_preset : string) (more_presets : list string)
    (s : CreateState) (evs : list CreateEvent) : CreateState :=
  foldl (create_step first_preset more_presets) s evs.

(** [setIsCreating(true)]: the form is mounted on the list as it is. *)
Definition open_create (first_preset : string) (more_presets : list string)
    (all : list Category) : CreateState :=
  (all, Some (initial_state (create_form first_preset more_presets all))).

(** The parent chosen in the open form is a top-level category of the list,
    of the type chosen, unless it has been deleted. *)
Definition parent_in_list (deleted : list CreateEvent) (s : CreateState) : Prop :=
  forall st p, snd s = Some st -> st_parentId st = Some p ->
    In (ClickDelete p) deleted \/
    exists q, q ∈ fst s /\ id q = p /\ parentId q = None /\ type q = st_type st.

End Categories.

(* ===================================================================== *)
(** * Part II: theorems                                                  *)
(* ===================================================================== *)

Module TextFacts.
Import Text.

Lemma of_to_string (s : chars) : of_string (to_string s) = s.
Proof. apply String.list_ascii_of_string_of_list_ascii. Qed.

Lemma to_of_string (s : string) : to_string (of_string s) = s.
Proof. apply String.string_of_list_ascii_of_string. Qed.

Lemma uint_of_digits_of_uint (u : Decimal.uint) :
  uint_of_digits (digits_of_uint u) = Some u.
Proof. induction u; simpl; rewrite ?IHu; reflexivity. Qed.

Lemma digits_of_uint_digit (u : Decimal.uint) :
  Forall (fun c => is_digit c = true) (digits_of_uint u).
Proof. induction u; simpl; constructor; auto. Qed.

Lemma digits_of_N_digit (n : N) :
  Forall (fun c => is_digit c = true) (digits_of_N n).
Proof. apply digits_of_uint_digit. Qed.

Lemma digits_of_N_nonempty (n : N) : digits_of_N n <> [].
Proof.
  unfold digits_of_N. destruct n as [|p]; [discriminate|].
  simpl. intros H.
  apply (DecimalPos.Unsigned.to_uint_nonnil p).
  destruct (Pos.to_uint p); simpl in H; congruence.
Qed.

Lemma digits_of_N_value (n : N) :
  exists u, uint_of_digits (digits_of_N n) = Some u /\ N.of_uint u = n.
Proof.
  exists (N.to_uint n). split.
  - apply uint_of_digits_of_uint.
  - apply DecimalN.Unsigned.of_to.
Qed.

(** A check of a decidable property of the numbers below a bound, by
    enumeration. *)
Lemma N_forall_below (P : N -> bool) (n : nat) :
  forallb P (map N.of_nat (seq 0 n)) = true ->
  forall x, (x < N.of_nat n)%N -> P x = true.
Proof.
  intros H x Hx. rewrite forallb_forall in H. apply H.
  apply in_map_iff. exists (N.to_nat x). split; [lia|].
  apply in_seq. lia.
Qed.

Lemma starts_with_head_ne (h c : ascii) (pt s : chars) :
  c <> h -> starts_with (h :: pt) (c :: s) = false.
Proof. intros Hne. simpl. destruct (decide (h = c)); congruence. Qed.

(** A pattern does not occur where its first byte does not. *)
Lemma remove_from_free_prefix (h : ascii) (pt s rest : chars) :
  Forall (fun c => c <> h) s ->
  remove_from (h :: pt) 0 (s ++ rest) = s ++ remove_from (h :: pt) 0 rest.
Proof.
  induction 1 as [|c s Hc _ IH]; [reflexivity|].
  cbn [app remove_from]. rewrite starts_with_head_ne by assumption.
  now rewrite IH.
Qed.

Lemma remove_all_free_prefix (h : ascii) (pt s rest : chars) :
  Forall (fun c => c <> h) s ->
  remove_all (h :: pt) (s ++ rest) = s ++ remove_all (h :: pt) rest.
Proof. apply remove_from_free_prefix. Qed.

(** Removing a one-byte pattern is filtering that byte out. *)
Lemma remove_all_single (c : ascii) (s : chars) :
  remove_all [c] s = List.filter (fun x => negb (bool_decide (x = c))) s.
Proof.
  unfold remove_all. induction s as [|x s IH]; [reflexivity|].
  cbn [remove_from starts_with List.filter length Nat.sub].
  destruct (decide (c = x)) as [->|Hne].
  - rewrite bool_decide_true by reflexivity. simpl. exact IH.
  - rewrite bool_decide_false by congruence. simpl. now rewrite IH.
Qed.

End TextFacts.

(** ** JavaScript numbers *)

Module NumberFacts.
Import Number.
Local Open Scope Q_scope.

Lemma pow2_pos (e : Z) : 0 < 2 ^ e.
Proof. apply Qpower_0_lt. reflexivity. Qed.

Lemma pow10_pos (e : Z) : 0 < 10 ^ e.
Proof. apply Qpower_0_lt. reflexivity. Qed.

Lemma pow2_succ (e : Z) : 2 ^ (e + 1) == 2 * 2 ^ e.
Proof.
  rewrite Qpower_plus by discriminate. rewrite Qpower_1_r. ring.
Qed.

Lemma pow2_le (a b : Z) : (a <= b)%Z -> 2 ^ a <= 2 ^ b.
Proof. intros H. apply Qpower_le_compat_l; [exact H | discriminate]. Qed.

Lemma pow2_Z (n : Z) : (0 <= n)%Z -> inject_Z (2 ^ n) == 2 ^ n.
Proof. intros H. rewrite Zpower_Qpower by exact H. reflexivity. Qed.

Lemma Q_as_fraction (q : Q) :
  q * inject_Z (Z.pos (Qden q)) == inject_Z (Qnum q).
Proof.
  destruct q as [n d]. unfold Qeq, Qmult, inject_Z. simpl. lia.
Qed.

Lemma log2_bounds (n : Z) :
  (0 < n)%Z -> 2 ^ Z.log2 n <= inject_Z n /\ inject_Z n < 2 * 2 ^ Z.log2 n.
Proof.
  intros Hn. destruct (Z.log2_spec n Hn) as [Hlo Hhi].
  pose proof (Z.log2_nonneg n) as H0.
  assert (E1 : inject_Z (2 ^ Z.log2 n) == 2 ^ Z.log2 n) by (apply pow2_Z; exact H0).
  assert (E2 : inject_Z (2 ^ Z.succ (Z.log2 n)) == 2 * 2 ^ Z.log2 n).
  { rewrite pow2_Z by lia. replace (Z.succ (Z.log2 n)) with (Z.log2 n + 1)%Z by lia.
    apply pow2_succ. }
  split.
  - rewrite <- E1. rewrite <- Zle_Qle. exact Hlo.
  - rewrite <- E2. rewrite <- Zlt_Qlt. exact Hhi.
Qed.

Lemma ilog2_spec (q : Q) :
  0 < q -> 2 ^ ilog2 q <= q /\ q < 2 ^ (ilog2 q + 1).
Proof.
  intros Hq. unfold ilog2.
  set (a := Z.log2 (Qnum q)). set (b := Z.log2 (Z.pos (Qden q))).
  assert (Hn : (0 < Qnum q)%Z).
  { destruct q as [n d]. unfold Qlt in Hq. simpl in *. lia. }
  destruct (log2_bounds (Qnum q) Hn) as [Ha1 Ha2].
  destruct (log2_bounds (Z.pos (Qden q)) eq_refl) as [Hb1 Hb2].
  fold a in Ha1, Ha2. fold b in Hb1, Hb2.
  pose proof (Q_as_fraction q) as Hf.
  pose proof (pow2_pos a) as HA. pose proof (pow2_pos b) as HB.
  pose proof (pow2_pos (a - b)) as HK.
  assert (Hk : 2 ^ (a - b) * 2 ^ b == 2 ^ a).
  { rewrite <- Qpower_plus by discriminate. 
    replace (a - b + b)%Z with a by lia. reflexivity. }
  set (A := 2 ^ a) in *. set (B := 2 ^ b) in *. set (K := 2 ^ (a - b)) in *.
  set (N := inject_Z (Qnum q)) in *. set (D := inject_Z (Z.pos (Qden q))) in *.
  assert (Hup : q < 2 * K).
  { apply Qnot_le_lt. intros Hc.
    assert (2 * K * B <= q * D) by nra. nra. }
  destruct (Qle_bool K q) eqn:Hle.
  - apply Qle_bool_iff in Hle. split; [exact Hle|].
    unfold K. rewrite pow2_succ. exact Hup.
  - assert (Hlt : q < K).
    { apply Qnot_le_lt. intros Hc. apply Qle_bool_iff in Hc. congruence. }
    replace (a - b - 1 + 1)%Z with (a - b)%Z by lia. fold K.
    split; [|exact Hlt].
    assert (Hh : 2 * 2 ^ (a - b - 1) == K).
    { rewrite <- pow2_succ. replace (a - b - 1 + 1)%Z with (a - b)%Z by lia.
      reflexivity. }
    pose proof (pow2_pos (a - b - 1)) as Hp.
    set (H2 := 2 ^ (a - b - 1)) in *.
    apply Qnot_lt_le. intros Hc.
    assert (q * D < H2 * (2 * B)) by nra. nra.
Qed.


Lemma round_half_even_near (t : Q) :
  t - (1 # 2) <= inject_Z (round_half_even t) /\
  inject_Z (round_half_even t) <= t + (1 # 2).
Proof.
  unfold round_half_even.
  pose proof (Qfloor_le t) as Hlo. pose proof (Qlt_floor t) as Hhi.
  rewrite inject_Z_plus in Hhi. change (inject_Z 1) with 1 in Hhi.
  set (f := Qfloor t) in *.
  destruct (Qcompare (t - inject_Z f) (1 # 2)) eqn:Hc.
  - apply Qeq_alt in Hc.
    destruct (Z.even f);
      [|rewrite inject_Z_plus; change (inject_Z 1) with 1]; split; lra.
  - apply Qlt_alt in Hc. split; lra.
  - apply Qgt_alt in Hc. rewrite inject_Z_plus. change (inject_Z 1) with 1.
    split; lra.
Qed.

Lemma round_half_even_ge (t : Q) (n : Z) :
  inject_Z n <= t -> (n <= round_half_even t)%Z.
Proof.
  intros H. assert (Hf : (n <= Qfloor t)%Z).
  { rewrite <- (Qfloor_Z n). apply Qfloor_resp_le. exact H. }
  unfold round_half_even.
  destruct (Qcompare _ _); [destruct (Z.even _)| |]; lia.
Qed.

Lemma round_half_even_le (t : Q) (n : Z) :
  t <= inject_Z n -> (round_half_even t <= n)%Z.
Proof.
  intros H. pose proof (Qfloor_le t) as Hlo.
  assert (Hf : (Qfloor t <= n)%Z).
  { rewrite <- (Qfloor_Z n). apply Qfloor_resp_le. exact H. }
  destruct (Z.eq_dec (Qfloor t) n) as [He | Hne].
  - unfold round_half_even. cbv zeta. rewrite He in *.
    destruct (Qcompare (t - inject_Z n) (1 # 2)) eqn:Hc.
    + apply Qeq_alt in Hc. lra.
    + lia.
    + apply Qgt_alt in Hc. lra.
  - unfold round_half_even.
    destruct (Qcompare _ _); [destruct (Z.even _)| |]; lia.
Qed.

(** The double next to a positive rational: at most half a quantum away. *)
Lemma nearest_pos_near (q d : Q) :
  0 < q -> nearest_pos q = Some d ->
  Qabs (d - q) <= 2 ^ quantum q / 2.
Proof.
  intros Hq. unfold nearest_pos.
  set (p := quantum q).
  destruct (Qle_bool _ _); [discriminate|]. intros [= <-].
  pose proof (pow2_pos p) as Hp.
  destruct (round_half_even_near (q / 2 ^ p)) as [H1 H2].
  set (m := inject_Z (round_half_even (q / 2 ^ p))) in *.
  assert (Ht : q / 2 ^ p * 2 ^ p == q) by (field; lra).
  set (t := q / 2 ^ p) in *.
  apply Qabs_Qle_condition. split.
  - assert (- (2 ^ p / 2) == - (1 # 2) * 2 ^ p) as -> by field.
    rewrite <- Ht. nra.
  - assert (2 ^ p / 2 == (1 # 2) * 2 ^ p) as -> by field.
    rewrite <- Ht. nra.
Qed.

Lemma nearest_pos_ge (q d : Q) (e : Z) :
  (-1074 <= e)%Z -> 2 ^ e <= q -> nearest_pos q = Some d -> 2 ^ e <= d.
Proof.
  intros He Hq. unfold nearest_pos.
  assert (Hq0 : 0 < q) by (apply Qlt_le_trans with (2 ^ e); [apply pow2_pos | exact Hq]).
  destruct (ilog2_spec q Hq0) as [Hs1 Hs].
  assert (Hle : (e <= ilog2 q)%Z).
  { assert (2 ^ e < 2 ^ (ilog2 q + 1)) as Hlt
      by (apply Qle_lt_trans with q; assumption).
    apply Qpower_lt_compat_l_inv in Hlt; [lia | reflexivity]. }
  set (p := quantum q). set (e' := ilog2 q) in *.
  assert (Hpe : (p <= e')%Z) by (unfold p, quantum; fold e'; lia).
  destruct (Qle_bool _ _); [discriminate|]. intros [= <-].
  pose proof (pow2_pos p) as Hp.
  assert (Hsplit : 2 ^ e' == inject_Z (2 ^ (e' - p)) * 2 ^ p).
  { rewrite pow2_Z by lia. rewrite <- Qpower_plus by discriminate.
    replace (e' - p + p)%Z with e' by lia. reflexivity. }
  assert (Hm : (2 ^ (e' - p) <= round_half_even (q / 2 ^ p))%Z).
  { apply round_half_even_ge. apply Qle_shift_div_l; [exact Hp|].
    rewrite <- Hsplit. exact Hs1. }
  apply Qle_trans with (2 ^ e'); [apply pow2_le; exact Hle|].
  rewrite Hsplit. apply Qmult_le_compat_r; [|apply Qlt_le_weak; exact Hp].
  rewrite <- Zle_Qle. exact Hm.
Qed.

Lemma nearest_pos_le (q : Q) (e : Z) :
  (-1074 <= e)%Z -> 0 < q -> q <= 2 ^ e ->
  inject_Z (round_half_even (q / 2 ^ quantum q)) * 2 ^ quantum q <= 2 ^ e.
Proof.
  intros He Hq0 Hq.
  destruct (ilog2_spec q Hq0) as [Hs _].
  assert (Hle : (ilog2 q <= e)%Z).
  { assert (2 ^ ilog2 q <= 2 ^ e) as Hlt
      by (apply Qle_trans with q; assumption).
    apply Qpower_le_compat_l_inv in Hlt; [lia | reflexivity]. }
  set (p := quantum q).
  assert (Hpe : (p <= e)%Z) by (unfold p, quantum; lia).
  pose proof (pow2_pos p) as Hp.
  assert (Hsplit : 2 ^ e == inject_Z (2 ^ (e - p)) * 2 ^ p).
  { rewrite pow2_Z by lia. rewrite <- Qpower_plus by discriminate.
    replace (e - p + p)%Z with e by lia. reflexivity. }
  assert (Hm : (round_half_even (q / 2 ^ p) <= 2 ^ (e - p))%Z).
  { apply round_half_even_le. apply Qle_shift_div_r; [exact Hp|].
    rewrite <- Hsplit. exact Hq. }
  rewrite Hsplit. apply Qmult_le_compat_r; [|apply Qlt_le_weak; exact Hp].
  rewrite <- Zle_Qle. exact Hm.
Qed.


Lemma ilog2_unique (q : Q) (e : Z) :
  2 ^ e <= q -> q < 2 ^ (e + 1) -> ilog2 q = e.
Proof.
  intros H1 H2.
  assert (Hq : 0 < q) by (apply Qlt_le_trans with (2 ^ e); [apply pow2_pos | exact H1]).
  destruct (ilog2_spec q Hq) as [H3 H4].
  assert (Ha : 2 ^ e < 2 ^ (ilog2 q + 1)) by (apply Qle_lt_trans with q; assumption).
  assert (Hb : 2 ^ ilog2 q < 2 ^ (e + 1)) by (apply Qle_lt_trans with q; assumption).
  apply Qpower_lt_compat_l_inv in Ha; [|reflexivity].
  apply Qpower_lt_compat_l_inv in Hb; [|reflexivity]. lia.
Qed.

Lemma ilog2_comp (q q' : Q) : 0 < q -> q == q' -> ilog2 q = ilog2 q'.
Proof.
  intros Hq He. symmetry. destruct (ilog2_spec q Hq) as [H1 H2].
  apply ilog2_unique; rewrite <- He; assumption.
Qed.

Lemma round_half_even_comp (t t' : Q) :
  t == t' -> round_half_even t = round_half_even t'.
Proof.
  intros He. unfold round_half_even. cbv zeta.
  rewrite (Qfloor_comp _ _ He).
  assert (Hc : Qcompare (t - inject_Z (Qfloor t')) (1 # 2) =
               Qcompare (t' - inject_Z (Qfloor t')) (1 # 2)).
  { apply Qcompare_comp; [rewrite He|]; reflexivity. }
  rewrite Hc. reflexivity.
Qed.

Lemma nearest_pos_comp (q q' : Q) :
  0 < q -> q == q' -> nearest_pos q = nearest_pos q'.
Proof.
  intros Hq He. unfold nearest_pos, quantum.
  rewrite <- (ilog2_comp q q' Hq He).
  set (p := Z.max _ _).
  assert (Ht : q / 2 ^ p == q' / 2 ^ p) by (rewrite He; reflexivity).
  rewrite (round_half_even_comp _ _ Ht). reflexivity.
Qed.

Lemma nearest_comp (q q' : Q) : q == q' -> nearest q = nearest q'.
Proof.
  intros He. unfold nearest.
  assert (Hc : Qcompare q 0 = Qcompare q' 0) by (apply Qcompare_comp; [exact He | reflexivity]).
  rewrite <- Hc. destruct (Qcompare q 0) eqn:Hq.
  - reflexivity.
  - apply Qlt_alt in Hq.
    rewrite (nearest_pos_comp (- q) (- q')); [reflexivity | lra | rewrite He; reflexivity].
  - apply Qgt_alt in Hq. apply nearest_pos_comp; [lra | exact He].
Qed.

Lemma nearest_pos_nonneg (q d : Q) :
  0 < q -> nearest_pos q = Some d -> 0 <= d.
Proof.
  intros Hq. unfold nearest_pos. set (p := quantum q).
  destruct (Qle_bool _ _); [discriminate|]. intros [= <-].
  pose proof (pow2_pos p) as Hp.
  apply Qmult_le_0_compat; [|apply Qlt_le_weak; exact Hp].
  change 0 with (inject_Z 0). rewrite <- Zle_Qle.
  apply round_half_even_ge. change (inject_Z 0) with 0.
  apply Qle_shift_div_l; [exact Hp|]. lra.
Qed.

(** What [reads_as d c] says for a positive [d]. *)
Lemma reads_as_pos (d c : Q) :
  0 < d -> reads_as d c = true ->
  0 < c /\ exists d', nearest_pos c = Some d' /\ d' == d.
Proof.
  intros Hd. unfold reads_as, nearest.
  destruct (Qcompare c 0) eqn:Hc.
  - intros H. apply Qeq_bool_iff in H. lra.
  - apply Qlt_alt in Hc.
    destruct (nearest_pos (- c)) as [d'|] eqn:Hn; [|discriminate].
    destruct (Qeq_bool d' 0); [discriminate|].
    intros H. apply Qeq_bool_iff in H.
    assert (0 <= d') by (apply (nearest_pos_nonneg (- c)); [lra | exact Hn]).
    lra.
  - apply Qgt_alt in Hc.
    destruct (nearest_pos c) as [d'|] eqn:Hn; [|discriminate].
    intros H. apply Qeq_bool_iff in H. split; [lra|]. eauto.
Qed.

Lemma pick_spec (d : Q) (j : Z) (c : Q) :
  pick d j = Some c ->
  reads_as d c = true /\ exists k : Z, c = inject_Z k * 10 ^ j.
Proof.
  unfold pick. cbv zeta.
  destruct (reads_as d (inject_Z (Qfloor (d / 10 ^ j)) * 10 ^ j)) eqn:Hlo,
           (reads_as d (inject_Z (Qfloor (d / 10 ^ j) + 1) * 10 ^ j)) eqn:Hhi.
  - destruct (Qcompare _ _); [destruct (Z.even _)| |];
      intros [= <-]; eauto.
  - intros [= <-]; eauto.
  - intros [= <-]; eauto.
  - discriminate.
Qed.

Lemma pick_some (d : Q) (j : Z) :
  reads_as d (inject_Z (Qfloor (d / 10 ^ j)) * 10 ^ j) = true \/
  reads_as d (inject_Z (Qfloor (d / 10 ^ j) + 1) * 10 ^ j) = true ->
  pick d j <> None.
Proof.
  unfold pick. cbv zeta.
  destruct (reads_as d (inject_Z (Qfloor (d / 10 ^ j)) * 10 ^ j)),
           (reads_as d (inject_Z (Qfloor (d / 10 ^ j) + 1) * 10 ^ j)).
  - intros _. destruct (Qcompare _ _); [destruct (Z.even _)| |]; discriminate.
  - discriminate.
  - discriminate.
  - intros [H | H]; discriminate.
Qed.

Lemma scan_finds (d : Q) (jx : Z) (fuel : nat) (j : Z) :
  (jx <= j)%Z -> (Z.to_nat (j - jx) < fuel)%nat -> pick d jx <> None ->
  exists j' c, (jx <= j' <= j)%Z /\ pick d j' = Some c /\ scan d j fuel = c.
Proof.
  revert j. induction fuel as [|n IH]; intros j Hj Hfuel Hx; [lia|].
  simpl. destruct (pick d j) as [c|] eqn:Hp.
  - exists j, c. repeat split; [exact Hj | lia | exact Hp].
  - assert (Hne : j <> jx) by (intros ->; congruence).
    destruct (IH (j - 1)%Z) as (j' & c & Hr & Hc & Hs); [lia | lia | exact Hx |].
    exists j', c. repeat split; [lia | lia | exact Hc | exact Hs].
Qed.


Lemma quantum_small (q : Q) : 0 < q -> q < 2 ^ 46 -> (quantum q <= -7)%Z.
Proof.
  intros Hq Hlt. destruct (ilog2_spec q Hq) as [H1 _].
  assert (H : 2 ^ ilog2 q < 2 ^ 46) by (apply Qle_lt_trans with q; assumption).
  apply Qpower_lt_compat_l_inv in H; [|reflexivity]. unfold quantum. lia.
Qed.

Lemma half_quantum_small (q : Q) :
  0 < q -> q < 2 ^ 46 -> 2 ^ quantum q / 2 <= 1 # 256.
Proof.
  intros Hq Hlt. pose proof (pow2_le _ _ (quantum_small q Hq Hlt)) as H.
  set (x := 2 ^ quantum q) in *.
  assert (E : 2 ^ (-7) == 1 # 128) by reflexivity.
  rewrite E in H. apply Qle_shift_div_r; [reflexivity|]. lra.
Qed.

Lemma nearest_pos_small (q : Q) :
  0 < q -> q < 2 ^ 46 ->
  exists d, nearest_pos q = Some d /\ Qabs (d - q) <= 1 # 256.
Proof.
  intros Hq Hlt.
  assert (Hd : inject_Z (round_half_even (q / 2 ^ quantum q)) * 2 ^ quantum q
               <= 2 ^ 46).
  { apply nearest_pos_le; [lia | exact Hq | apply Qlt_le_weak; exact Hlt]. }
  assert (Hn : nearest_pos q =
               Some (inject_Z (round_half_even (q / 2 ^ quantum q)) * 2 ^ quantum q)).
  { unfold nearest_pos. cbv zeta.
    destruct (Qle_bool _ _) eqn:Hb; [|reflexivity].
    apply Qle_bool_iff in Hb.
    assert (2 ^ 1024 <= 2 ^ 46) as Hc by (eapply Qle_trans; eassumption).
    apply Qpower_le_compat_l_inv in Hc; [lia | reflexivity]. }
  eexists. split; [exact Hn|].
  eapply Qle_trans; [apply nearest_pos_near; [exact Hq | exact Hn]|].
  apply half_quantum_small; assumption.
Qed.

Lemma nearest_pos_small_inv (c d : Q) :
  0 < c -> nearest_pos c = Some d -> d < 2 ^ 46 -> Qabs (d - c) <= 1 # 256.
Proof.
  intros Hc Hn Hd.
  assert (Hlt : c < 2 ^ 46).
  { apply Qnot_le_lt. intros Hge.
    pose proof (nearest_pos_ge c d 46 ltac:(lia) Hge Hn) as H.
    apply (Qlt_irrefl d). eapply Qlt_le_trans; eassumption. }
  eapply Qle_trans; [apply nearest_pos_near; [exact Hc | exact Hn]|].
  apply half_quantum_small; assumption.
Qed.

Lemma pow10_cents (j : Z) :
  (-2 <= j)%Z -> 10 ^ j * 100 == inject_Z (10 ^ (j + 2)).
Proof.
  intros Hj. rewrite Zpower_Qpower by lia.
  change (inject_Z 10) with 10.
  rewrite Qpower_plus by discriminate. reflexivity.
Qed.

(** A positive amount in whole cents below 2^46 is the shortest decimal of
    the double next to it. *)
Lemma shortest_cents_pos (q : Q) (K : Z) :
  0 < q -> q * 100 == inject_Z K -> q < 2 ^ 46 ->
  exists d, nearest_pos q = Some d /\ 0 < d /\ shortest_pos d == q.
Proof.
  intros Hq HK Hlt.
  destruct (nearest_pos_small q Hq Hlt) as (d & Hn & Hnear).
  apply Qabs_Qle_condition in Hnear. destruct Hnear as [Hn1 Hn2].
  assert (E46 : 2 ^ 46 == 70368744177664) by reflexivity.
  rewrite E46 in Hlt.
  assert (HK1 : (1 <= K)%Z).
  { assert (0 < inject_Z K) as H by (rewrite <- HK; lra).
    change 0 with (inject_Z 0) in H. rewrite <- Zlt_Qlt in H. lia. }
  assert (HK2 : (K < 7036874417766400)%Z).
  { assert (inject_Z K < inject_Z 7036874417766400) as H.
    { rewrite <- HK. change (inject_Z 7036874417766400) with 7036874417766400. lra. }
    rewrite <- Zlt_Qlt in H. exact H. }
  assert (HK1q : 1 <= q * 100).
  { rewrite HK. change 1 with (inject_Z 1). rewrite <- Zle_Qle. exact HK1. }
  assert (HK2q : q * 100 <= 7036874417766399).
  { rewrite HK. change 7036874417766399 with (inject_Z 7036874417766399).
    rewrite <- Zle_Qle. lia. }
  assert (Hd0 : 0 < d) by lra.
  assert (Hd46 : d < 2 ^ 46) by (rewrite E46; lra).
  exists d. split; [exact Hn|]. split; [exact Hd0|].
  (* q is one of the two candidates with two decimals *)
  assert (Hx : pick d (-2) <> None).
  { apply pick_some.
    assert (Eu : d / 10 ^ (-2) == d * 100) by (change (10 ^ (-2)) with (1 # 100); field).
    rewrite (Qfloor_comp _ _ Eu).
    pose proof (Qfloor_le (d * 100)) as Hf1.
    pose proof (Qlt_floor (d * 100)) as Hf2.
    set (k := Qfloor (d * 100)) in *.
    rewrite inject_Z_plus in Hf2. change (inject_Z 1) with 1 in Hf2.
    assert (Hk : k = K \/ (k + 1)%Z = K).
    { assert (inject_Z k < inject_Z (K + 1)) as Ha.
      { rewrite inject_Z_plus. change (inject_Z 1) with 1. rewrite <- HK. lra. }
      assert (inject_Z K < inject_Z (k + 2)) as Hb.
      { rewrite inject_Z_plus. change (inject_Z 2) with 2. rewrite <- HK. lra. }
      rewrite <- Zlt_Qlt in Ha, Hb. lia. }
    assert (Hread : forall c, c == q -> reads_as d c = true).
    { intros c Hc. unfold reads_as. rewrite (nearest_comp c q Hc).
      unfold nearest. assert (Qcompare q 0 = Gt) as -> by (apply Qgt_alt; exact Hq).
      rewrite Hn. apply Qeq_bool_iff. reflexivity. }
    destruct Hk as [Hk | Hk]; [left | right]; apply Hread; rewrite Hk;
      change (10 ^ (-2)) with (1 # 100); rewrite <- HK; field. }
  unfold shortest_pos.
  destruct (scan_finds d (-2) 1400 309) as (j & c & Hj & Hp & ->);
    [lia | simpl; lia | exact Hx |].
  destruct (pick_spec d j c Hp) as [Hr [k Hc]].
  destruct (reads_as_pos d c Hd0 Hr) as [Hc0 (d' & Hn' & Hd')].
  assert (Hnear' : Qabs (d' - c) <= 1 # 256).
  { apply (nearest_pos_small_inv c d' Hc0 Hn'). rewrite Hd'. exact Hd46. }
  apply Qabs_Qle_condition in Hnear'. destruct Hnear' as [Hm1 Hm2].
  assert (Hc100 : c * 100 == inject_Z (k * 10 ^ (j + 2))).
  { rewrite Hc. rewrite inject_Z_mult. rewrite <- pow10_cents by lia. ring. }
  assert (Heq : (k * 10 ^ (j + 2))%Z = K).
  { assert (inject_Z (k * 10 ^ (j + 2)) < inject_Z (K + 1)) as Ha.
    { rewrite inject_Z_plus. change (inject_Z 1) with 1.
      rewrite <- HK, <- Hc100. lra. }
    assert (inject_Z K < inject_Z (k * 10 ^ (j + 2) + 1)) as Hb.
    { rewrite inject_Z_plus. change (inject_Z 1) with 1.
      rewrite <- HK, <- Hc100. lra. }
    rewrite <- Zlt_Qlt in Ha, Hb. lia. }
  rewrite Heq in Hc100. lra.
Qed.


Lemma Qopp_opp_eq (q : Q) : - - q = q.
Proof. destruct q as [n d]. unfold Qopp. cbn [Qnum Qden]. now rewrite Z.opp_involutive. Qed.

(** An amount in whole cents below 2^46 in magnitude survives the passage
    through a double: its number is the amount itself. *)
Lemma of_decimal_cents (q : Q) (K : Z) :
  q * 100 == inject_Z K -> Qabs q < 2 ^ 46 ->
  exists x, of_decimal q = Some x /\ x == q.
Proof.
  intros HK Hlt. unfold of_decimal, nearest.
  destruct (Qcompare q 0) eqn:Hc.
  - apply Qeq_alt in Hc. exists 0. split; [reflexivity | now symmetry].
  - apply Qlt_alt in Hc.
    assert (Hlt' : - q < 2 ^ 46).
    { rewrite Qabs_neg in Hlt by (apply Qlt_le_weak; exact Hc). exact Hlt. }
    destruct (shortest_cents_pos (- q) (- K)) as (d & Hn & Hd & Hs);
      [lra | rewrite inject_Z_opp, <- HK; ring | exact Hlt' |].
    rewrite Hn.
    assert (Hz : Qeq_bool d 0 = false).
    { apply not_true_is_false. intros H. apply Qeq_bool_iff in H. lra. }
    rewrite Hz. cbn [fmap option_fmap option_map]. unfold shortest.
    assert (Hneg : Qcompare (- d) 0 = Lt) by (apply (proj1 (Qlt_alt _ _)); lra).
    rewrite Hneg, Qopp_opp_eq. eexists. split; [reflexivity|]. rewrite Hs. ring.
  - apply Qgt_alt in Hc.
    assert (Hlt' : q < 2 ^ 46).
    { rewrite Qabs_pos in Hlt by (apply Qlt_le_weak; exact Hc). exact Hlt. }
    destruct (shortest_cents_pos q K Hc HK Hlt') as (d & Hn & Hd & Hs).
    rewrite Hn. cbn [fmap option_fmap option_map]. unfold shortest.
    assert (Hpos : Qcompare d 0 = Gt) by (apply (proj1 (Qgt_alt _ _)); exact Hd).
    rewrite Hpos. eexists. split; [reflexivity | exact Hs].
Qed.

End NumberFacts.

Module FormatFacts.
Import Text Format Normalization TextFacts.

(** The recursion of [group_lsd], as an induction principle. *)
Lemma group_lsd_rec (P : chars -> chars -> Prop) :
  (forall l, (length l <= 3)%nat -> P l l) ->
  (forall a b c d rest,
      P (d :: rest) (group_lsd (d :: rest)) ->
      P (a :: b :: c :: d :: rest)
        (a :: b :: c :: "."%char :: group_lsd (d :: rest))) ->
  forall l, P l (group_lsd l).
Proof.
  intros Hshort Hlong l.
  remember (length l) as n eqn:Hn. revert l Hn.
  induction n as [n IH] using lt_wf_ind. intros l Hn.
  destruct l as [|a [|b [|c [|d rest]]]];
    try (apply Hshort; simpl; lia).
  change (group_lsd (a :: b :: c :: d :: rest))
    with (a :: b :: c :: "."%char :: group_lsd (d :: rest)).
  apply Hlong. apply (IH (length (d :: rest))); [subst n; simpl; lia | reflexivity].
Qed.

Lemma group_lsd_filter (f : ascii -> bool) (l : chars) :
  f "."%char = false -> List.filter f (group_lsd l) = List.filter f l.
Proof.
  intros Hdot. apply (group_lsd_rec (fun l g => List.filter f g = List.filter f l)).
  - reflexivity.
  - intros a b c d rest IH.
    cbn [List.filter]. rewrite Hdot.
    change (List.filter f (d :: rest)) with
      (if f d then d :: List.filter f rest else List.filter f rest) in IH.
    rewrite IH. reflexivity.
Qed.

Lemma group_lsd_Forall (P : ascii -> Prop) (l : chars) :
  P "."%char -> Forall P l -> Forall P (group_lsd l).
Proof.
  intros Hdot. apply (group_lsd_rec (fun l g => Forall P l -> Forall P g)).
  - auto.
  - intros a b c d rest IH H.
    inversion H as [|? ? Ha H1]; subst. inversion H1 as [|? ? Hb H2]; subst.
    inversion H2 as [|? ? Hc H3]; subst.
    repeat constructor; auto.
Qed.

Lemma group_thousands_filter (f : ascii -> bool) (digits : chars) :
  f "."%char = false ->
  List.filter f (group_thousands digits) = List.filter f digits.
Proof.
  intros Hdot. unfold group_thousands.
  rewrite List.filter_rev, group_lsd_filter by assumption.
  rewrite <- List.filter_rev. now rewrite rev_involutive.
Qed.

Lemma group_thousands_Forall (P : ascii -> Prop) (digits : chars) :
  P "."%char -> Forall P digits -> Forall P (group_thousands digits).
Proof.
  intros Hdot H. unfold group_thousands.
  apply Forall_rev, group_lsd_Forall; [assumption|]. now apply Forall_rev.
Qed.

Lemma integer_part_filter (f : ascii -> bool) (g : nat) (digits : chars) :
  f "."%char = false ->
  List.filter f (integer_part g digits) = List.filter f digits.
Proof.
  intros Hdot. unfold integer_part.
  destruct (bool_decide _); [now apply group_thousands_filter | reflexivity].
Qed.

Lemma integer_part_Forall (P : ascii -> Prop) (g : nat) (digits : chars) :
  P "."%char -> Forall P digits -> Forall P (integer_part g digits).
Proof.
  intros Hdot H. unfold integer_part.
  destruct (bool_decide _); [now apply group_thousands_Forall | exact H].
Qed.

Lemma filter_keeps_all (f : ascii -> bool) (l : chars) :
  Forall (fun c => f c = true) l -> List.filter f l = l.
Proof. induction 1 as [|c l Hc _ IH]; simpl; [|rewrite Hc, IH]; reflexivity. Qed.

Lemma map_fixes_all (f : ascii -> ascii) (l : chars) :
  Forall (fun c => f c = c) l -> map f l = l.
Proof. induction 1 as [|c l Hc _ IH]; simpl; [|rewrite Hc, IH]; reflexivity. Qed.

Lemma amount_char_ne (h c : ascii) :
  amount_char h = false -> amount_char c = true -> c <> h.
Proof. intros Hh Hc ->. congruence. Qed.

Lemma digit_amount_char (c : ascii) : is_digit c = true -> amount_char c = true.
Proof. intros H. unfold amount_char. now rewrite H. Qed.

Lemma two_digits_spec (f : N) :
  (f < 100)%N ->
  Forall (fun c => is_digit c = true) (two_digits f) /\
  exists v, uint_of_digits (two_digits f) = Some v /\ N.of_uint v = f.
Proof.
  intros Hf.
  pose (check := fun f : N =>
    forallb is_digit (two_digits f) &&
    match uint_of_digits (two_digits f) with
    | Some v => N.eqb (N.of_uint v) f
    | None => false
    end).
  assert (Hc : check f = true).
  { apply (N_forall_below check 100%nat); [vm_compute; reflexivity | exact Hf]. }
  unfold check in Hc. apply andb_true_iff in Hc as [Hd Hv].
  split.
  - apply List.Forall_forall. intros c Hin.
    rewrite forallb_forall in Hd. now apply Hd.
  - destruct (uint_of_digits (two_digits f)) as [v|]; [|discriminate].
    exists v. split; [reflexivity|]. now apply N.eqb_eq.
Qed.

Lemma split_sign_digit (c : ascii) (r : chars) :
  is_digit c = true -> split_sign (c :: r) = (false, c :: r).
Proof.
  destruct c as [[] [] [] [] [] [] [] []]; intros H;
    try discriminate H; reflexivity.
Qed.

Lemma split_point_app (d f : chars) :
  Forall (fun c => c <> "."%char) d ->
  split_point (d ++ "."%char :: f) = (d, f).
Proof.
  induction 1 as [|c d Hc _ IH]; simpl.
  - reflexivity.
  - destruct (decide (c = "."%char)); [contradiction|]. now rewrite IH.
Qed.

Lemma is_digit_not (h c : ascii) : is_digit h = false -> is_digit c = true -> c <> h.
Proof. intros Hh Hc ->. congruence. Qed.

(** Stripping a formatted amount leaves sign, digits, comma, digits. *)
Lemma strip_formatted (g : nat) (sign digits frac : chars) :
  Forall (fun c => amount_char c = true) sign ->
  Forall (fun c => c <> "."%char) sign ->
  Forall (fun c => is_digit c = true) digits ->
  Forall (fun c => is_digit c = true) frac ->
  strip_all (blanks ++ currency_symbols ++ [thousands_separator])
    (sign ++ integer_part g digits ++ [","%char] ++ frac ++ nbsp ++ euro)
  = sign ++ digits ++ [","%char] ++ frac.
Proof.
  intros Hsign Hsdot Hdigits Hfrac.
  set (body := sign ++ integer_part g digits ++ [","%char] ++ frac).
  assert (Hbody : Forall (fun c => amount_char c = true) body).
  { unfold body.
    apply Forall_app_2; [exact Hsign|].
    apply Forall_app_2.
    { apply integer_part_Forall; [reflexivity|].
      eapply Forall_impl; [exact Hdigits|]. apply digit_amount_char. }
    apply Forall_app_2; [repeat constructor|].
    eapply Forall_impl; [exact Hfrac|]. apply digit_amount_char. }
  assert (Hfree : forall h, amount_char h = false -> Forall (fun c => c <> h) body).
  { intros h Hh. eapply Forall_impl; [exact Hbody|].
    intros c Hc. now apply (amount_char_ne h c). }
  replace (sign ++ integer_part g digits ++ [","%char] ++ frac ++ nbsp ++ euro)
    with (body ++ nbsp ++ euro)
    by (unfold body; now rewrite <- !app_assoc).
  unfold strip_all, blanks, currency_symbols, thousands_separator.
  cbn [app foldl]. unfold nbsp at 1.
  rewrite remove_all_free_prefix by (apply Hfree; reflexivity).
  change (remove_all [ascii_of_nat 194; ascii_of_nat 160] (nbsp ++ euro)) with euro.
  rewrite remove_all_free_prefix by (apply Hfree; reflexivity).
  change (remove_all [" "%char] euro) with euro.
  unfold euro at 1.
  rewrite remove_all_free_prefix by (apply Hfree; reflexivity).
  change (remove_all [ascii_of_nat 226; ascii_of_nat 130; ascii_of_nat 172] euro)
    with (@nil ascii).
  rewrite remove_all_free_prefix by (apply Hfree; reflexivity).
  change (remove_all ["$"%char] []) with (@nil ascii).
  rewrite remove_all_free_prefix by (apply Hfree; reflexivity).
  change (remove_all [ascii_of_nat 194; ascii_of_nat 163] []) with (@nil ascii).
  rewrite app_nil_r, remove_all_single. unfold body.
  rewrite !List.filter_app, integer_part_filter by reflexivity.
  rewrite (filter_keeps_all _ sign), (filter_keeps_all _ digits),
    (filter_keeps_all _ frac); [reflexivity | | |].
  - eapply Forall_impl; [exact Hfrac|]. intros c Hc.
    rewrite bool_decide_false; [reflexivity|]. now apply is_digit_not.
  - eapply Forall_impl; [exact Hdigits|]. intros c Hc.
    rewrite bool_decide_false; [reflexivity|]. now apply is_digit_not.
  - eapply Forall_impl; [exact Hsdot|]. intros c Hc.
    now rewrite bool_decide_false.
Qed.

Lemma comma_to_point_formatted (sign digits frac : chars) :
  Forall (fun c => c <> ","%char) sign ->
  Forall (fun c => is_digit c = true) digits ->
  Forall (fun c => is_digit c = true) frac ->
  comma_to_point (sign ++ digits ++ [","%char] ++ frac)
  = sign ++ digits ++ ["."%char] ++ frac.
Proof.
  intros Hsign Hdigits Hfrac. unfold comma_to_point.
  rewrite !map_app.
  rewrite (map_fixes_all _ sign), (map_fixes_all _ digits), (map_fixes_all _ frac);
    [reflexivity | | |].
  - eapply Forall_impl; [exact Hfrac|]. intros c Hc.
    destruct (decide (c = ","%char)) as [->|]; [discriminate Hc | reflexivity].
  - eapply Forall_impl; [exact Hdigits|]. intros c Hc.
    destruct (decide (c = ","%char)) as [->|]; [discriminate Hc | reflexivity].
  - eapply Forall_impl; [exact Hsign|]. intros c Hc.
    destruct (decide (c = ","%char)); [contradiction | reflexivity].
Qed.

(** Reading back sign, digits, point and two digits. *)
Lemma parse_decimal_formatted (negative : bool) (n f : N) :
  (f < 100)%N ->
  parse_decimal ((if negative then ["-"%char] else []) ++
                 digits_of_N n ++ ["."%char] ++ two_digits f)
  = Ok {| coeff := if negative
                   then - (Z.of_N n * 100 + Z.of_N f)
                   else Z.of_N n * 100 + Z.of_N f;
          scale := 2 |}.
Proof.
  intros Hf.
  destruct (two_digits_spec f Hf) as [_ (v & Hv & Hvf)].
  destruct (digits_of_N_value n) as (u & Hu & Hun).
  pose proof (digits_of_N_digit n) as Hdig.
  pose proof (digits_of_N_nonempty n) as Hne.
  assert (Hsplit : split_point (digits_of_N n ++ ["."%char] ++ two_digits f)
                   = (digits_of_N n, two_digits f)).
  { apply split_point_app. eapply Forall_impl; [exact Hdig|].
    intros c Hc. now apply is_digit_not. }
  assert (Hsign : split_sign ((if negative then ["-"%char] else []) ++
                              digits_of_N n ++ ["."%char] ++ two_digits f)
                  = (negative, digits_of_N n ++ ["."%char] ++ two_digits f)).
  { destruct negative; [reflexivity|].
    destruct (digits_of_N n) as [|c r] eqn:E; [congruence|].
    inversion Hdig; subst. now apply split_sign_digit. }
  unfold parse_decimal. rewrite Hsign. cbv beta iota.
  rewrite Hsplit. cbv beta iota.
  destruct (digits_of_N n) as [|c r] eqn:E; [congruence|].
  rewrite Hu, Hv, Hun, Hvf. reflexivity.
Qed.

Lemma half_up_exact (a d : Z) :
  0 <= a -> 0 < d -> (2 * (a * d) + d) / (2 * d) = a.
Proof. intros Ha Hd. symmetry. apply (Z.div_unique _ _ a d); lia. Qed.

(** The amount in cents behind a decimal with at most two fractional
    digits. *)
Lemma round_half_expand_cents (c : Z) (s : nat) :
  (s <= 2)%nat ->
  round_half_expand (decimal_value {| coeff := c; scale := s |} * 100)
  = c * 10 ^ Z.of_nat (2 - s).
Proof.
  intros Hs. unfold round_half_expand, decimal_value. cbn [coeff scale Qnum Qden Qmult].
  assert (Hcases : s = 0%nat \/ s = 1%nat \/ s = 2%nat) by lia.
  destruct Hcases as [-> | [-> | ->]]; cbn [Z.of_nat Nat.sub].
  - change (Z.pos (Z.to_pos (10 ^ Z.of_nat 0) * 1)) with 1.
    change (10 ^ Z.of_nat 2) with 100.
    replace (Z.abs (c * 100)) with (Z.abs c * 100 * 1) by lia.
    rewrite half_up_exact by lia. lia.
  - change (Z.pos (Z.to_pos (10 ^ Z.of_nat 1) * 1)) with 10.
    change (10 ^ Z.of_nat 1) with 10.
    replace (Z.abs (c * 100)) with (Z.abs c * 10 * 10) by lia.
    rewrite half_up_exact by lia. lia.
  - change (Z.pos (Z.to_pos (10 ^ Z.of_nat 2) * 1)) with 100.
    change (10 ^ Z.of_nat 0) with 1.
    replace (Z.abs (c * 100)) with (Z.abs c * 100) by lia.
    rewrite half_up_exact by lia. lia.
Qed.


(** Equal rationals are formatted alike, whatever fraction holds them. *)
Lemma round_half_expand_comp (x y : Q) :
  (x == y)%Q -> round_half_expand x = round_half_expand y.
Proof.
  destruct x as [n1 d1], y as [n2 d2]. unfold Qeq, round_half_expand.
  cbn [Qnum Qden]. intros H.
  assert (Hs : Z.sgn n1 = Z.sgn n2) by nia.
  assert (Ha : Z.abs n1 * Z.pos d2 = Z.abs n2 * Z.pos d1) by nia.
  rewrite Hs. f_equal.
  set (A := Z.abs n1) in *. set (C := Z.abs n2) in *.
  assert (HA : 0 <= A) by (unfold A; lia).
  assert (HC : 0 <= C) by (unfold C; lia).
  set (q := (2 * A + Z.pos d1) / (2 * Z.pos d1)).
  pose proof (Z.div_mod (2 * A + Z.pos d1) (2 * Z.pos d1) ltac:(lia)) as Hdm.
  pose proof (Z.mod_pos_bound (2 * A + Z.pos d1) (2 * Z.pos d1) ltac:(lia)) as Hmb.
  fold q in Hdm.
  apply (Z.div_unique _ _ q (2 * C + Z.pos d2 - 2 * Z.pos d2 * q)); [|lia].
  left. split; nia.
Qed.

Lemma formatCurrency_comp (g : nat) (x y : Q) :
  (x == y)%Q -> formatCurrency g x = formatCurrency g y.
Proof.
  intros H. unfold formatCurrency, formatCurrency_chars.
  assert (H100 : (x * 100 == y * 100)%Q) by (rewrite H; reflexivity).
  rewrite (round_half_expand_comp _ _ H100).
  assert (Hneg : (Qnum x <? 0) = (Qnum y <? 0)).
  { destruct x as [n1 d1], y as [n2 d2]. unfold Qeq in H. cbn [Qnum Qden] in *.
    destruct (Z.ltb_spec n1 0), (Z.ltb_spec n2 0); try reflexivity; nia. }
  rewrite Hneg. reflexivity.
Qed.





Example formatCurrency_negative :
  formatCurrency 2 (-8950 # 100) = "-89,50" +:+ to_string nbsp +:+ "€".
Proof. reflexivity. Qed.

Example formatCurrency_grouped :
  formatCurrency 2 (123456789 # 100) = "1.234.567,89" +:+ to_string nbsp +:+ "€".
Proof. reflexivity. Qed.

Example formatCurrency_four_digits :
  formatCurrency 2 (123456 # 100) = "1234,56" +:+ to_string nbsp +:+ "€" /\
  formatCurrency 1 (123456 # 100) = "1.234,56" +:+ to_string nbsp +:+ "€".
Proof. split; reflexivity. Qed.

Example formatCurrency_rounds_half_up :
  formatCurrency 2 (5 # 1000) = "0,01" +:+ to_string nbsp +:+ "€".
Proof. reflexivity. Qed.

Example parseLocalizedAmount_plain :
  parseLocalizedAmount "-89,50" = Ok {| coeff := -8950; scale := 2 |}.
Proof. reflexivity. Qed.

Example parseLocalizedAmount_residue :
  parseLocalizedAmount "12a" = Err AmountFormatError.
Proof. reflexivity. Qed.

End FormatFacts.

Module DomFacts.
Import Dom.

Lemma find_all_El (tag tg : string) (attrs : list (string * value)) (cs : list node) :
  find_all tag (El tg attrs cs) =
  (if String.eqb tg tag then [El tg attrs cs] else []) ++ flat_map (find_all tag) cs.
Proof.
  reflexivity.
Qed.

Lemma find_all_Text (tag s : string) : find_all tag (Text s) = [].
Proof. reflexivity. Qed.

Lemma find_all_child (tag : string) (v : value) : find_all tag (child v) = [].
Proof. now destruct v. Qed.

Ltac dom_simpl :=
  repeat (progress (rewrite ?find_all_El, ?find_all_Text, ?find_all_child, ?app_nil_r;
                    cbn [String.eqb Ascii.eqb Bool.eqb app flat_map])).

Lemma append_empty_r (s : string) : s +:+ "" = s.
Proof.
  induction s as [|c s IH]; [reflexivity|].
  change (String c s +:+ "") with (String c (s +:+ "")). now rewrite IH.
Qed.

Lemma text_content_El (tg : string) (attrs : list (string * value)) (cs : list node) :
  text_content (El tg attrs cs) = foldr (fun c acc => text_content c +:+ acc) "" cs.
Proof. reflexivity. Qed.

Lemma text_content_Text (s : string) : text_content (Text s) = s.
Proof. reflexivity. Qed.

Lemma append_empty_l (s : string) : "" +:+ s = s.
Proof. reflexivity. Qed.

Ltac text_simpl :=
  repeat (progress (rewrite ?text_content_El, ?text_content_Text; cbn [foldr]));
  rewrite ?append_empty_r, ?append_empty_l.

Lemma flat_map_nil {A B} (f : A -> list B) (l : list A) :
  (forall x, f x = []) -> flat_map f l = [].
Proof. intros H. induction l as [|x l IH]; [reflexivity|]. cbn. now rewrite H, IH. Qed.

Lemma flat_map_singleton {A B} (f : A -> list B) (g : A -> B) (l : list A) :
  (forall x, f x = [g x]) -> flat_map f l = map g l.
Proof. intros H. induction l as [|x l IH]; [reflexivity|]. cbn. now rewrite H, IH. Qed.

End DomFacts.

Module PreviewFacts.
Import Dom Preview DomFacts.

Lemma find_all_row_none (tag : string) e ov st tx :
  tag = "tbody" \/ tag = "li" \/ tag = "table" ->
  find_all tag (render_row e ov st tx) = [].
Proof.
  intros [-> | [-> | ->]]; unfold render_row;
    destruct (bool_decide (st = Some (temp_id tx)));
    destruct (displayCategory ov tx); reflexivity.
Qed.

Lemma find_all_imap_li (tag : string) (attrs : nat -> list (string * value))
    (l : list string) :
  flat_map (find_all tag) (imap (fun i err => El "li" (attrs i) [Text err]) l) =
  if String.eqb "li" tag
  then imap (fun i err => El "li" (attrs i) [Text err]) l
  else [].
Proof.
  revert attrs. induction l as [|x l IH]; intros attrs.
  - now destruct (String.eqb "li" tag).
  - cbn [imap flat_map]. rewrite find_all_El.
    change (flat_map (find_all tag) [Text x]) with (@nil node).
    rewrite app_nil_r.
    specialize (IH (attrs ∘ S)). unfold compose in *. rewrite IH.
    now destruct (String.eqb "li" tag).
Qed.



Lemma find_all_error_box_none (tag : string) e errs :
  tag = "tbody" \/ tag = "table" ->
  flat_map (find_all tag) (error_box e errs) = [].
Proof.
  intros Htag. unfold error_box. destruct (bool_decide _); [|reflexivity].
  cbn [flat_map]. rewrite !find_all_El. cbn [flat_map].
  rewrite !find_all_El. rewrite find_all_imap_li.
  destruct Htag as [-> | ->]; reflexivity.
Qed.


Lemma find_all_rows_none (tag : string) e ov st txs :
  tag = "tbody" \/ tag = "li" \/ tag = "table" ->
  flat_map (find_all tag) (map (render_row e ov st) txs) = [].
Proof.
  intros Htag. induction txs as [|tx txs IH]; [reflexivity|].
  cbn [map flat_map]. now rewrite find_all_row_none, IH.
Qed.

Lemma find_all_table_head (tag : string) e :
  tag = "tbody" \/ tag = "li" \/ tag = "table" -> find_all tag (table_head e) = [].
Proof. intros [-> | [-> | ->]]; reflexivity. Qed.

Lemma body_rows_PreviewTable e p st :
  body_rows (PreviewTable e p st) =
  map (render_row e (categoryOverrides p) st) (transactions p).
Proof.
  unfold body_rows, PreviewTable. dom_simpl.
  rewrite flat_map_app, find_all_error_box_none by auto. dom_simpl.
  rewrite find_all_table_head, find_all_rows_none by auto.
  cbn [app map children concat]. apply app_nil_r.
Qed.








Lemma render_row_without_tier e ov st m tx :
  render_row e ov st (with_matched_by m tx) = render_row e ov st tx.
Proof. reflexivity. Qed.



Lemma Qle_bool_false_lt (x y : Q) : Qle_bool x y = false -> (y < x)%Q.
Proof.
  intros H. apply Qnot_le_lt. intros Hle.
  apply Qle_bool_iff in Hle. congruence.
Qed.

(** C10.  Every confidence value falls in exactly one of three bands, and
    the band decides both the dot colour and the label: [c >= 0.7] is high
    (emerald), [0.4 <= c < 0.7] is medium (amber), [c < 0.4] is low (rose).
    The three arithmetic conditions exclude one another and the three
    classes are pairwise different, so the band is unique.  A fallback
    assignment, whose confidence is [0.0], is in the low band. *)
Theorem confidence_bands (c : Q) (t : string -> string) :
  (((7 # 10 <= c)%Q /\
     confidenceColor c = "bg-emerald-500" /\
     confidenceLabel c t = t "highConfidence") \/
   ((4 # 10 <= c)%Q /\ (c < 7 # 10)%Q /\
     confidenceColor c = "bg-amber-400" /\
     confidenceLabel c t = t "mediumConfidence") \/
   ((c < 4 # 10)%Q /\
     confidenceColor c = "bg-rose-500" /\
     confidenceLabel c t = t "lowConfidence")) /\
  confidenceColor 0 = "bg-rose-500" /\
  confidenceLabel 0 t = t "lowConfidence".
Proof.
  split; [| split; reflexivity].
  unfold confidenceColor, confidenceLabel.
  destruct (Qle_bool (7 # 10) c) eqn:Hhi.
  - left. apply Qle_bool_iff in Hhi. auto.
  - apply Qle_bool_false_lt in Hhi.
    destruct (Qle_bool (4 # 10) c) eqn:Hmid.
    + right; left. apply Qle_bool_iff in Hmid. auto.
    + right; right. apply Qle_bool_false_lt in Hmid. auto.
Qed.



(** A row whose [temp_id] is the name of a member of [Object.prototype]
    and that has no override does not show its category guess. *)
Example inherited_member_hides_guess :
  displayCategory ∅ (sample_parsed "constructor" "ENEL ENERGIA" (-8950 # 100)) =
  Inherited "constructor".
Proof. reflexivity. Qed.

End PreviewFacts.

Module UploadFacts.
Import Text Upload.

(** The filter built from the [accept] table recognises the two formats,
    and the type [application/x-moz-file] besides. *)
Lemma fileAccepted_formats (f : File) :
  fileAccepted f = is_moz_file f || (is_csv f || is_pdf f).
Proof.
  unfold fileAccepted, accepts, is_csv, is_pdf, is_moz_file.
  cbn [acceptPropAsAcceptAttr accept flat_map app existsb].
  rewrite orb_false_r, <- !orb_assoc. reflexivity.
Qed.

Lemma onDrop_cases (accepted : list File) :
  onDrop accepted = match accepted with [] => [] | f :: _ => [f] end.
Proof. destruct accepted; reflexivity. Qed.

Section FileSelector.
Variable COMMON_MIME_TYPES : string -> option string.
Local Abbreviation withMimeType := (Upload.withMimeType COMMON_MIME_TYPES).
Local Abbreviation fromEvent := (Upload.fromEvent COMMON_MIME_TYPES).
Local Abbreviation onFileSelect_calls := (Upload.onFileSelect_calls COMMON_MIME_TYPES).

Lemma withMimeType_cases (f : File) :
  withMimeType f = f \/
  (type f = "" /\ exists ty, ty <> "" /\
     withMimeType f = {| name := name f; type := ty; size := size f |}).
Proof.
  unfold Upload.withMimeType.
  destruct (extension (name f)) as [ext|]; [|now left].
  destruct (bool_decide_reflect (type f = "")) as [Hty|]; [|now left].
  destruct (COMMON_MIME_TYPES ext) as [ty|]; [|now left].
  destruct (bool_decide_reflect (ty = "")); [now left|].
  right. eauto.
Qed.

Lemma withMimeType_name (f : File) : name (withMimeType f) = name f.
Proof.
  destruct (withMimeType_cases f) as [-> | (_ & ty & _ & ->)]; reflexivity.
Qed.

Lemma withMimeType_size (f : File) : size (withMimeType f) = size f.
Proof.
  destruct (withMimeType_cases f) as [-> | (_ & ty & _ & ->)]; reflexivity.
Qed.

Lemma withMimeType_typed (f : File) : type f <> "" -> withMimeType f = f.
Proof.
  intros H. destruct (withMimeType_cases f) as [-> | (Hty & _)];
    [reflexivity | contradiction].
Qed.

Lemma fromEvent_In (g : Gesture) (files : list File) (f : File) :
  In f (fromEvent g files) -> exists f0, In f0 files /\ f = withMimeType f0.
Proof.
  intros H.
  assert (Hm : In f (map withMimeType files)).
  { destruct g; [|exact H]. unfold Upload.fromEvent, noIgnoredFiles in H.
    apply filter_In in H. tauto. }
  apply in_map_iff in Hm as (f0 & <- & Hin). eauto.
Qed.

Lemma fromEvent_single (g : Gesture) (f : File) :
  (g = dropped -> name f ∉ FILES_TO_IGNORE) ->
  fromEvent g [f] = [withMimeType f].
Proof.
  intros H. destruct g; [|reflexivity].
  unfold Upload.fromEvent, noIgnoredFiles. cbn [map List.filter].
  rewrite withMimeType_name, bool_decide_false by auto. reflexivity.
Qed.

Lemma calls_cases (g : Gesture) (files : list File) :
  onFileSelect_calls g files =
  match List.filter passes (fromEvent g files) with
  | [f] => [f]
  | _ => []
  end.
Proof.
  unfold Upload.onFileSelect_calls, dropzone_filter. fold passes.
  cbn [multiple negb andb].
  destruct (List.filter passes (fromEvent g files)) as [|f [|h rest]] eqn:E;
    reflexivity.
Qed.

Lemma calls_passed (g : Gesture) (files : list File) (f : File) :
  In f (onFileSelect_calls g files) ->
  In f (fromEvent g files) /\ passes f = true.
Proof.
  rewrite calls_cases.
  destruct (List.filter passes (fromEvent g files)) as [|h [|h' rest]] eqn:E;
    cbn; try tauto.
  intros [<- | []]. apply filter_In. rewrite E. now left.
Qed.

Lemma calls_at_most_one (g : Gesture) (files : list File) :
  (length (onFileSelect_calls g files) <= 1)%nat.
Proof.
  rewrite calls_cases.
  destruct (List.filter passes (fromEvent g files)) as [|h [|h' rest]]; cbn; lia.
Qed.

Lemma calls_single (g : Gesture) (f : File) :
  (g = dropped -> name f ∉ FILES_TO_IGNORE) ->
  onFileSelect_calls g [f] =
  if passes (withMimeType f) then [withMimeType f] else [].
Proof.
  intros H. rewrite calls_cases, (fromEvent_single g f H). cbn.
  now destruct (passes (withMimeType f)).
Qed.

End FileSelector.

Lemma fileMatchSize_spec (f : File) :
  fileMatchSize f = true <-> (size f <= maxSize)%N.
Proof.
  unfold fileMatchSize. rewrite negb_true_iff, N.ltb_ge. reflexivity.
Qed.

(** C5, as the code has it.  The filter is made of the four entries of the
    two formats, CSV ([text/csv], [.csv]) and PDF ([application/pdf],
    [.pdf]), and of the type [application/x-moz-file], which the drop zone
    lets through whatever the name.  A file is judged with the type
    file-selector leaves it with: its own, or, when it has none, the type
    of its extension.  A file that is none of the three is never handed to
    [onFileSelect], whatever else is dropped with it, and whatever is
    handed to [onFileSelect] is one of the dropped or selected files so
    typed; a file that is one of the three and fits the size limit is
    handed to [onFileSelect] when it is selected, and when it is dropped
    unless its name is on the ignore list of file-selector. *)
Theorem upload_accepts_csv_pdf_and_moz_file
    (COMMON_MIME_TYPES : string -> option string) (f : File) :
  acceptPropAsAcceptAttr accept = ["text/csv"; ".csv"; "application/pdf"; ".pdf"] /\
  (is_moz_file f || (is_csv f || is_pdf f) = false ->
   forall g files, ~ In f (onFileSelect_calls COMMON_MIME_TYPES g files)) /\
  (forall g files,
     In f (onFileSelect_calls COMMON_MIME_TYPES g files) ->
     exists f0, In f0 files /\ f = withMimeType COMMON_MIME_TYPES f0) /\
  (name (withMimeType COMMON_MIME_TYPES f) = name f /\
   size (withMimeType COMMON_MIME_TYPES f) = size f /\
   (type f <> "" -> withMimeType COMMON_MIME_TYPES f = f) /\
   (forall ext ty,
      type f = "" -> extension (name f) = Some ext ->
      COMMON_MIME_TYPES ext = Some ty -> ty <> "" ->
      type (withMimeType COMMON_MIME_TYPES f) = ty)) /\
  (let typed := withMimeType COMMON_MIME_TYPES f in
   is_moz_file typed || (is_csv typed || is_pdf typed) = true ->
   (size f <= maxSize)%N ->
   onFileSelect_calls COMMON_MIME_TYPES picked [f] = [typed] /\
   (name f ∉ FILES_TO_IGNORE ->
    onFileSelect_calls COMMON_MIME_TYPES dropped [f] = [typed])).
Proof.
  split; [reflexivity|]. split; [|split; [|split]].
  - intros Hother g files Hin. apply calls_passed in Hin as [_ Hp].
    unfold passes in Hp. rewrite fileAccepted_formats, Hother in Hp. discriminate.
  - intros g files Hin. apply calls_passed in Hin as [Hin _].
    eapply fromEvent_In; exact Hin.
  - split; [apply withMimeType_name|].
    split; [apply withMimeType_size|]. split; [apply withMimeType_typed|].
    intros ext ty Hty Hext Hget Hne. unfold withMimeType.
    rewrite Hext, Hget, bool_decide_true, bool_decide_false by assumption.
    reflexivity.
  - cbv zeta. intros Hfmt Hsize.
    assert (Hp : passes (withMimeType COMMON_MIME_TYPES f) = true).
    { unfold passes. rewrite fileAccepted_formats, Hfmt.
      apply fileMatchSize_spec. now rewrite withMimeType_size. }
    split; [|intros Hname]; rewrite calls_single, Hp; auto; discriminate.
Qed.

Lemma upload_accepts_csv_pdf_and_moz_file_witness :
  ~ In photo (onFileSelect_calls sample_mime_types dropped [statement; photo]) /\
  onFileSelect_calls sample_mime_types picked [untyped_statement] =
    [{| name := "Estratto.CSV"; type := "text/csv"; size := 2048 |}].
Proof.
  split.
  - apply (proj1 (proj2 (upload_accepts_csv_pdf_and_moz_file sample_mime_types photo))).
    reflexivity.
  - refine (proj1 (proj2 (proj2 (proj2 (proj2
             (upload_accepts_csv_pdf_and_moz_file sample_mime_types untyped_statement))))
             _ _)).
    + reflexivity.
    + vm_compute. discriminate.
Defined.

(** C5 as stated fails: a photo that Firefox hands over with the type
    [application/x-moz-file] is neither a CSV nor a PDF file, by type and
    by name, and is handed to [onFileSelect]. *)
Lemma upload_accepts_moz_file :
  is_csv moz_photo || is_pdf moz_photo = false /\
  onFileSelect_calls sample_mime_types dropped [moz_photo] = [moz_photo].
Proof. split; reflexivity. Qed.

(** C9.  The limit is 10 MiB and one file: a drop or selection leads to at
    most one call of [onFileSelect]; a file it is called with is at most
    [10 * 1024 * 1024] bytes large, so a file strictly larger is never
    selected, with the type it came with or with the type of its
    extension; and a drop with more than one acceptable file selects
    nothing. *)
Theorem upload_one_file_of_at_most_10MiB
    (COMMON_MIME_TYPES : string -> option string) (g : Gesture) (files : list File) :
  maxSize = (10 * 1024 * 1024)%N /\
  (length (onFileSelect_calls COMMON_MIME_TYPES g files) <= 1)%nat /\
  (forall f, In f (onFileSelect_calls COMMON_MIME_TYPES g files) ->
     (size f <= maxSize)%N) /\
  (forall f, In f files -> (maxSize < size f)%N ->
     ~ In f (onFileSelect_calls COMMON_MIME_TYPES g files) /\
     ~ In (withMimeType COMMON_MIME_TYPES f)
          (onFileSelect_calls COMMON_MIME_TYPES g files)) /\
  ((1 < length (List.filter passes (fromEvent COMMON_MIME_TYPES g files)))%nat ->
   onFileSelect_calls COMMON_MIME_TYPES g files = []).
Proof.
  assert (Hsize : forall f, In f (onFileSelect_calls COMMON_MIME_TYPES g files) ->
                    (size f <= maxSize)%N).
  { intros f Hin. apply calls_passed in Hin as [_ Hp].
    unfold passes in Hp. apply andb_true_iff in Hp as [_ Hs].
    now apply fileMatchSize_spec. }
  split; [reflexivity|]. split; [apply calls_at_most_one|]. split; [exact Hsize|].
  split.
  - intros f _ Hbig. split; intros Hin; apply Hsize in Hin;
      rewrite ?withMimeType_size in Hin; lia.
  - intros Hmany. rewrite calls_cases.
    destruct (List.filter passes (fromEvent COMMON_MIME_TYPES g files))
      as [|h [|h' rest]]; cbn in Hmany; try lia.
    reflexivity.
Qed.

End UploadFacts.

Module ArraysFacts.
Import Arrays.

Section Sort.
Context {A : Type} (cmp : A -> A -> Z).

Lemma sort_insert_perm (x : A) (l : list A) :
  Permutation (x :: l) (sort_insert cmp x l).
Proof.
  induction l as [|y l IH]; cbn [sort_insert]; [reflexivity|].
  destruct (cmp x y <=? 0); [reflexivity|].
  rewrite perm_swap. now constructor.
Qed.

Lemma array_sort_perm (l : list A) : Permutation l (array_sort cmp l).
Proof.
  induction l as [|x l IH]; cbn; [reflexivity|].
  rewrite <- sort_insert_perm. now constructor.
Qed.

(** Sorting by a key, largest first: [cmp a b] has the sign of
    [key b - key a]. *)
Context (key : A -> Z).
Hypothesis cmp_key : forall a b, cmp a b = key b - key a.

Lemma sort_insert_sorted (x : A) (l : list A) :
  StronglySorted (key_desc key) l -> StronglySorted (key_desc key) (sort_insert cmp x l).
Proof.
  induction 1 as [|y l Hsorted IH Hall]; cbn [sort_insert].
  - repeat constructor.
  - rewrite cmp_key. destruct (Z.leb_spec (key y - key x) 0) as [Hle|Hgt].
    + constructor; [now constructor|].
      constructor; [unfold key_desc; lia|].
      eapply Forall_impl; [exact Hall|]. unfold key_desc. intros b Hb. lia.
    + constructor; [exact IH|].
      eapply Permutation_Forall; [apply sort_insert_perm|].
      constructor; [unfold key_desc; lia | exact Hall].
Qed.

Lemma array_sort_sorted (l : list A) : StronglySorted (key_desc key) (array_sort cmp l).
Proof.
  induction l as [|x l IH]; cbn; [constructor|]. now apply sort_insert_sorted.
Qed.

End Sort.

Lemma StronglySorted_lookup {A} (R : A -> A -> Prop) (l : list A) :
  StronglySorted R l ->
  forall i j a b, (i < j)%nat -> l !! i = Some a -> l !! j = Some b -> R a b.
Proof.
  induction 1 as [|x l Hsorted IH Hall]; intros i j a b Hij Hi Hj.
  - discriminate.
  - destruct j as [|j]; [lia|]. cbn in Hj.
    destruct i as [|i]; cbn in Hi.
    + injection Hi as ->. rewrite List.Forall_forall in Hall. apply Hall.
      apply list_elem_of_In. eapply list_elem_of_lookup_2. exact Hj.
    + apply (IH i j); [lia | assumption | assumption].
Qed.

End ArraysFacts.

Module RulesFacts.
Import Rules ArraysFacts.

(** C8.  The rules list shows the rules by non-increasing priority: the
    rendered rows are the rules themselves (a permutation), and whenever a
    rule stands before another in the rendered list, its priority is at
    least the other's. *)
Theorem rules_list_priority_order (rules : list CategorizationRule) :
  Permutation rules (rendered_rules rules) /\
  StronglySorted (fun a b => priority a >= priority b) (rendered_rules rules) /\
  forall i j a b, (i < j)%nat ->
    rendered_rules rules !! i = Some a ->
    rendered_rules rules !! j = Some b ->
    priority a >= priority b.
Proof.
  assert (Hsorted : StronglySorted (fun a b => priority a >= priority b)
                      (rendered_rules rules)).
  { apply (array_sort_sorted by_priority_desc priority). reflexivity. }
  split; [apply array_sort_perm|]. split; [exact Hsorted|].
  now apply StronglySorted_lookup.
Qed.

Lemma initial_state_known (p : RuleFormProps) :
  (forall r, rule p = Some r -> (fun mt => mt ∈ MATCH_TYPES) (matchType r)) ->
  (fun mt => mt ∈ MATCH_TYPES) (st_matchType (initial_state p)).
Proof.
  intros H. unfold initial_state. cbn [st_matchType].
  destruct (rule p) as [r|]; cbn.
  - now apply H.
  - unfold MATCH_TYPES. set_solver.
Qed.

Lemma form_step_known (p : RuleFormProps) (st : FormState) (ev : FormEvent) :
  (fun mt => mt ∈ MATCH_TYPES) (st_matchType st) ->
  (fun mt => mt ∈ MATCH_TYPES) (st_matchType (fst (form_step p st ev))) /\
  forall r, onSave r ∈ snd (form_step p st ev) -> matchType r = st_matchType st.
Proof.
  intros Hst. destruct ev as [v | i | i | v | now |]; cbn [form_step].
  - split; [exact Hst | cbn; intros r Hr; inversion Hr].
  - destruct (matchType_options !! i) as [v|] eqn:E; cbn.
    + split; [| intros r Hr; inversion Hr].
      eapply list_elem_of_lookup_2. exact E.
    + split; [exact Hst | intros r Hr; inversion Hr].
  - destruct (category_options p !! i) as [v|]; cbn;
      (split; [exact Hst | intros r Hr; inversion Hr]).
  - split; [exact Hst | cbn; intros r Hr; inversion Hr].
  - split; [exact Hst|]. cbn [snd]. unfold handleSubmit.
    destruct (_ || _); intros r Hr.
    + inversion Hr.
    + apply list_elem_of_singleton in Hr. injection Hr as ->. reflexivity.
  - split; [exact Hst|]. cbn. intros r Hr.
    apply list_elem_of_singleton in Hr. discriminate.
Qed.

Lemma form_run_known (p : RuleFormProps) (evs : list FormEvent) (st : FormState) :
  (fun mt => mt ∈ MATCH_TYPES) (st_matchType st) ->
  forall r, onSave r ∈ snd (form_run p st evs) -> (fun mt => mt ∈ MATCH_TYPES) (matchType r).
Proof.
  revert st. induction evs as [|ev evs IH]; intros st Hst r Hr.
  - cbn in Hr. inversion Hr.
  - cbn [form_run] in Hr.
    destruct (form_step_known p st ev Hst) as [Hnext Hout].
    destruct (form_step p st ev) as [st1 out1].
    specialize (IH st1 Hnext r).
    destruct (form_run p st1 evs) as [st2 out2].
    cbn [fst snd] in *. apply elem_of_app in Hr as [Hr | Hr].
    + rewrite (Hout r Hr). exact Hst.
    + now apply IH.
Qed.

(** C6.  The match types are exactly [contains], [exact], [regex] and
    [starts_with]: the form offers these four as the options of its
    select, the label and colour tables have exactly these keys, and every
    rule the form saves carries one of them, provided the rule opened for
    editing (if any) does. *)
Theorem rule_form_match_types (p : RuleFormProps) (evs : list FormEvent) :
  (forall r, rule p = Some r -> matchType r ∈ MATCH_TYPES) ->
  MATCH_TYPES = ["contains"; "exact"; "regex"; "starts_with"] /\
  matchType_options = MATCH_TYPES /\
  dom MATCH_KEYS = list_to_set MATCH_TYPES /\
  dom MATCH_TYPE_KEYS = list_to_set MATCH_TYPES /\
  dom MATCH_TYPE_COLORS = list_to_set MATCH_TYPES /\
  forall r, r ∈ saved_rules p evs -> matchType r ∈ MATCH_TYPES.
Proof.
  intros Hrule. do 2 (split; [reflexivity|]).
  do 3 (split; [vm_compute; reflexivity|]).
  intros r Hr. unfold saved_rules in Hr.
  apply list_elem_of_omap in Hr as (c & Hc & Hsome).
  destruct c as [r'|]; [|discriminate]. injection Hsome as ->.
  eapply form_run_known; [|exact Hc]. now apply initial_state_known.
Qed.

Lemma rule_form_match_types_witness :
  MATCH_TYPES = ["contains"; "exact"; "regex"; "starts_with"] /\
  matchType_options = MATCH_TYPES /\
  dom MATCH_KEYS = list_to_set MATCH_TYPES /\
  dom MATCH_TYPE_KEYS = list_to_set MATCH_TYPES /\
  dom MATCH_TYPE_COLORS = list_to_set MATCH_TYPES /\
  forall r, r ∈ saved_rules sample_form sample_session -> matchType r ∈ MATCH_TYPES.
Proof.
  apply (rule_form_match_types sample_form sample_session).
  intros r Hr. injection Hr as <-. cbn. unfold MATCH_TYPES.
  apply list_elem_of_In. cbn. tauto.
Defined.

Example sample_session_saves :
  saved_rules sample_form sample_session =
  [{| id := "rule-1"; pattern := "esselunga"; matchType := "starts_with";
      categoryId := "alimentari"; categoryName := "Alimentari"; priority := 10 |}].
Proof. reflexivity. Qed.

End RulesFacts.

Module EngineFacts.
Import Text Engine ArraysFacts.

Section Cascade.
Context `{D : Dictionaries}.

Lemma user_rules_In (rules : list CategorizationRule) (r : CategorizationRule) :
  In r (user_rules rules) <-> In r rules /\ scope r = user_owned.
Proof.
  unfold user_rules. split.
  - intros Hin.
    eapply Permutation_in in Hin; [|symmetry; apply array_sort_perm].
    apply filter_In in Hin as [Hin Hs]. split; [exact Hin|].
    now destruct (scope r).
  - intros [Hin Hs].
    eapply Permutation_in; [apply array_sort_perm|].
    apply filter_In. split; [exact Hin|]. now rewrite Hs.
Qed.

Lemma guarded_true (test : result EngineError bool) :
  guarded test = true <-> test = Ok true.
Proof.
  destruct test as [[]|e]; cbn; split; congruence.
Qed.

Lemma user_tier_none (tx : RawTransaction) (rules : list CategorizationRule) :
  ~ user_rule_matches tx rules -> user_tier tx rules = Ok None.
Proof.
  intros Hno. unfold user_tier.
  destruct (List.find _ (user_rules rules)) as [r|] eqn:E; [|reflexivity].
  exfalso. apply Hno. apply find_some in E as [Hin Hg].
  apply user_rules_In in Hin as [Hin Hs]. apply guarded_true in Hg.
  now exists r.
Qed.

Lemma user_tier_some (tx : RawTransaction) (rules : list CategorizationRule) :
  user_rule_matches tx rules ->
  exists a, user_tier tx rules = Ok (Some a) /\
            matched_by a = user_rule /\ confidence a = 1%Q.
Proof.
  intros (r & Hin & Hs & Hm). unfold user_tier.
  destruct (List.find _ (user_rules rules)) as [r'|] eqn:E.
  - eexists. split; [reflexivity|]. split; reflexivity.
  - exfalso. eapply find_none in E; [| apply user_rules_In; split; eassumption].
    cbn beta in E. rewrite Hm in E. discriminate.
Qed.

Lemma keyword_tier_none (tx : RawTransaction) :
  ~ keyword_matches tx -> keyword_tier tx = Ok None.
Proof.
  intros Hno. unfold keyword_tier.
  destruct (List.find _ keyword_dictionary) as [entry|] eqn:E; [|reflexivity].
  exfalso. apply Hno. apply find_some in E as [Hin Hhit]. now exists entry.
Qed.

Lemma pattern_tier_none (tx : RawTransaction) :
  ~ pattern_matches tx -> pattern_tier tx = Ok None.
Proof.
  intros Hno. unfold pattern_tier.
  destruct (List.find _ pattern_dictionary) as [entry|] eqn:E; [|reflexivity].
  exfalso. apply Hno. apply find_some in E as [Hin Hhit].
  apply guarded_true in Hhit. now exists entry.
Qed.

(** C1.  Categorization is total: for every transaction and every list of
    rules, the empty list included, [categorize] returns an assignment and
    raises nothing, whatever the regular expression engine raises at match
    time; and when no user rule, no keyword and no pattern matches, the
    assignment has [matched_by = fallback] and confidence [0]. *)
Theorem categorize_total (tx : RawTransaction) (rules : list CategorizationRule) :
  (exists a, categorize tx rules = Ok a) /\
  (~ user_rule_matches tx rules -> ~ keyword_matches tx -> ~ pattern_matches tx ->
   exists a, categorize tx rules = Ok a /\
             matched_by a = fallback /\ confidence a = 0%Q).
Proof.
  split.
  - unfold categorize, user_tier, keyword_tier, pattern_tier, or_else.
    destruct (List.find _ (user_rules rules)); cbn; [eauto|].
    destruct (List.find _ keyword_dictionary); cbn; [eauto|].
    destruct (List.find _ pattern_dictionary); cbn; eauto.
  - intros Hu Hk Hp. exists fallback_assignment. split; [|split; reflexivity].
    unfold categorize.
    now rewrite user_tier_none, keyword_tier_none, pattern_tier_none.
Qed.

(** C2.  User rules come first: when the description matches a user-owned
    rule and also an entry of the keyword dictionary, the assignment has
    [matched_by = user_rule] and confidence [1]. *)
Theorem user_rule_precedence (tx : RawTransaction) (rules : list CategorizationRule) :
  user_rule_matches tx rules -> keyword_matches tx ->
  exists a, categorize tx rules = Ok a /\
            matched_by a = user_rule /\ confidence a = 1%Q.
Proof.
  intros Hu _. destruct (user_tier_some tx rules Hu) as (a & Ha & Hby & Hc).
  exists a. split; [|split; assumption].
  unfold categorize. now rewrite Ha.
Qed.

End Cascade.

(** Scenario 2 of the spec: no rule, a bank code in the description. *)
Example pattern_tier_scenario :
  categorize (sample_transaction "ADDEBITO SDD ENEL ENERGIA") []
  = Ok {| category_id := "utenze"; confidence := 5 # 10; matched_by := pattern |}.
Proof. reflexivity. Qed.

(** A user rule whose regular expression throws is skipped. *)
Example broken_rule_skipped :
  rule_matches broken_rule "PAGAMENTO NETFLIX.COM" = Err InvalidRegexError /\
  categorize (sample_transaction "PAGAMENTO NETFLIX.COM") [broken_rule]
  = Ok {| category_id := "abbonamenti"; confidence := 7 # 10; matched_by := keyword |}.
Proof. split; reflexivity. Qed.

Lemma categorize_total_witness :
  exists a, categorize (sample_transaction "GIROCONTO") [broken_rule; netflix_rule] = Ok a /\
            matched_by a = fallback /\ confidence a = 0%Q.
Proof.
  apply (proj2 (categorize_total (sample_transaction "GIROCONTO")
                  [broken_rule; netflix_rule])).
  - intros (r & Hin & _ & Hm).
    destruct Hin as [<- | [<- | []]]; vm_compute in Hm; discriminate.
  - intros (entry & Hin & Hhit).
    destruct Hin as [<- | [<- | [<- | []]]]; vm_compute in Hhit; discriminate.
  - intros (entry & Hin & Hhit).
    destruct Hin as [<- | [<- | [<- | []]]]; vm_compute in Hhit; discriminate.
Defined.

Lemma user_rule_precedence_witness :
  exists a, categorize (sample_transaction "PAGAMENTO NETFLIX.COM")
              [broken_rule; netflix_rule] = Ok a /\
            matched_by a = user_rule /\ confidence a = 1%Q.
Proof.
  apply (user_rule_precedence (sample_transaction "PAGAMENTO NETFLIX.COM")
           [broken_rule; netflix_rule]).
  - exists netflix_rule. split; [right; left; reflexivity|]. split; reflexivity.
  - exists ("netflix", "abbonamenti"). split; [right; right; left; reflexivity|].
    reflexivity.
Defined.

End EngineFacts.

Module ParserFacts.
Import Text Normalization Parser.

Section Parse.
Context `{P : SourceParser}.

(** What the row loop adds to its state. *)
Lemma parse_rows_counts (header : chars) (rows : list chars) (acc : Acc) :
  let acc' := foldl (parse_row header) acc rows in
  acc_parsed acc' = (acc_parsed acc + count_valid header rows)%nat /\
  length (acc_transactions acc') =
    (length (acc_transactions acc) + count_valid header rows)%nat /\
  length (acc_errors acc') =
    (length (acc_errors acc) + count_malformed header rows)%nat /\
  acc_rows acc' = (acc_rows acc + length rows)%nat.
Proof.
  revert acc. induction rows as [|row rows IH]; intros acc.
  - cbn. unfold count_valid, count_malformed. cbn. lia.
  - cbn [foldl]. specialize (IH (parse_row header acc row)).
    cbv zeta in IH. destruct IH as (Hp & Ht & He & Hr).
    rewrite Hp, Ht, He, Hr. clear Hp Ht He Hr.
    unfold count_valid, count_malformed, parse_row, is_valid, is_malformed.
    cbn [List.filter length].
    destruct (row_status header row);
      cbn [acc_parsed acc_transactions acc_errors acc_rows length];
      rewrite ?length_app; cbn [length]; lia.
Qed.

Lemma count_valid_malformed (header : chars) (rows : list chars) :
  (count_valid header rows + count_malformed header rows <= length rows)%nat.
Proof.
  unfold count_valid, count_malformed, is_valid, is_malformed.
  induction rows as [|row rows IH]; cbn [List.filter length]; [lia|].
  destruct (row_status header row); cbn [length]; lia.
Qed.

(** C3.  Partial failure is contained: a result of [parse] has
    [parsed_count] equal to the number of its transactions (and
    [parsed_count] plus the number of errors within [row_count]); and a
    CSV text with a header and [N] data rows, exactly one of them malformed
    and the [N - 1] others valid, is parsed without an error of the file
    into a result with [parsed_count = N - 1] and one entry in [errors]. *)
Theorem partial_failure_containment (filename content : string) :
  (forall r, parse filename content = Ok r ->
     parsed_count r = length (transactions r) /\
     (parsed_count r + length (errors r) <= row_count r)%nat) /\
  (forall header rows,
     lines (of_string content) = header :: rows ->
     is_blank_row header = false ->
     count_malformed header rows = 1%nat ->
     count_valid header rows = (length rows - 1)%nat ->
     exists r, parse filename content = Ok r /\
               parsed_count r = (length rows - 1)%nat /\
               length (errors r) = 1%nat /\
               parsed_count r = length (transactions r)).
Proof.
  split.
  - intros r Hr. unfold parse in Hr.
    destruct (lines (of_string content)) as [|header rows]; [discriminate|].
    destruct (is_blank_row header); [discriminate|].
    injection Hr as <-. cbn [parsed_count transactions errors row_count].
    destruct (parse_rows_counts header rows empty_acc) as (Hp & Ht & He & Hrows).
    rewrite Hp, Ht, He, Hrows. cbn.
    pose proof (count_valid_malformed header rows). lia.
  - intros header rows Hlines Hheader Hbad Hgood. unfold parse.
    rewrite Hlines, Hheader. eexists. split; [reflexivity|].
    cbn [parsed_count transactions errors].
    destruct (parse_rows_counts header rows empty_acc) as (Hp & Ht & He & _).
    rewrite Hp, Ht, He, Hbad, Hgood. cbn. lia.
Qed.

End Parse.

(** Scenario 1 of the spec: one row of a bank statement. *)
Example bank_row_scenario :
  row_status (of_string "Data;Importo;Descrizione")
             (of_string "25/02/2025;-89,50;ADDEBITO SDD ENEL ENERGIA")
  = Valid {| Engine.date := {| year := 2025; month := 2; day := 25 |};
             Engine.amount := {| coeff := -8950; scale := 2 |};
             Engine.currency := "EUR";
             Engine.description := "ADDEBITO SDD ENEL ENERGIA";
             Engine.original_description := "ADDEBITO SDD ENEL ENERGIA";
             Engine.type := Engine.expense;
             Engine.metadata := ∅ |}.
Proof. reflexivity. Qed.

(** Scenario 3 of the spec: a header and no data row. *)
Example header_only_scenario :
  parse "vuoto.csv" ("Data;Importo;Descrizione" +:+ newline)
  = Ok {| transactions := []; source_type := bank_csv; row_count := 0;
          parsed_count := 0; errors := [] |}.
Proof. reflexivity. Qed.

Example sample_csv_errors :
  exists r, parse "estratto.csv" sample_csv = Ok r /\
            row_count r = 3%nat /\
            errors r = ["Row 2: DateFormatError: 31/02/2025;12,00;DATA IMPOSSIBILE"].
Proof. eexists. split; [reflexivity|]. split; reflexivity. Qed.

Lemma partial_failure_containment_witness :
  exists r, parse "estratto.csv" sample_csv = Ok r /\
            parsed_count r = 2%nat /\ length (errors r) = 1%nat /\
            parsed_count r = length (transactions r).
Proof.
  apply (proj2 (partial_failure_containment "estratto.csv" sample_csv)
           (of_string "Data;Importo;Descrizione")
           [of_string "25/02/2025;-89,50;ADDEBITO SDD ENEL ENERGIA";
            of_string "31/02/2025;12,00;DATA IMPOSSIBILE";
            of_string "27/02/2025;2.850,00;BONIFICO STIPENDIO MARZO"]);
    vm_compute; reflexivity.
Defined.

End ParserFacts.

Module SortFacts.
Import Arrays ArraysFacts.

Section Sort.
Context {A : Type} (cmp : A -> A -> Z) (key : A -> Z).
Hypothesis cmp_key : forall a b, cmp a b = key b - key a.

(** An element that is not below the head of a list goes in front. *)
Lemma sort_insert_front (x : A) (l : list A) :
  match l with
  | [] => True
  | y :: _ => key y <= key x
  end ->
  sort_insert cmp x l = x :: l.
Proof.
  destruct l as [|y l]; [reflexivity|]. intros Hy. cbn [sort_insert].
  rewrite cmp_key. destruct (Z.leb_spec (key y - key x) 0); [reflexivity | lia].
Qed.

(** A list that is already in order is left as it is. *)
Lemma array_sort_sorted_id (l : list A) :
  StronglySorted (key_desc key) l -> array_sort cmp l = l.
Proof.
  induction 1 as [|x l Hsorted IH Hall]; [reflexivity|].
  cbn [array_sort foldr]. fold (array_sort cmp l). rewrite IH.
  apply sort_insert_front. destruct l as [|y l]; [exact I|].
  inversion Hall as [|? ? Hy _]; subst. unfold key_desc in Hy. lia.
Qed.

Lemma array_sort_idempotent (l : list A) :
  array_sort cmp (array_sort cmp l) = array_sort cmp l.
Proof. apply array_sort_sorted_id. now apply array_sort_sorted. Qed.

(** Insertion passes only elements of a strictly larger key, so it keeps
    the order among the elements of any one key. *)
Lemma sort_insert_filter_key (k : Z) (x : A) (l : list A) :
  List.filter (fun a => key a =? k) (sort_insert cmp x l) =
  if key x =? k then x :: List.filter (fun a => key a =? k) l
  else List.filter (fun a => key a =? k) l.
Proof.
  induction l as [|y l IH]; cbn [sort_insert List.filter].
  - reflexivity.
  - rewrite cmp_key. destruct (Z.leb_spec (key y - key x) 0) as [Hle|Hgt].
    + cbn [List.filter]. reflexivity.
    + cbn [List.filter]. rewrite IH.
      destruct (Z.eqb_spec (key x) k) as [Hx|Hx]; [|reflexivity].
      destruct (Z.eqb_spec (key y) k) as [Hy|Hy]; [lia | reflexivity].
Qed.

Lemma array_sort_stable (k : Z) (l : list A) :
  List.filter (fun a => key a =? k) (array_sort cmp l) =
  List.filter (fun a => key a =? k) l.
Proof.
  induction l as [|x l IH]; [reflexivity|].
  cbn [array_sort foldr]. fold (array_sort cmp l).
  rewrite sort_insert_filter_key, IH. cbn [List.filter].
  now destruct (key x =? k).
Qed.

(** Filtering commutes with insertion into a list that is in order. *)
Lemma sort_insert_filter (P : A -> bool) (x : A) (l : list A) :
  StronglySorted (key_desc key) l ->
  List.filter P (sort_insert cmp x l) =
  if P x then sort_insert cmp x (List.filter P l) else List.filter P l.
Proof.
  induction 1 as [|y l Hsorted IH Hall]; cbn [sort_insert List.filter].
  - now destruct (P x).
  - rewrite cmp_key. destruct (Z.leb_spec (key y - key x) 0) as [Hle|Hgt].
    + cbn [List.filter]. destruct (P x); [|reflexivity].
      symmetry. apply sort_insert_front.
      destruct (P y); [lia|].
      destruct (List.filter P l) as [|z rest] eqn:E; [exact I|].
      assert (Hz : In z (List.filter P l)) by (rewrite E; now left).
      apply filter_In in Hz as [Hz _].
      rewrite List.Forall_forall in Hall. specialize (Hall z Hz).
      unfold key_desc in Hall. lia.
    + cbn [List.filter]. rewrite IH.
      destruct (P y), (P x); try reflexivity.
      cbn [sort_insert]. rewrite cmp_key.
      destruct (Z.leb_spec (key y - key x) 0); [lia | reflexivity].
Qed.

(** Where an element appended to the input ends up. *)
Lemma array_sort_snoc (l : list A) (s : A) :
  array_sort cmp (l ++ [s]) =
  List.filter (fun a => key s <=? key a) (array_sort cmp l) ++
  s :: List.filter (fun a => negb (key s <=? key a)) (array_sort cmp l).
Proof.
  induction l as [|x l IH].
  - reflexivity.
  - cbn [app array_sort foldr]. fold (array_sort cmp (l ++ [s])).
    fold (array_sort cmp l). rewrite IH.
    pose proof (array_sort_sorted cmp key cmp_key l) as Hsorted.
    rewrite !(sort_insert_filter _ x _ Hsorted).
    set (hi := List.filter (fun a => key s <=? key a) (array_sort cmp l)).
    set (lo := List.filter (fun a => negb (key s <=? key a)) (array_sort cmp l)).
    assert (Hhi : Forall (fun a => key s <= key a) hi).
    { apply List.Forall_forall. intros a Ha. apply filter_In in Ha as [_ Ha]. lia. }
    destruct (Z.leb_spec (key s) (key x)) as [Hx|Hx]; cbn [negb].
    + (* x goes in front of s or earlier *)
      clear Hhi. induction hi as [|y hi IHhi]; cbn [app sort_insert].
      * rewrite cmp_key. destruct (Z.leb_spec (key s - key x) 0); [reflexivity | lia].
      * destruct (cmp x y <=? 0); [reflexivity|]. now rewrite IHhi.
    + (* x goes behind s *)
      induction Hhi as [|y hi Hy _ IHhi]; cbn [app sort_insert].
      * rewrite cmp_key. destruct (Z.leb_spec (key s - key x) 0); [lia | reflexivity].
      * rewrite cmp_key. destruct (Z.leb_spec (key y - key x) 0); [lia|].
        now rewrite IHhi.
Qed.

End Sort.
End SortFacts.

Module RulesListFacts.
Import Rules RulesAux ArraysFacts SortFacts.

Lemma find_id_none (rid : string) (prev : list CategorizationRule) :
  List.find (fun r => bool_decide (id r = rid)) prev = None <->
  ~ In rid (map id prev).
Proof.
  induction prev as [|r prev IH]; cbn [List.find map].
  - split; [intros _ [] | reflexivity].
  - destruct (bool_decide_reflect (id r = rid)) as [Heq|Hne].
    + split; [discriminate|]. intros H. exfalso. apply H. now left.
    + rewrite IH. split.
      * intros H [Hin|Hin]; [contradiction | now apply H].
      * intros H Hin. apply H. now right.
Qed.

Lemma handleSave_cases (saved : CategorizationRule) (prev : list CategorizationRule) :
  (In (id saved) (map id prev) /\
   handleSave saved prev =
     map (fun r => if bool_decide (id r = id saved) then saved else r) prev) \/
  (~ In (id saved) (map id prev) /\ handleSave saved prev = prev ++ [saved]).
Proof.
  unfold handleSave.
  destruct (List.find _ prev) as [r|] eqn:E.
  - left. split; [|reflexivity].
    apply find_some in E as [Hin Hid]. apply bool_decide_eq_true in Hid.
    rewrite <- Hid. now apply in_map.
  - right. split; [|reflexivity]. now apply find_id_none.
Qed.

Lemma filter_other_id_replace (saved : CategorizationRule) (prev : list CategorizationRule) :
  List.filter (other_id (id saved))
    (map (fun r => if bool_decide (id r = id saved) then saved else r) prev)
  = List.filter (other_id (id saved)) prev.
Proof.
  unfold other_id. induction prev as [|r prev IH]; [reflexivity|].
  cbn [map List.filter].
  destruct (bool_decide_reflect (id r = id saved)) as [Heq|Hne]; cbn [negb].
  - rewrite bool_decide_true by reflexivity. cbn [negb]. exact IH.
  - rewrite bool_decide_false by assumption. cbn [negb]. now rewrite IH.
Qed.

Lemma filter_other_id_all (rid : string) (prev : list CategorizationRule) :
  ~ In rid (map id prev) -> List.filter (other_id rid) prev = prev.
Proof.
  unfold other_id. induction prev as [|r prev IH]; [reflexivity|].
  cbn [map List.filter]. intros H.
  rewrite bool_decide_false by (intros Heq; apply H; now left).
  cbn [negb]. rewrite IH; [reflexivity|]. intros Hin. apply H. now right.
Qed.

Lemma handleSave_other_ids (saved : CategorizationRule)
    (prev : list CategorizationRule) :
  List.filter (other_id (id saved)) (handleSave saved prev) =
  List.filter (other_id (id saved)) prev.
Proof.
  destruct (handleSave_cases saved prev) as [[Hin ->] | [Hnot ->]].
  - apply filter_other_id_replace.
  - rewrite List.filter_app. cbn [List.filter]. unfold other_id at 2.
    rewrite bool_decide_true by reflexivity. cbn [negb]. apply app_nil_r.
Qed.

(** X1. Saving a rule in the rules list puts it in place of the rules with
    its id, or at the end: the saved rule is in the new list, every rule of
    the new list with that id is the saved rule, the rules with other ids
    are kept as they were and in their order, and the list grows by one
    exactly when no rule had that id. *)
Theorem handleSave_replaces_or_appends (saved : CategorizationRule)
    (prev : list CategorizationRule) :
  In saved (handleSave saved prev) /\
  (forall r, In r (handleSave saved prev) -> id r = id saved -> r = saved) /\
  List.filter (other_id (id saved)) (handleSave saved prev) =
    List.filter (other_id (id saved)) prev /\
  length (handleSave saved prev) =
    (if bool_decide (id saved ∈ map id prev)
     then length prev else S (length prev)).
Proof.
  pose proof (handleSave_other_ids saved prev) as Hother.
  destruct (handleSave_cases saved prev) as [[Hin Heq] | [Hnot Heq]];
    rewrite Heq in *; clear Heq.
  - split; [|split; [|split]].
    + apply in_map_iff in Hin as (r & Hid & Hr).
      apply in_map_iff. exists r. split; [|exact Hr].
      now rewrite bool_decide_true.
    + intros r Hr Hid. apply in_map_iff in Hr as (r0 & Hr0 & _).
      destruct (bool_decide_reflect (id r0 = id saved)); congruence.
    + exact Hother.
    + rewrite bool_decide_true by (now apply list_elem_of_In). apply length_map.
  - split; [|split; [|split]].
    + apply in_or_app. right. now left.
    + intros r Hr Hid. apply in_app_or in Hr as [Hr | [<- | []]]; [|reflexivity].
      exfalso. apply Hnot. rewrite <- Hid. now apply in_map.
    + exact Hother.
    + rewrite bool_decide_false by (now rewrite list_elem_of_In).
      rewrite length_app. cbn. lia.
Qed.

(** X2. Saving a rule keeps the rule ids of the list distinct: if no two
    rules share an id before handleSave, none do after it. *)
Theorem handleSave_keeps_ids_unique (saved : CategorizationRule)
    (prev : list CategorizationRule) :
  NoDup (map id prev) -> NoDup (map id (handleSave saved prev)).
Proof.
  intros Hnd. destruct (handleSave_cases saved prev) as [[Hin ->] | [Hnot ->]].
  - rewrite map_map.
    erewrite map_ext; [exact Hnd|].
    intros r. cbn beta.
    destruct (bool_decide_reflect (id r = id saved)); congruence.
  - rewrite map_app. cbn [map]. apply NoDup_app. split; [exact Hnd|]. split.
    + intros x Hx Hs. apply list_elem_of_singleton in Hs as ->.
      apply Hnot. now apply list_elem_of_In.
    + apply NoDup_singleton.
Qed.

Lemma handleSave_keeps_ids_unique_witness :
  NoDup (map id (handleSave rule_c [rule_a; rule_b])).
Proof.
  apply (handleSave_keeps_ids_unique rule_c [rule_a; rule_b]).
  apply (bool_decide_unpack _). vm_compute. exact I.
Defined.

(** X3. Deleting a rule removes every rule with that id and nothing else: no
    rule with the id is left, every rule with another id stays, and a list
    without the id is unchanged; deleting a rule right after saving it gives
    the earlier list without that id, which is the earlier list itself when
    the rule was new. *)
Theorem handleDelete_removes_id (rid : string) (prev : list CategorizationRule)
    (saved : CategorizationRule) :
  ~ In rid (map id (handleDelete rid prev)) /\
  (forall r, In r prev -> id r <> rid -> In r (handleDelete rid prev)) /\
  (~ In rid (map id prev) -> handleDelete rid prev = prev) /\
  handleDelete (id saved) (handleSave saved prev) = handleDelete (id saved) prev /\
  (~ In (id saved) (map id prev) ->
   handleDelete (id saved) (handleSave saved prev) = prev).
Proof.
  assert (Hround : handleDelete (id saved) (handleSave saved prev)
                   = handleDelete (id saved) prev).
  { apply handleSave_other_ids. }
  split; [|split; [|split; [|split]]].
  - intros Hin. apply in_map_iff in Hin as (r & Hid & Hr).
    apply filter_In in Hr as [_ Hr].
    rewrite bool_decide_true in Hr by assumption. discriminate.
  - intros r Hr Hne. apply filter_In. split; [exact Hr|].
    now rewrite bool_decide_false.
  - apply filter_other_id_all.
  - exact Hround.
  - intros Hnot. rewrite Hround. now apply filter_other_id_all.
Qed.

(** X4. The rules list shows rules of equal priority in the order they have
    in the state: for every priority, the rules of that priority come in the
    rendered list as they come in the list that is sorted. *)
Theorem rules_list_sort_stable (rules : list CategorizationRule) (k : Z) :
  List.filter (fun r => priority r =? k) (rendered_rules rules) =
  List.filter (fun r => priority r =? k) rules.
Proof. apply (array_sort_stable by_priority_desc priority). reflexivity. Qed.

(** X5. Rendering the rules list again orders nothing anew: sorting the
    sorted rules gives the same list, and a list that is already in
    non-increasing priority order is rendered as it stands. *)
Theorem rules_list_rerender (rules : list CategorizationRule) :
  rendered_rules (rendered_rules rules) = rendered_rules rules /\
  (StronglySorted (fun a b => priority a >= priority b) rules ->
   rendered_rules rules = rules).
Proof.
  split.
  - apply (array_sort_idempotent by_priority_desc priority). reflexivity.
  - apply (array_sort_sorted_id by_priority_desc priority). reflexivity.
Qed.

(** X6. A rule saved under a new id is displayed after every rule of the
    same or a higher priority and before every rule of a lower priority, the
    other rules keeping their rendered order. *)
Theorem rules_list_new_rule_position (saved : CategorizationRule)
    (prev : list CategorizationRule) :
  ~ In (id saved) (map id prev) ->
  rendered_rules (handleSave saved prev) =
  List.filter (fun r => priority saved <=? priority r) (rendered_rules prev) ++
  saved ::
  List.filter (fun r => negb (priority saved <=? priority r)) (rendered_rules prev).
Proof.
  intros Hnot. destruct (handleSave_cases saved prev) as [[Hin _] | [_ ->]];
    [contradiction|].
  apply (array_sort_snoc by_priority_desc priority). reflexivity.
Qed.

Lemma rules_list_new_rule_position_witness :
  rendered_rules (handleSave rule_c [rule_a; rule_b]) = [rule_b; rule_a; rule_c].
Proof.
  rewrite (rules_list_new_rule_position rule_c [rule_a; rule_b]).
  - reflexivity.
  - cbn. intros [H | [H | []]]; discriminate.
Defined.

End RulesListFacts.

Module TrimFacts.
Import Text TextFacts RulesAux.

Lemma trim_start_clean (s : chars) : starts_clean (trim_start s).
Proof.
  induction s as [|c s IH]; cbn; [exact I|].
  destruct (is_blank c) eqn:E; [exact IH | exact E].
Qed.

Lemma trim_start_id (s : chars) : starts_clean s -> trim_start s = s.
Proof. destruct s as [|c s]; cbn; [reflexivity|]. now intros ->. Qed.

(** [trim_start] drops a prefix of blanks. *)
Lemma trim_start_suffix (s : chars) :
  exists pre, s = pre ++ trim_start s.
Proof.
  induction s as [|c s [pre IH]]; [now exists []|]. cbn.
  destruct (is_blank c).
  - exists (c :: pre). cbn. now rewrite <- IH.
  - now exists [].
Qed.

Lemma starts_clean_prefix (a b : chars) :
  starts_clean (a ++ b) -> a <> [] -> starts_clean a.
Proof. destruct a; [congruence|]. now cbn. Qed.

Lemma trim_clean_both (s : chars) :
  starts_clean (trim s) /\ starts_clean (rev (trim s)).
Proof.
  unfold trim. rewrite rev_involutive.
  set (a := trim_start s). set (b := trim_start (rev a)).
  split; [|apply trim_start_clean].
  destruct (trim_start_suffix (rev a)) as [pre Hpre]. fold b in Hpre.
  assert (Ha : a = rev b ++ rev pre).
  { rewrite <- rev_app_distr, <- Hpre. now rewrite rev_involutive. }
  destruct b as [|c b]; [exact I|].
  apply (starts_clean_prefix _ (rev pre)).
  - rewrite <- Ha. apply trim_start_clean.
  - cbn. intros H. apply app_eq_nil in H as [_ H]. discriminate.
Qed.

Lemma trim_idempotent (s : chars) : trim (trim s) = trim s.
Proof.
  destruct (trim_clean_both s) as [H1 H2].
  unfold trim at 1. rewrite (trim_start_id _ H1), (trim_start_id _ H2).
  apply rev_involutive.
Qed.

End TrimFacts.

Module JsTextFacts.
Import Text JsText TextFacts.

(** The recursion of [drop_white_space], as an induction principle. *)
Lemma drop_white_space_rec (bw : bool) (P : chars -> chars -> Prop) :
  (forall s, white_start bw s = false -> P s s) ->
  (forall pre s, pre <> [] -> P s (drop_white_space bw s) ->
                 P (pre ++ s) (drop_white_space bw s)) ->
  forall s, P s (drop_white_space bw s).
Proof.
  intros Hstop Hdrop s.
  remember (length s) as n eqn:Hn. revert s Hn.
  induction n as [n IH] using lt_wf_ind. intros s Hn.
  assert (Hrec : forall pre r, pre <> [] -> s = pre ++ r ->
                   P s (drop_white_space bw r)).
  { intros pre r Hpre ->. apply Hdrop; [exact Hpre|].
    apply (IH (length r)); [|reflexivity].
    subst n. rewrite length_app. destruct pre; [congruence | simpl; lia]. }
  destruct s as [|c1 s1]; [apply Hstop; reflexivity|].
  cbn [drop_white_space].
  destruct (white_space1 c1) eqn:E1.
  { apply (Hrec [c1]); [discriminate | reflexivity]. }
  destruct s1 as [|c2 s2].
  { apply Hstop. cbn [white_start]. now rewrite E1. }
  destruct (if bw then white_space2 c2 c1 else white_space2 c1 c2) eqn:E2.
  { apply (Hrec [c1; c2]); [discriminate | reflexivity]. }
  destruct s2 as [|c3 s3].
  { apply Hstop. cbn [white_start]. now rewrite E1, E2. }
  destruct (if bw then white_space3 c3 c2 c1 else white_space3 c1 c2 c3) eqn:E3.
  { apply (Hrec [c1; c2; c3]); [discriminate | reflexivity]. }
  apply Hstop. cbn [white_start]. now rewrite E1, E2, E3.
Qed.

Lemma drop_white_space_clean (bw : bool) (s : chars) :
  white_start bw (drop_white_space bw s) = false.
Proof.
  apply (drop_white_space_rec bw (fun _ r => white_start bw r = false)); auto.
Qed.

Lemma drop_white_space_suffix (bw : bool) (s : chars) :
  exists pre, s = pre ++ drop_white_space bw s.
Proof.
  apply (drop_white_space_rec bw (fun s r => exists pre, s = pre ++ r)).
  - intros r _. now exists [].
  - intros pre r _ [pre' H]. exists (pre ++ pre').
    rewrite <- app_assoc. now rewrite <- H.
Qed.

Lemma drop_white_space_id (bw : bool) (s : chars) :
  white_start bw s = false -> drop_white_space bw s = s.
Proof.
  destruct s as [|c1 [|c2 [|c3 s3]]]; cbn [white_start drop_white_space].
  - reflexivity.
  - rewrite orb_false_r. now intros ->.
  - rewrite orb_false_r. intros H. apply orb_false_iff in H as [-> ->].
    reflexivity.
  - intros H. apply orb_false_iff in H as [-> H].
    apply orb_false_iff in H as [-> ->]. reflexivity.
Qed.

Lemma white_start_prefix (bw : bool) (p q : chars) :
  white_start bw (p ++ q) = false -> white_start bw p = false.
Proof.
  destruct p as [|c1 [|c2 [|c3 p3]]]; cbn [white_start app].
  - reflexivity.
  - intros H. apply orb_false_iff in H as [-> _]. reflexivity.
  - intros H. apply orb_false_iff in H as [-> H].
    apply orb_false_iff in H as [-> _]. reflexivity.
  - auto.
Qed.

(** Trimming what is trimmed changes nothing. *)
Lemma trim_chars_idempotent (s : chars) :
  trim_chars (trim_chars s) = trim_chars s.
Proof.
  unfold trim_chars.
  set (a := drop_white_space false s).
  set (b := drop_white_space true (rev a)).
  destruct (drop_white_space_suffix true (rev a)) as [pre Hpre]. fold b in Hpre.
  assert (Ha : a = rev b ++ rev pre).
  { rewrite <- rev_app_distr, <- Hpre. now rewrite rev_involutive. }
  assert (Hfront : drop_white_space false (rev b) = rev b).
  { apply drop_white_space_id, (white_start_prefix _ _ (rev pre)).
    rewrite <- Ha. apply drop_white_space_clean. }
  rewrite Hfront, rev_involutive.
  rewrite (drop_white_space_id true b); [reflexivity|].
  apply drop_white_space_clean.
Qed.

Lemma js_trim_idempotent (s : string) : trim (trim s) = trim s.
Proof.
  unfold trim. rewrite of_to_string. now rewrite trim_chars_idempotent.
Qed.

(** What [trim] leaves neither starts nor ends with a white space. *)
Lemma trim_chars_clean (s : chars) :
  white_start false (trim_chars s) = false /\
  white_start true (rev (trim_chars s)) = false.
Proof.
  unfold trim_chars.
  set (a := drop_white_space false s).
  set (b := drop_white_space true (rev a)).
  destruct (drop_white_space_suffix true (rev a)) as [pre Hpre]. fold b in Hpre.
  assert (Ha : a = rev b ++ rev pre).
  { rewrite <- rev_app_distr, <- Hpre. now rewrite rev_involutive. }
  split.
  - apply (white_start_prefix _ _ (rev pre)).
    rewrite <- Ha. apply drop_white_space_clean.
  - rewrite rev_involutive. apply drop_white_space_clean.
Qed.

End JsTextFacts.

Module RuleFormFacts.
Import Rules RulesAux TextFacts.

Lemma Rules_trim_idempotent (s : string) : trim (trim s) = trim s.
Proof. apply JsTextFacts.js_trim_idempotent. Qed.

(** Every saved rule is what [handleSubmit] made of some state at some
    submission. *)
Lemma form_run_saved (p : RuleFormProps) (evs : list FormEvent) (st : FormState)
    (r : CategorizationRule) :
  In (onSave r) (snd (form_run p st evs)) ->
  exists st' now, In (Submit now) evs /\ handleSubmit p st' now = [onSave r].
Proof.
  revert st. induction evs as [|ev evs IH]; intros st Hr; [destruct Hr|].
  cbn [form_run] in Hr.
  destruct (form_step p st ev) as [st1 out1] eqn:Estep.
  specialize (IH st1).
  destruct (form_run p st1 evs) as [st2 out2].
  cbn [snd] in *. apply in_app_or in Hr as [Hr | Hr].
  - destruct ev as [v | i | i | v | now |]; cbn [form_step] in Estep.
    + injection Estep as <- <-. destruct Hr.
    + destruct (matchType_options !! i); injection Estep as <- <-; destruct Hr.
    + destruct (category_options p !! i); injection Estep as <- <-; destruct Hr.
    + injection Estep as <- <-. destruct Hr.
    + injection Estep as <- <-. exists st, now. split; [now left|].
      unfold handleSubmit in *. destruct (_ || _); [destruct Hr|].
      destruct Hr as [Hr | []]. now rewrite Hr.
    + injection Estep as <- <-. destruct Hr as [Hr | []]. discriminate.
  - destruct (IH Hr) as (st' & now & Hin & Hsub).
    exists st', now. split; [now right | exact Hsub].
Qed.

Lemma saved_rules_In (p : RuleFormProps) (evs : list FormEvent) (r : CategorizationRule) :
  In r (saved_rules p evs) ->
  exists st' now, In (Submit now) evs /\ handleSubmit p st' now = [onSave r].
Proof.
  intros Hr. apply list_elem_of_In in Hr. unfold saved_rules in Hr.
  apply list_elem_of_omap in Hr as (c & Hc & Hsome).
  destruct c as [r'|]; [|discriminate]. injection Hsome as ->.
  apply list_elem_of_In in Hc. now apply form_run_saved in Hc.
Qed.

(** X7. The rule form never hands a blank rule to onSave: in every session
    with the form, each saved rule has a pattern that is not empty and that
    trimming leaves unchanged, and a category id that is not empty. *)
Theorem rule_form_never_saves_blank (p : RuleFormProps) (evs : list FormEvent)
    (r : CategorizationRule) :
  In r (saved_rules p evs) ->
  pattern r <> "" /\ trim (pattern r) = pattern r /\ categoryId r <> "".
Proof.
  intros Hr. apply saved_rules_In in Hr as (st & now & _ & Hsub).
  unfold handleSubmit in Hsub.
  destruct (bool_decide_reflect (trim (st_pattern st) = "")) as [|Hpat];
    [discriminate|].
  destruct (bool_decide_reflect (st_categoryId st = "")) as [|Hcat];
    [discriminate|].
  cbn [orb] in Hsub. injection Hsub as <-. cbn [pattern categoryId].
  split; [exact Hpat|]. split; [apply Rules_trim_idempotent | exact Hcat].
Qed.

Lemma rule_form_never_saves_blank_witness :
  pattern sample_saved <> "" /\ trim (pattern sample_saved) = pattern sample_saved /\
  categoryId sample_saved <> "".
Proof.
  apply (rule_form_never_saves_blank sample_form sample_session sample_saved).
  vm_compute. now left.
Defined.

(** A pattern made of a no-break space is blank, and is not saved. *)
Example rule_form_rejects_no_break_space :
  handleSubmit sample_form
    {| st_pattern := Text.to_string Text.nbsp; st_matchType := "contains";
       st_categoryId := "utenze"; st_priority := 10 |} 1700000000000 = [].
Proof. reflexivity. Qed.

Lemma digits_of_uint_inj (u v : Decimal.uint) :
  Text.digits_of_uint u = Text.digits_of_uint v -> u = v.
Proof.
  intros H. apply (f_equal Text.uint_of_digits) in H.
  rewrite !uint_of_digits_of_uint in H. congruence.
Qed.

Lemma digits_of_N_inj (n m : N) : Text.digits_of_N n = Text.digits_of_N m -> n = m.
Proof.
  intros H. apply digits_of_uint_inj in H.
  now apply DecimalN.Unsigned.to_uint_inj.
Qed.

Lemma to_string_inj (a b : Text.chars) : Text.to_string a = Text.to_string b -> a = b.
Proof.
  intros H. apply (f_equal Text.of_string) in H. now rewrite !of_to_string in H.
Qed.

Lemma fresh_id_inj (a b : Z) : fresh_id a = fresh_id b -> a = b.
Proof.
  unfold fresh_id. intros H. apply String.app_inj in H. apply to_string_inj in H.
  pose proof (digits_of_N_digit (Z.to_N (Z.abs a))) as Ha.
  pose proof (digits_of_N_digit (Z.to_N (Z.abs b))) as Hb.
  pose proof (digits_of_N_nonempty (Z.to_N (Z.abs a))) as Hna.
  pose proof (digits_of_N_nonempty (Z.to_N (Z.abs b))) as Hnb.
  destruct (Z.ltb_spec a 0), (Z.ltb_spec b 0); cbn [app] in H.
  - injection H as H. apply digits_of_N_inj in H. lia.
  - exfalso. destruct (Text.digits_of_N (Z.to_N (Z.abs b))) as [|c r]; [congruence|].
    injection H as <- _. inversion Hb as [|? ? Hc _]. discriminate Hc.
  - exfalso. destruct (Text.digits_of_N (Z.to_N (Z.abs a))) as [|c r]; [congruence|].
    injection H as -> _. inversion Ha as [|? ? Hc _]. discriminate Hc.
  - apply digits_of_N_inj in H. lia.
Qed.

(** X8. A rule saved from the form keeps the id of the rule being edited;
    when no rule is being edited its id is rule- followed by the time of a
    submission of the session, and no other time gives the same id. *)
Theorem rule_form_saved_id (p : RuleFormProps) (evs : list FormEvent)
    (r : CategorizationRule) :
  In r (saved_rules p evs) ->
  match rule p with
  | Some edited => id r = id edited
  | None => exists now, In (Submit now) evs /\ id r = fresh_id now /\
                        forall other, fresh_id other = id r -> other = now
  end.
Proof.
  intros Hr. apply saved_rules_In in Hr as (st & now & Hin & Hsub).
  unfold handleSubmit in Hsub. destruct (_ || _); [discriminate|].
  injection Hsub as <-. cbn [id].
  destruct (rule p) as [edited|]; cbn; [reflexivity|].
  exists now. split; [exact Hin|]. split; [reflexivity|].
  intros other. apply fresh_id_inj.
Qed.

Lemma rule_form_saved_id_witness : id sample_saved = "rule-1".
Proof.
  apply (rule_form_saved_id sample_form sample_session sample_saved).
  vm_compute. now left.
Defined.


Lemma form_step_category (p : RuleFormProps) (st : FormState) (ev : FormEvent) :
  st_categoryId st ∈ category_options p ->
  st_categoryId (fst (form_step p st ev)) ∈ category_options p.
Proof.
  intros Hst. destruct ev as [v | i | i | v | now |]; cbn [form_step]; try exact Hst.
  - now destruct (matchType_options !! i).
  - destruct (category_options p !! i) as [v|] eqn:E; cbn; [|exact Hst].
    eapply list_elem_of_lookup_2. exact E.
Qed.

Lemma form_run_category (p : RuleFormProps) (evs : list FormEvent) (st : FormState)
    (r : CategorizationRule) :
  st_categoryId st ∈ category_options p ->
  In (onSave r) (snd (form_run p st evs)) ->
  exists st' now, st_categoryId st' ∈ category_options p /\
                  handleSubmit p st' now = [onSave r].
Proof.
  revert st. induction evs as [|ev evs IH]; intros st Hst Hr; [destruct Hr|].
  cbn [form_run] in Hr.
  pose proof (form_step_category p st ev Hst) as Hnext.
  destruct (form_step p st ev) as [st1 out1] eqn:Estep.
  specialize (IH st1 Hnext).
  destruct (form_run p st1 evs) as [st2 out2].
  cbn [fst snd] in *. apply in_app_or in Hr as [Hr | Hr]; [|now apply IH].
  destruct ev as [v | i | i | v | now |]; cbn [form_step] in Estep.
  - injection Estep as <- <-. destruct Hr.
  - destruct (matchType_options !! i); injection Estep as <- <-; destruct Hr.
  - destruct (category_options p !! i); injection Estep as <- <-; destruct Hr.
  - injection Estep as <- <-. destruct Hr.
  - injection Estep as <- <-. exists st, now. split; [exact Hst|].
    unfold handleSubmit in *. destruct (_ || _); [destruct Hr|].
    destruct Hr as [Hr | []]. now rewrite Hr.
  - injection Estep as <- <-. destruct Hr as [Hr | []]. discriminate.
Qed.

Lemma allLeaves_same_id (cats : list Category) (c c' : Category) :
  c ∈ allLeaves cats -> c' ∈ cats -> cat_id c' = cat_id c -> c' ∈ allLeaves cats.
Proof.
  unfold allLeaves. intros Hc Hc' Hid.
  apply list_elem_of_In, filter_In in Hc as [_ Hleaf].
  apply list_elem_of_In, filter_In. split; [now apply list_elem_of_In|].
  now rewrite Hid.
Qed.

(** X9. A new rule saved from the form points at a category of the list that
    has no children and carries the name of that category: the first
    category with the rule's categoryId exists, is a leaf, and its name is
    the rule's categoryName. *)
Theorem rule_form_new_rule_category (p : RuleFormProps) (evs : list FormEvent)
    (r : CategorizationRule) :
  rule p = None ->
  In r (saved_rules p evs) ->
  exists c,
    List.find (fun c => bool_decide (cat_id c = categoryId r)) (categories p) = Some c /\
    c ∈ allLeaves (categories p) /\
    categoryId r = cat_id c /\ categoryName r = name c.
Proof.
  intros Hnew Hr. apply list_elem_of_In in Hr. unfold saved_rules in Hr.
  apply list_elem_of_omap in Hr as (cb & Hc & Hsome).
  destruct cb as [r'|]; [|discriminate]. injection Hsome as ->.
  apply list_elem_of_In, form_run_category in Hc as (st & now & Hst & Hsub).
  2:{ unfold initial_state, category_options. rewrite Hnew. cbn. apply list_elem_of_here. }
  unfold handleSubmit in Hsub.
  destruct (bool_decide_reflect (trim (st_pattern st) = "")) as [|Hpat]; [discriminate|].
  destruct (bool_decide_reflect (st_categoryId st = "")) as [|Hcat]; [discriminate|].
  cbn [orb] in Hsub. injection Hsub as <-. cbn [categoryId categoryName].
  unfold category_options in Hst. apply elem_of_cons in Hst as [Hst | Hst]; [congruence|].
  apply list_elem_of_fmap in Hst as (leaf & Hid & Hleaf).
  assert (Hin : leaf ∈ categories p).
  { unfold allLeaves in Hleaf. apply list_elem_of_In, filter_In in Hleaf as [H _].
    now apply list_elem_of_In. }
  destruct (List.find _ (categories p)) as [c|] eqn:Efind.
  - apply find_some in Efind as [Hcin Hcid]. apply bool_decide_eq_true in Hcid.
    exists c. split; [reflexivity|]. split; [|now split].
    apply (allLeaves_same_id _ leaf); [exact Hleaf | now apply list_elem_of_In | congruence].
  - exfalso. apply list_elem_of_In in Hin.
    pose proof (find_none _ _ Efind leaf Hin) as Hno. cbn in Hno.
    apply bool_decide_eq_false in Hno. congruence.
Qed.

Lemma rule_form_new_rule_category_witness :
  exists c,
    List.find (fun c => bool_decide (cat_id c = categoryId sample_new_saved))
              (categories sample_new_form) = Some c /\
    c ∈ allLeaves (categories sample_new_form) /\
    categoryId sample_new_saved = cat_id c /\ categoryName sample_new_saved = name c.
Proof.
  apply (rule_form_new_rule_category sample_new_form sample_new_session sample_new_saved).
  - reflexivity.
  - vm_compute. now left.
Defined.

End RuleFormFacts.

Module PreviewEditFacts.
Import Dom Preview DomFacts PreviewFacts PreviewEdit.

Lemma find_all_error_box_Input e errs :
  flat_map (find_all "Input") (error_box e errs) = [].
Proof.
  unfold error_box. destruct (bool_decide _); [|reflexivity].
  cbn [flat_map]. rewrite !find_all_El. cbn [flat_map].
  rewrite !find_all_El. rewrite find_all_imap_li. reflexivity.
Qed.

Lemma find_all_row_Input e ov st tx :
  find_all "Input" (render_row e ov st tx) =
  if isEditing st tx
  then [El "Input" [("defaultValue", displayCategory ov tx);
                    className "h-7 w-32 text-xs"] []]
  else [].
Proof.
  unfold render_row, isEditing.
  destruct (bool_decide (st = Some (temp_id tx)));
    [|destruct (displayCategory ov tx)]; reflexivity.
Qed.

Lemma shown_inputs_PreviewTable e p st :
  shown_inputs (PreviewTable e p st) =
  map (fun tx => El "Input" [("defaultValue", displayCategory (categoryOverrides p) tx);
                             className "h-7 w-32 text-xs"] [])
      (List.filter (isEditing st) (transactions p)).
Proof.
  unfold shown_inputs, PreviewTable. dom_simpl.
  rewrite flat_map_app, find_all_error_box_Input. dom_simpl.
  change (find_all "Input" (table_head e)) with (@nil node). cbn [app].
  induction (transactions p) as [|tx txs IH]; [reflexivity|].
  cbn [map flat_map List.filter]. rewrite find_all_row_Input, IH.
  now destruct (isEditing st tx).
Qed.

Lemma filter_none {A} (f : A -> bool) (l : list A) :
  (forall x, In x l -> f x = false) -> List.filter f l = [].
Proof.
  induction l as [|x l IH]; intros H; [reflexivity|]. cbn.
  rewrite (H x) by now left. apply IH. intros y Hy. apply H. now right.
Qed.

Lemma filter_isEditing_NoDup st (txs : list PreviewTransaction) :
  NoDup (map temp_id txs) -> (length (List.filter (isEditing st) txs) <= 1)%nat.
Proof.
  induction txs as [|tx txs IH]; cbn [map List.filter]; [cbn; lia|].
  intros Hnd. apply NoDup_cons in Hnd as [Hnotin Hnd].
  unfold isEditing at 1. destruct (bool_decide_reflect (st = Some (temp_id tx))) as [->|].
  - rewrite (filter_none _ txs); [cbn; lia|].
    intros tx' Hin. unfold isEditing.
    apply bool_decide_eq_false. intros [= Heq]. 
    apply Hnotin. rewrite Heq. apply list_elem_of_fmap. exists tx'.
    split; [reflexivity | now apply list_elem_of_In].
  - now apply IH.
Qed.

(** X10. The preview table shows a category input exactly in the rows whose
    temp_id is the one being edited, each with the displayed category as its
    default value; with no row being edited there is no input, with distinct
    temp_ids there is at most one, and after a click on the category of a
    row that row is the one being edited. *)
Theorem preview_table_inputs (e : Env) (p : PreviewTableProps) (editingId : option string) :
  let dom := PreviewTable e p editingId in
  map (prop "defaultValue") (shown_inputs dom) =
    map (fun tx => Some (displayCategory (categoryOverrides p) tx))
        (List.filter (isEditing editingId) (transactions p)) /\
  (editingId = None -> shown_inputs dom = []) /\
  (NoDup (map temp_id (transactions p)) -> (length (shown_inputs dom) <= 1)%nat) /\
  forall row tx, transactions p !! row = Some tx ->
    fst (table_step (transactions p) editingId (ClickCategory row)) = Some (temp_id tx).
Proof.
  cbv zeta. rewrite shown_inputs_PreviewTable, map_map. split; [reflexivity|].
  split; [|split].
  - intros ->. rewrite (filter_none _ _); [reflexivity|].
    intros tx _. reflexivity.
  - intros Hnd. rewrite length_map. now apply filter_isEditing_NoDup.
  - intros row tx Hrow. cbn [table_step]. rewrite Hrow.
    unfold isEditing. destruct (bool_decide_reflect (editingId = Some (temp_id tx)));
    [assumption | reflexivity].
Qed.

Lemma category_shown_rows e ov st txs :
  map category_shown (map (render_row e ov st) txs) =
  map (fun tx => Some (displayCategory ov tx)) txs.
Proof.
  rewrite map_map. apply map_ext. intros tx. unfold category_shown, render_row.
  destruct (bool_decide (st = Some (temp_id tx)));
    [|destruct (displayCategory ov tx)]; reflexivity.
Qed.

Lemma displayCategory_insert ov k v tx :
  displayCategory (<[k := v]> ov) tx =
  if bool_decide (temp_id tx = k) then Str v else displayCategory ov tx.
Proof.
  unfold displayCategory, overridden.
  destruct (bool_decide_reflect (temp_id tx = k)) as [->|Hne].
  - now rewrite lookup_insert_eq.
  - now rewrite lookup_insert_ne by congruence.
Qed.

(** X11. Leaving the category input of a row, by blur or with Enter, with a
    text that once trimmed is neither empty nor the guess of the row records
    the trimmed text as the override of the row and ends the edit:
    onCategoryOverride is called once, with the temp_id of the row and the
    trimmed text, and the table then shows the trimmed text in every row
    with that temp_id, every other row as before, and no input. *)
Theorem preview_edit_commit (e : Env) (p : PreviewTableProps) (row : nat)
    (tx : PreviewTransaction) (value : string) :
  transactions p !! row = Some tx ->
  JsText.trim value <> "" ->
  category_name tx <> Some (JsText.trim value) ->
  let val := JsText.trim value in
  let editing := Some (temp_id tx) in
  let st' := edit_step (transactions p) (editing, categoryOverrides p) (BlurInput row value) in
  let dom' := PreviewTable e (with_overrides (snd st') p) (fst st') in
  table_step (transactions p) editing (BlurInput row value) = (None, [(temp_id tx, val)]) /\
  table_step (transactions p) editing (KeyDownInput row "Enter" value) =
    (None, [(temp_id tx, val)]) /\
  st' = (None, <[temp_id tx := val]> (categoryOverrides p)) /\
  map category_shown (body_rows dom') =
    map (fun tx' => Some (if bool_decide (temp_id tx' = temp_id tx) then Str val
                          else displayCategory (categoryOverrides p) tx'))
        (transactions p) /\
  shown_inputs dom' = [].
Proof.
  intros Hrow Hval Hguess. cbv zeta.
  assert (Hblur : onBlur tx value = (None, [(temp_id tx, JsText.trim value)])).
  { unfold onBlur. now rewrite !bool_decide_false. }
  assert (Hstep : table_step (transactions p) (Some (temp_id tx)) (BlurInput row value) =
                  (None, [(temp_id tx, JsText.trim value)])).
  { cbn [table_step]. rewrite Hrow. unfold isEditing. now rewrite bool_decide_true. }
  split; [exact Hstep|]. split.
  { cbn [table_step]. rewrite Hrow. unfold isEditing. rewrite bool_decide_true by reflexivity.
    unfold onKeyDown. now rewrite bool_decide_true. }
  unfold edit_step. cbn [fst snd]. rewrite Hstep. cbn [fst snd apply_overrides foldl].
  unfold handleCategoryOverride. split; [reflexivity|]. split.
  - rewrite body_rows_PreviewTable, category_shown_rows. cbn [with_overrides transactions categoryOverrides].
    apply map_ext. intros tx'. now rewrite displayCategory_insert.
  - rewrite shown_inputs_PreviewTable.
    rewrite (filter_none _ _); [reflexivity|]. intros ? _. reflexivity.
Qed.


Lemma preview_edit_commit_witness :
  table_step [row_enel; row_bar] (Some "tmp-2") (BlurInput 1 "  Bar e caffè ") =
    (None, [("tmp-2", "Bar e caffè")]).
Proof.
  refine (proj1 (preview_edit_commit sample_env
    {| transactions := [row_enel; row_bar]; errors := []; categoryOverrides := ∅ |}
    1 row_bar "  Bar e caffè " eq_refl _ _)).
  - vm_compute. discriminate.
  - vm_compute. discriminate.
Defined.

Lemma onBlur_calls txs tx value call :
  tx ∈ txs -> call ∈ snd (onBlur tx value) -> user_choice txs (fst call) (snd call).
Proof.
  intros Htx. unfold onBlur. cbn [snd].
  destruct (bool_decide_reflect (JsText.trim value = "")) as [|Hval];
    [intros H; inversion H|].
  destruct (bool_decide_reflect (category_name tx = Some (JsText.trim value))) as [|Hg];
    [intros H; inversion H|].
  cbn [negb andb]. intros ->%list_elem_of_singleton. cbn [fst snd].
  split; [exact Hval|]. now exists tx.
Qed.

Lemma table_step_calls txs ed ev call :
  call ∈ snd (table_step txs ed ev) -> user_choice txs (fst call) (snd call).
Proof.
  destruct ev as [row | row value | row key value]; cbn [table_step];
    destruct (txs !! row) as [tx|] eqn:Hrow; try (intros H; inversion H; fail);
    apply list_elem_of_lookup_2 in Hrow;
    destruct (isEditing ed tx); try (intros H; inversion H; fail).
  - now apply onBlur_calls.
  - unfold onKeyDown. destruct (bool_decide (key = "Enter")); [now apply onBlur_calls|].
    destruct (bool_decide (key = "Escape")); intros H; inversion H.
Qed.

Lemma apply_overrides_lookup calls ov k :
  (is_Some (ov !! k) -> is_Some (apply_overrides calls ov !! k)) /\
  forall v, apply_overrides calls ov !! k = Some v ->
            ov !! k = Some v \/ (k, v) ∈ calls.
Proof.
  revert ov. induction calls as [|[k' v'] calls IH]; intros ov; cbn [apply_overrides foldl].
  - split; [auto|]. intros v Hv. now left.
  - destruct (IH (handleCategoryOverride k' v' ov)) as [IH1 IH2].
    unfold apply_overrides in IH1, IH2. cbn [fst snd]. split.
    + intros Hk. apply IH1. unfold handleCategoryOverride.
      destruct (decide (k' = k)) as [->|Hne];
        [rewrite lookup_insert_eq; eauto | now rewrite lookup_insert_ne].
    + intros v Hv. destruct (IH2 v Hv) as [Hold | Hin]; [|right; now right].
      unfold handleCategoryOverride in Hold.
      destruct (decide (k' = k)) as [->|Hne].
      * rewrite lookup_insert_eq in Hold. injection Hold as ->. right. left.
      * rewrite lookup_insert_ne in Hold by assumption. now left.
Qed.

Lemma edit_step_overrides txs st ev k :
  (is_Some (snd st !! k) -> is_Some (snd (edit_step txs st ev) !! k)) /\
  forall v, snd (edit_step txs st ev) !! k = Some v ->
            snd st !! k = Some v \/ user_choice txs k v.
Proof.
  unfold edit_step.
  pose proof (table_step_calls txs (fst st) ev) as Hcalls.
  destruct (table_step txs (fst st) ev) as [ed' calls]. cbn [snd] in *.
  destruct (apply_overrides_lookup calls (snd st) k) as [H1 H2].
  split; [exact H1|]. intros v Hv. destruct (H2 v Hv) as [Hold | Hin]; [now left|].
  right. exact (Hcalls (k, v) Hin).
Qed.

Lemma edit_run_overrides txs evs st k :
  (is_Some (snd st !! k) -> is_Some (snd (edit_run txs st evs) !! k)) /\
  forall v, snd (edit_run txs st evs) !! k = Some v ->
            snd st !! k = Some v \/ user_choice txs k v.
Proof.
  revert st. induction evs as [|ev evs IH]; intros st; cbn [edit_run foldl].
  - split; [auto|]. intros v Hv. now left.
  - destruct (IH (edit_step txs st ev)) as [IH1 IH2].
    destruct (edit_step_overrides txs st ev k) as [S1 S2].
    unfold edit_run in *. split; [auto|].
    intros v Hv. destruct (IH2 v Hv) as [Hold | Hnew]; [|now right]. now apply S2.
Qed.

Lemma edit_run_app txs st evs evs' :
  edit_run txs st (evs ++ evs') = edit_run txs (edit_run txs st evs) evs'.
Proof. apply foldl_app. Qed.

(** X12. An override cannot be taken back in the preview table: with
    distinct temp_ids, once a row has an override, then after any further
    clicks, blurs and key presses the row still has one, it is what the row
    displays, it is not empty and it is not the guess of the row; typing the
    guess back in leaves the earlier override in place. *)
Theorem preview_override_is_permanent (txs : list PreviewTransaction)
    (evs evs' : list TableEvent) (tx : PreviewTransaction) :
  NoDup (map temp_id txs) ->
  tx ∈ txs ->
  is_Some (snd (edit_run txs (None, ∅) evs) !! temp_id tx) ->
  let ov' := snd (edit_run txs (None, ∅) (evs ++ evs')) in
  exists v, ov' !! temp_id tx = Some v /\ displayCategory ov' tx = Str v /\
            v <> "" /\ category_name tx <> Some v.
Proof.
  intros Hnd Htx Hset. cbv zeta.
  apply (proj1 (edit_run_overrides txs evs' _ (temp_id tx))) in Hset as [v Hv].
  rewrite <- edit_run_app in Hv. exists v. split; [exact Hv|].
  split; [unfold displayCategory, overridden; now rewrite Hv|].
  destruct (proj2 (edit_run_overrides txs (evs ++ evs') (None, ∅) (temp_id tx)) v Hv)
    as [Hold | (Hne & tx' & Htx' & Hid & Hguess)].
  - cbn in Hold. rewrite lookup_empty in Hold. discriminate.
  - split; [exact Hne|].
    assert (tx' = tx) as <-; [|exact Hguess].
    apply list_elem_of_lookup in Htx as [i Hi], Htx' as [j Hj].
    assert (i = j) as ->; [|congruence].
    apply (NoDup_lookup (map temp_id txs) i j (temp_id tx)); [exact Hnd| |].
    + now rewrite list_lookup_fmap, Hi.
    + now rewrite list_lookup_fmap, Hj, <- Hid.
Qed.

Lemma preview_override_is_permanent_witness :
  exists v, snd (edit_run [row_enel; row_bar] (None, ∅)
                   ([ClickCategory 0; BlurInput 0 "Luce"] ++
                    [ClickCategory 0; KeyDownInput 0 "Enter" "Utenze"]))
              !! "tmp-1" = Some v /\
            v = "Luce".
Proof.
  destruct (preview_override_is_permanent [row_enel; row_bar]
              [ClickCategory 0; BlurInput 0 "Luce"]
              [ClickCategory 0; KeyDownInput 0 "Enter" "Utenze"] row_enel)
    as (v & Hv & _).
  - apply (bool_decide_unpack _). vm_compute. exact I.
  - apply list_elem_of_here.
  - vm_compute. eauto.
  - exists v. split; [exact Hv|]. vm_compute in Hv. congruence.
Defined.

End PreviewEditFacts.

Module ImportFlowFacts.
Import UploadFacts PreviewEdit PreviewEditFacts ImportFlow.

Lemma from_response_snoc evs ev st st' :
  importId st' = importId st -> transactions st' = transactions st ->
  parseErrors st' = parseErrors st ->
  from_response evs st -> from_response (evs ++ [ev]) st'.
Proof.
  intros Hi Ht He [[H1 H2] | (res & Hin & H1 & H2 & H3)].
  - left. split; congruence.
  - right. exists res. split; [apply in_or_app; now left|].
    repeat split; congruence.
Qed.

Lemma setFile_calls_inv evs ev st calls :
  (forall f, In f calls -> Upload.passes f = true) ->
  Inv evs st -> Inv (evs ++ [ev]) (foldl (fun s f => setFile f s) st calls).
Proof.
  intros Hcalls [Hf Ha Ho Hr].
  assert (Hfold : forall calls st0,
            let st' := foldl (fun s f => setFile f s) st0 calls in
            (file st' = file st0 \/ exists f, In f calls /\ file st' = Some f) /\
            accountId st' = accountId st0 /\ categoryOverrides st' = categoryOverrides st0 /\
            transactions st' = transactions st0 /\ importId st' = importId st0 /\
            parseErrors st' = parseErrors st0).
  { clear. induction calls as [|c calls IH]; intros st0; cbn [foldl].
    - cbv zeta. repeat split; auto.
    - destruct (IH (setFile c st0)) as ([Hsame | (f & Hin & Hf)] & H2 & H3 & H4 & H5 & H6).
      + cbv zeta. split; [right; exists c; split; [now left | exact Hsame]|].
        repeat split; assumption.
      + cbv zeta. split; [right; exists f; split; [now right | exact Hf]|].
        repeat split; assumption. }
  destruct (Hfold calls st) as (H1 & H2 & H3 & H4 & H5 & H6). cbv zeta in *.
  split.
  - intros f Hfile. destruct H1 as [H1 | (g & Hin & H1)].
    + apply Hf. congruence.
    + rewrite H1 in Hfile. injection Hfile as <-. now apply Hcalls.
  - intros a. rewrite H2. apply Ha.
  - intros k v. rewrite H3, H4. apply Ho.
  - now apply (from_response_snoc evs ev st).
Qed.

Lemma overrides_nonempty (m : gmap string string) :
  bool_decide (0 < length (map_to_list m))%nat = true <-> m <> ∅.
Proof.
  rewrite bool_decide_eq_true. split.
  - intros Hlen ->. rewrite map_to_list_empty in Hlen. cbn in Hlen. lia.
  - intros Hne. destruct (map_to_list m) eqn:E; [|cbn; lia].
    apply map_to_list_empty_iff in E. contradiction.
Qed.

Lemma step_inv mime t evs st ev :
  Inv evs st ->
  Inv (evs ++ [ev]) (fst (step mime t st ev)) /\
  Forall (sent_from st) (snd (step mime t st ev)).
Proof.
  intros HI. pose proof HI as [Hf Ha Ho Hr].
  assert (Hsame : Inv (evs ++ [ev]) st).
  { split; auto. now apply (from_response_snoc evs ev st). }
  destruct ev as [g files | key | i | | tev | | | | outcome | outcome | ]; cbn [step].
  - destruct (state st); cbn [fst snd]; try (split; [exact Hsame | constructor]).
    split; [|constructor]. apply setFile_calls_inv; [|exact HI].
    intros f Hin. now apply calls_passed in Hin.
  - destruct (state st); cbn [fst snd]; try (split; [exact Hsame | constructor]).
    split; [|constructor]. split; auto. now apply (from_response_snoc evs _ st).
  - destruct (state st); cbn [fst snd]; try (split; [exact Hsame | constructor]).
    split; [|constructor]. unfold selectAccount.
    destruct (accounts !! i) as [acc|] eqn:Hacc; [|exact Hsame].
    split; auto; [|now apply (from_response_snoc evs _ st)].
    cbn [setAccountId accountId]. intros a [= <-].
    apply list_elem_of_fmap. exists acc. split; [reflexivity|].
    eapply list_elem_of_lookup_2. exact Hacc.
  - destruct (state st) eqn:Hstate; cbn [fst snd]; try (split; [exact Hsame | constructor]).
    destruct (canUpload st); [|split; [exact Hsame | constructor]].
    unfold handleUpload.
    destruct (file st) as [f|] eqn:Hfile; [|split; [exact Hsame | constructor]].
    destruct (accountId st) as [a|] eqn:Hacc; [|split; [exact Hsame | constructor]].
    destruct (bool_decide_reflect (a = "")) as [|Hne]; [split; [exact Hsame | constructor]|].
    cbn [fst snd]. split.
    + split; cbn; auto.
      * rewrite Hfile. exact Hf.
      * rewrite Hacc. exact Ha.
      * now apply (from_response_snoc evs _ st).
    + constructor; [|constructor]. cbn. rewrite Hfile, Hacc. auto.
  - destruct (state st); cbn [fst snd]; try (split; [exact Hsame | constructor]).
    destruct (edit_step (transactions st) (editingId st, categoryOverrides st) tev)
      as [ed ov] eqn:Hstep.
    cbn [fst snd]. split; [|constructor]. split; cbn; auto.
    + intros k v Hv.
      pose proof (proj2 (edit_step_overrides (transactions st)
                           (editingId st, categoryOverrides st) tev k) v) as Hedit.
      rewrite Hstep in Hedit. cbn [snd] in Hedit. destruct (Hedit Hv); auto.
    + now apply (from_response_snoc evs _ st).
  - destruct (state st) eqn:Hstate; cbn [fst snd]; try (split; [exact Hsame | constructor]).
    unfold handleCancel.
    assert (Hreset : Inv (evs ++ [ClickCancel]) (reset st)).
    { split; cbn; try discriminate;
        try (intros k v Hv; rewrite lookup_empty in Hv; discriminate).
      left. split; reflexivity. }
    destruct (importId st) as [i|] eqn:Hid; [|split; [exact Hreset | constructor]].
    destruct (bool_decide_reflect (i = "")) as [|Hne]; [split; [exact Hreset | constructor]|].
    cbn [fst snd]. split.
    + split; cbn; auto. now apply (from_response_snoc evs _ st).
    + constructor; [|constructor]. cbn. rewrite Hid. auto.
  - destruct (state st) eqn:Hstate; cbn [fst snd]; try (split; [exact Hsame | constructor]).
    unfold handleConfirm.
    destruct (importId st) as [i|] eqn:Hid; [|split; [exact Hsame | constructor]].
    destruct (bool_decide_reflect (i = "")) as [|Hne]; [split; [exact Hsame | constructor]|].
    cbn [fst snd]. split.
    + split; cbn; auto. now apply (from_response_snoc evs _ st).
    + constructor; [|constructor]. cbn. rewrite Hid.
      repeat split; auto.
      destruct (bool_decide (0 < length (map_to_list (categoryOverrides st)))%nat) eqn:E.
      * split; [reflexivity|]. now apply overrides_nonempty.
      * destruct (decide (categoryOverrides st = ∅)) as [|Hne']; [assumption|].
        apply overrides_nonempty in Hne'. congruence.
  - destruct (state st); cbn [fst snd]; try (split; [exact Hsame | constructor]).
    split; [|constructor]. split; cbn; auto. now apply (from_response_snoc evs _ st).
  - destruct (uploads_waiting st) as [|n]; cbn [fst snd]; [split; [exact Hsame | constructor]|].
    split; [|constructor]. destruct outcome as [res | err]; cbn [uploadSettled].
    + split; cbn; auto;
        try (intros k v Hv; rewrite lookup_empty in Hv; discriminate).
      right. exists res. split; [apply in_or_app; right; now left|]. auto.
    + split; cbn; auto. now apply (from_response_snoc evs _ st).
  - destruct (confirms_waiting st) as [|n]; cbn [fst snd]; [split; [exact Hsame | constructor]|].
    split; [|constructor]. destruct outcome as [res | err]; cbn [confirmSettled].
    + split; cbn; auto. now apply (from_response_snoc evs _ st).
    + split; cbn; auto. now apply (from_response_snoc evs _ st).
  - destruct (cancels_waiting st) as [|n]; cbn [fst snd]; [split; [exact Hsame | constructor]|].
    split; [|constructor]. split; cbn; try discriminate;
      try (intros k v Hv; rewrite lookup_empty in Hv; discriminate).
    left. split; reflexivity.
Qed.


Lemma run_app mime t st evs evs' :
  run mime t st (evs ++ evs') =
  (fst (run mime t (fst (run mime t st evs)) evs'),
   snd (run mime t st evs) ++ snd (run mime t (fst (run mime t st evs)) evs')).
Proof.
  revert st. induction evs as [|ev evs IH]; intros st; cbn [run app fst snd].
  - now destruct (run mime t st evs').
  - destruct (step mime t st ev) as [st1 out1]. rewrite IH.
    destruct (run mime t st1 evs) as [st2 out2]. cbn [fst snd].
    now rewrite app_assoc.
Qed.

Lemma run_snoc mime t st evs ev :
  run mime t st (evs ++ [ev]) =
  (fst (step mime t (fst (run mime t st evs)) ev),
   snd (run mime t st evs) ++ snd (step mime t (fst (run mime t st evs)) ev)).
Proof.
  rewrite run_app. cbn [run].
  destruct (step mime t (fst (run mime t st evs)) ev) as [st1 out1]. cbn [fst snd].
  now rewrite app_nil_r.
Qed.

Lemma initial_inv : Inv [] initial.
Proof.
  split; cbn; try discriminate;
    try (intros k v Hv; rewrite lookup_empty in Hv; discriminate).
  left. split; reflexivity.
Qed.

Lemma run_inv mime t evs : Inv evs (fst (run mime t initial evs)).
Proof.
  induction evs as [|ev evs IH] using rev_ind; [apply initial_inv|].
  rewrite run_snoc. cbn [fst]. now apply step_inv.
Qed.

Lemma Inv_later evs evs' st : Inv evs st -> from_response (evs ++ evs') st.
Proof.
  intros [_ _ _ [H | (res & Hin & H)]]; [now left|].
  right. exists res. split; [apply in_or_app; now left | exact H].
Qed.

(** Every request of a session is sent from a state the session reaches,
    by one of its events. *)
Lemma run_requests mime t evs r :
  In r (snd (run mime t initial evs)) ->
  exists evs1 evs2, evs = evs1 ++ evs2 /\
    Inv evs1 (fst (run mime t initial evs1)) /\ sent_from (fst (run mime t initial evs1)) r.
Proof.
  induction evs as [|ev evs IH] using rev_ind; [intros []|].
  rewrite run_snoc. cbn [snd]. intros [Hr | Hr]%in_app_or.
  - destruct (IH Hr) as (evs1 & evs2 & -> & HI & Hsent).
    exists evs1, (evs2 ++ [ev]). now rewrite app_assoc.
  - exists evs, [ev]. split; [reflexivity|]. split; [apply run_inv|].
    destruct (step_inv mime t evs _ ev (run_inv mime t evs)) as [_ Hall].
    rewrite List.Forall_forall in Hall. now apply Hall.
Qed.

(** X13. Whatever the user does and however the calls to the back end end,
    every upload request the import view sends carries a file that has
    passed the drop zone (of type application/x-moz-file, or CSV or PDF by
    MIME type or extension, with the type file-selector leaves it with; at
    most 10 MiB) and the id of one of the four accounts of the account
    selector. *)
Theorem import_flow_uploads_checked_file (mime : string -> option string)
    (t : string -> string) (evs : list Event)
    (f : Upload.File) (a : string) (s : option SourceType) :
  In (UploadRequest f a s) (snd (run mime t initial evs)) ->
  Upload.is_moz_file f || (Upload.is_csv f || Upload.is_pdf f) = true /\
  (Upload.size f <= 10 * 1024 * 1024)%N /\
  a ∈ ["acc-1"; "acc-2"; "acc-3"; "acc-4"].
Proof.
  intros Hr. apply run_requests in Hr as (evs1 & evs2 & _ & [Hf Ha _ _] & Hsent).
  destruct Hsent as (_ & Hfile & Hacc & _ & _).
  specialize (Hf f Hfile). unfold Upload.passes in Hf.
  apply andb_true_iff in Hf as [Hfmt Hsize].
  rewrite fileAccepted_formats in Hfmt. apply fileMatchSize_spec in Hsize.
  split; [exact Hfmt|]. split; [exact Hsize|]. exact (Ha a Hacc).
Qed.

Lemma import_flow_uploads_checked_file_witness :
  snd (run Upload.sample_mime_types (fun key => key) initial sample_session) =
    [UploadRequest Upload.statement "acc-1" None;
     ConfirmRequest "imp-1" (Some {["tmp-2" := "Bar"]})] /\
  Upload.is_moz_file Upload.statement ||
    (Upload.is_csv Upload.statement || Upload.is_pdf Upload.statement) = true /\
  (Upload.size Upload.statement <= 10 * 1024 * 1024)%N /\
  "acc-1" ∈ ["acc-1"; "acc-2"; "acc-3"; "acc-4"].
Proof.
  split; [vm_compute; reflexivity|].
  apply (import_flow_uploads_checked_file Upload.sample_mime_types (fun key => key)
           sample_session Upload.statement "acc-1" None).
  vm_compute. now left.
Defined.

(** X14. Every confirm request and every delete request of the import view
    names an import id that is not empty and that an upload response of the
    session announced; the category overrides of a confirm request, when it
    has any, are not empty, and each is a category that is not empty, for a
    row of the preview of that response, and different from the guess of the
    row. *)
Theorem import_flow_requests_name_a_preview (mime : string -> option string)
    (t : string -> string) (evs : list Event)
    (r : Request) :
  In r (snd (run mime t initial evs)) ->
  match r with
  | UploadRequest _ _ _ => True
  | ConfirmRequest i ov =>
    i <> "" /\
    exists res, In (UploadSettled (Ok res)) evs /\ res_id res = i /\
      match ov with
      | Some m => m <> ∅ /\
                  forall k v, m !! k = Some v -> user_choice (res_transactions res) k v
      | None => True
      end
  | DeleteRequest i =>
    i <> "" /\ exists res, In (UploadSettled (Ok res)) evs /\ res_id res = i
  end.
Proof.
  intros Hr. apply run_requests in Hr as (evs1 & evs2 & -> & HI & Hsent).
  pose proof (Inv_later evs1 evs2 _ HI) as Hres. destruct HI as [_ _ Ho _].
  destruct r as [f a s | i ov | i]; [exact I | |].
  - destruct Hsent as (_ & Hid & Hne & Hov). split; [exact Hne|].
    destruct Hres as [[Hnone _] | (res & Hin & Hid' & Htx & _)]; [congruence|].
    exists res. split; [exact Hin|]. split; [congruence|].
    destruct ov as [m|]; [|exact I]. destruct Hov as [-> Hne'].
    split; [exact Hne'|]. intros k v Hv. rewrite <- Htx. now apply Ho.
  - destruct Hsent as (_ & Hid & Hne). split; [exact Hne|].
    destruct Hres as [[Hnone _] | (res & Hin & Hid' & _)]; [congruence|].
    exists res. split; [exact Hin | congruence].
Qed.

Lemma import_flow_requests_name_a_preview_witness :
  exists res, In (UploadSettled (Ok res)) sample_session /\ res_id res = "imp-1" /\
    forall k v, ({["tmp-2" := "Bar"]} : gmap string string) !! k = Some v ->
                user_choice (res_transactions res) k v.
Proof.
  destruct (import_flow_requests_name_a_preview Upload.sample_mime_types (fun key => key) sample_session
              (ConfirmRequest "imp-1" (Some {["tmp-2" := "Bar"]})))
    as (_ & res & Hin & Hid & _ & Hov).
  - vm_compute. right. now left.
  - exists res. auto.
Defined.

Lemma filter_app_length {A} (f : A -> bool) (l l' : list A) :
  length (List.filter f (l ++ l')) =
  (length (List.filter f l) + length (List.filter f l'))%nat.
Proof. now rewrite List.filter_app, length_app. Qed.

(** The confirm requests so far against the upload responses so far: a
    preview on display has not been confirmed yet. *)
Lemma confirms_bounded mime t evs :
  let st := fst (run mime t initial evs) in
  let confirms := length (List.filter is_confirm (snd (run mime t initial evs))) in
  let previews := length (List.filter is_upload_success evs) in
  (confirms + match state st with preview => 1 | _ => 0 end <= previews)%nat.
Proof.
  induction evs as [|ev evs IH] using rev_ind; [cbn; lia|].
  cbv zeta in *. rewrite run_snoc. cbn [fst snd]. rewrite !filter_app_length.
  set (st := fst (run mime t initial evs)) in *.
  set (confirms := length (List.filter is_confirm (snd (run mime t initial evs)))) in *.
  set (previews := length (List.filter is_upload_success evs)) in *.
  clearbody st confirms previews.
  destruct ev as [g files | key | i | | tev | | | | outcome | outcome | ]; cbn [step].
  - destruct (state st) eqn:Hs; cbn [fst snd List.filter length is_upload_success];
      try (rewrite Hs; lia).
    assert (Hst : state (foldl (fun s f => setFile f s) st (Upload.onFileSelect_calls mime g files))
                  = upload).
    { clear -Hs. revert st Hs.
      induction (Upload.onFileSelect_calls mime g files) as [|c cs IHc]; intros st Hs;
        [exact Hs | apply IHc; exact Hs]. }
    rewrite Hst. lia.
  - destruct (state st) eqn:Hs; cbn; rewrite ?Hs; lia.
  - destruct (state st) eqn:Hs; cbn [fst snd List.filter length is_upload_success];
      try (rewrite Hs; lia).
    unfold selectAccount. destruct (accounts !! i); cbn; rewrite ?Hs; lia.
  - destruct (state st) eqn:Hs; cbn [fst snd List.filter length is_upload_success];
      try (rewrite Hs; lia).
    destruct (canUpload st); [|cbn; rewrite Hs; lia].
    unfold handleUpload. destruct (file st), (accountId st);
      try (cbn; rewrite Hs; lia).
    destruct (bool_decide _); cbn; rewrite ?Hs; lia.
  - destruct (state st) eqn:Hs; cbn [fst snd List.filter length is_upload_success];
      try (rewrite Hs; lia).
    destruct (edit_step _ _ _). cbn. rewrite Hs. lia.
  - destruct (state st) eqn:Hs; cbn [fst snd List.filter length is_upload_success];
      try (rewrite Hs; lia).
    unfold handleCancel. destruct (importId st); [destruct (bool_decide _)|];
      cbn; rewrite ?Hs; lia.
  - destruct (state st) eqn:Hs; cbn [fst snd List.filter length is_upload_success];
      try (rewrite Hs; lia).
    unfold handleConfirm. destruct (importId st); [destruct (bool_decide _)|];
      cbn; rewrite ?Hs; lia.
  - destruct (state st) eqn:Hs; cbn; rewrite ?Hs; lia.
  - destruct (uploads_waiting st); destruct outcome; cbn; destruct (state st); lia.
  - destruct (confirms_waiting st); destruct outcome; cbn; destruct (state st); lia.
  - destruct (cancels_waiting st); cbn; destruct (state st); lia.
Qed.

(** X15. The import view sends at most one confirm request for each preview
    it receives: in every session, the number of confirm requests is at most
    the number of successful upload responses. *)
Theorem import_flow_confirms_each_preview_once (mime : string -> option string)
    (t : string -> string) (evs : list Event) :
  (length (List.filter is_confirm (snd (run mime t initial evs))) <=
   length (List.filter is_upload_success evs))%nat.
Proof. pose proof (confirms_bounded mime t evs) as H. cbv zeta in H. lia. Qed.


(** X16. A retry after a failed upload keeps the selection: from the upload
    form with a file and an account chosen, a failed upload leads to the
    error screen, with the message of the error (the translated errorTitle
    when what was thrown is not an Error) and without an upload button, and
    Retry followed by Upload sends the same upload request once more. *)
Theorem import_flow_retry_sends_again (mime : string -> option string)
    (t : string -> string) (st : State)
    (err : option string) :
  state st = upload ->
  canUpload st = true ->
  exists f a,
    file st = Some f /\ accountId st = Some a /\
    let failed := fst (run mime t st [ClickUpload; UploadSettled (Err err)]) in
    state failed = error /\
    errorMessage failed = Some (default (t "errorTitle") err) /\
    snd (step mime t failed ClickUpload) = [] /\
    snd (run mime t st [ClickUpload; UploadSettled (Err err); ClickRetry; ClickUpload]) =
      [UploadRequest f a (source st); UploadRequest f a (source st)].
Proof.
  intros Hs Hcan. unfold canUpload in Hcan. apply andb_true_iff in Hcan as [Hf Ha].
  apply bool_decide_eq_true in Hf as [f Hf].
  destruct (accountId st) as [a|] eqn:Hacc; [|discriminate].
  apply negb_true_iff, bool_decide_eq_false in Ha.
  exists f, a. split; [exact Hf|]. split; [reflexivity|].
  cbn [run step]. rewrite Hs. unfold canUpload, handleUpload.
  rewrite Hf, Hacc. rewrite (bool_decide_true (is_Some (Some f))) by eauto.
  rewrite (bool_decide_false (a = "")) by assumption.
  cbn. rewrite Hf, Hacc. rewrite (bool_decide_true (is_Some (Some f))) by eauto.
  rewrite (bool_decide_false (a = "")) by assumption.
  cbn. auto.
Qed.

Lemma import_flow_retry_sends_again_witness :
  snd (run Upload.sample_mime_types (fun key => key) ready
         [ClickUpload; UploadSettled (Err None); ClickRetry; ClickUpload]) =
    [UploadRequest Upload.statement "acc-1" None;
     UploadRequest Upload.statement "acc-1" None] /\
  errorMessage (fst (run Upload.sample_mime_types (fun key => key) ready [ClickUpload; UploadSettled (Err None)]))
    = Some "errorTitle".
Proof.
  destruct (import_flow_retry_sends_again Upload.sample_mime_types (fun key => key) ready None)
    as (f & a & Hf & Ha & _ & Hmsg & _ & Hreq).
  - reflexivity.
  - reflexivity.
  - vm_compute in Hf, Ha. injection Hf as <-. injection Ha as <-.
    split; [exact Hreq | exact Hmsg].
Defined.

(** X17. Cancelling a preview sends one delete request for the import and,
    once that call has settled, whatever its outcome, resets the view: the
    state stays preview while the call is waiting, and afterwards the flow
    is at the upload form with no file, source, account, import id,
    transactions, parsing errors, overrides or error message, so that the
    upload button does nothing. *)
Theorem import_flow_cancel_discards_preview (mime : string -> option string)
    (t : string -> string) (st : State)
    (i : string) :
  state st = preview ->
  importId st = Some i ->
  i <> "" ->
  let '(st', sent) := run mime t st [ClickCancel; CancelSettled] in
  sent = [DeleteRequest i] /\
  state (fst (step mime t st ClickCancel)) = preview /\
  st' = reset st /\
  state st' = upload /\ file st' = None /\ source st' = None /\ accountId st' = None /\
  importId st' = None /\ transactions st' = [] /\ parseErrors st' = [] /\
  categoryOverrides st' = ∅ /\ errorMessage st' = None /\
  step mime t st' ClickUpload = (st', []).
Proof.
  intros Hs Hid Hne. cbn [run step]. rewrite Hs. unfold handleCancel.
  rewrite Hid. rewrite bool_decide_false by assumption.
  cbn. rewrite Hs. repeat split; reflexivity.
Qed.

Lemma import_flow_cancel_discards_preview_witness :
  run Upload.sample_mime_types (fun key => key) previewing [ClickCancel; CancelSettled] =
    (initial, [DeleteRequest "imp-1"]).
Proof.
  pose proof (import_flow_cancel_discards_preview Upload.sample_mime_types (fun key => key) previewing "imp-1"
                eq_refl eq_refl) as H.
  destruct (run Upload.sample_mime_types (fun key => key) previewing [ClickCancel; CancelSettled]) as [st' sent].
  destruct H as (-> & _ & -> & _); [discriminate|].
  reflexivity.
Defined.

End ImportFlowFacts.

Module ApiFacts.
Import Api.

Lemma spread_lookup (a b : gmap string string) (k : string) :
  spread a b !! k = match b !! k with Some v => Some v | None => a !! k end.
Proof.
  unfold spread. rewrite lookup_union. destruct (b !! k), (a !! k); reflexivity.
Qed.

(** X18. The headers apiFetch gives to fetch: Authorization is Bearer
    followed by the token when a token that is not empty is given, and the
    caller's own otherwise; Content-Type is the caller's when the caller
    gives one, application/json when the body is not a FormData, and absent
    for a FormData body; every other header is the caller's. The URL is
    API_BASE followed by the endpoint. *)
Theorem api_request_headers (API_BASE endpoint : string) (options : ApiOptions) :
  let call := apiFetch_call API_BASE endpoint options in
  let given := default ∅ (headers options) in
  url call = API_BASE +:+ endpoint /\
  (forall tk, token options = Some tk -> tk <> "" ->
     fetch_headers call !! "Authorization" = Some ("Bearer " +:+ tk)) /\
  (token options = None \/ token options = Some "" ->
     fetch_headers call !! "Authorization" = given !! "Authorization") /\
  fetch_headers call !! "Content-Type" =
    match given !! "Content-Type" with
    | Some v => Some v
    | None =>
      match body options with
      | Some (FormDataBody _) => None
      | _ => Some "application/json"
      end
    end /\
  (forall k, k <> "Authorization" -> k <> "Content-Type" ->
     fetch_headers call !! k = given !! k).
Proof.
  cbv zeta. unfold apiFetch_call. cbn [url fetch_headers].
  set (base := if match body options with Some (FormDataBody _) => true | _ => false end
               then (∅ : gmap string string) else {["Content-Type" := "application/json"]}).
  set (given := default ∅ (headers options)).
  assert (Hauth : spread base given !! "Authorization" = given !! "Authorization").
  { rewrite spread_lookup. destruct (given !! "Authorization"); [reflexivity|].
    unfold base. now destruct (body options) as [[]|]. }
  assert (Hct : spread base given !! "Content-Type" =
                match given !! "Content-Type" with
                | Some v => Some v
                | None => match body options with
                          | Some (FormDataBody _) => None
                          | _ => Some "application/json"
                          end
                end).
  { rewrite spread_lookup. destruct (given !! "Content-Type"); [reflexivity|].
    unfold base. now destruct (body options) as [[]|]. }
  assert (Hother : forall k, k <> "Content-Type" -> spread base given !! k = given !! k).
  { intros k Hk. rewrite spread_lookup. destruct (given !! k); [reflexivity|].
    unfold base. destruct (body options) as [[]|];
      rewrite ?lookup_empty, ?lookup_singleton_ne; congruence. }
  split; [reflexivity|]. split; [|split; [|split]].
  - intros tk -> Hne. rewrite bool_decide_false by assumption.
    apply lookup_insert_eq.
  - intros [-> | ->]; [exact Hauth|]. now rewrite bool_decide_true.
  - destruct (token options) as [tk|]; [|exact Hct].
    destruct (bool_decide (tk = "")); [exact Hct|].
    rewrite lookup_insert_ne by discriminate. exact Hct.
  - intros k Hk1 Hk2. destruct (token options) as [tk|]; [|now apply Hother].
    destruct (bool_decide (tk = "")); [now apply Hother|].
    rewrite lookup_insert_ne by congruence. now apply Hother.
Qed.

(** X19. With options that carry only a token, api.get, api.post, api.put
    and api.del call fetch with the methods GET, POST, PUT and DELETE and
    the Content-Type application/json, post and put with the stringified
    body; api.upload posts the FormData without a Content-Type; each adds
    the Authorization header exactly when the token is not empty. *)
Theorem api_methods_with_token (API_BASE endpoint stringified : string)
    (formData : list (string * string)) (tk : option string) :
  let json := {["Content-Type" := "application/json"]} in
  get API_BASE endpoint (with_token tk) =
    {| url := API_BASE +:+ endpoint; fetch_method := Some "GET"; fetch_body := None;
       fetch_headers := bearer tk ∪ json |} /\
  post API_BASE endpoint stringified (with_token tk) =
    {| url := API_BASE +:+ endpoint; fetch_method := Some "POST";
       fetch_body := Some (TextBody stringified);
       fetch_headers := bearer tk ∪ json |} /\
  put API_BASE endpoint stringified (with_token tk) =
    {| url := API_BASE +:+ endpoint; fetch_method := Some "PUT";
       fetch_body := Some (TextBody stringified);
       fetch_headers := bearer tk ∪ json |} /\
  del API_BASE endpoint (with_token tk) =
    {| url := API_BASE +:+ endpoint; fetch_method := Some "DELETE"; fetch_body := None;
       fetch_headers := bearer tk ∪ json |} /\
  upload API_BASE endpoint formData (with_token tk) =
    {| url := API_BASE +:+ endpoint; fetch_method := Some "POST";
       fetch_body := Some (FormDataBody formData);
       fetch_headers := bearer tk |}.
Proof.
  cbv zeta. unfold get, post, put, del, upload, apiFetch_call, with_defaults, with_token, bearer.
  cbn [token method body headers default spread].
  assert (Hins : forall (v : string) (m : gmap string string),
            <["Authorization" := v]> (∅ ∪ m) = {["Authorization" := v]} ∪ m).
  { intros v m. rewrite (left_id ∅ (∪)). now rewrite insert_union_singleton_l. }
  destruct tk as [s|]; [destruct (bool_decide (s = ""))|];
    rewrite ?Hins, ?(left_id ∅ (∪)), ?insert_empty; repeat split; reflexivity.
Qed.

(** X20. A response whose status is not between 200 and 299 never yields a
    value: apiFetch throws an ApiError with the status of the response,
    whose message is the detail of the JSON body when the detail is truthy
    (the detail itself when it is a string, String(detail) otherwise),
    Unknown error when the JSON body has no detail or a falsy one such as
    the empty string, and the status text (Unknown error when it is empty)
    when the body is not JSON, so that a message taken from a string is
    never empty; a JSON body that is null makes it throw a TypeError
    instead. *)
Theorem api_failed_response (r : Response) :
  ok r = false ->
  (forall v, apiFetch_result r <> Ok v) /\
  match json r with
  | Some JNull => apiFetch_result r = Err TypeError
  | Some v =>
    exists m, apiFetch_result r = Err (ApiError (status r) m) /\
      (forall s, m = Literal s -> s <> "") /\
      (forall s, detail v = Some (JString s) -> s <> "" -> m = Literal s) /\
      (forall d, detail v = Some d -> truthy d = false -> m = Literal "Unknown error") /\
      (detail v = None -> m = Literal "Unknown error") /\
      (forall d, detail v = Some d -> truthy d = true -> m = message_of d)
  | None =>
    apiFetch_result r =
      Err (ApiError (status r)
             (Literal (if bool_decide (statusText r = "") then "Unknown error"
                       else statusText r)))
  end.
Proof.
  intros Hok. unfold apiFetch_result. rewrite Hok. cbn [negb].
  assert (Hmsg : forall v,
    let m := match detail v with
             | Some d => if truthy d then message_of d else Literal "Unknown error"
             | None => Literal "Unknown error"
             end in
    (forall s, m = Literal s -> s <> "") /\
    (forall s, detail v = Some (JString s) -> s <> "" -> m = Literal s) /\
    (forall d, detail v = Some d -> truthy d = false -> m = Literal "Unknown error") /\
    (detail v = None -> m = Literal "Unknown error") /\
    (forall d, detail v = Some d -> truthy d = true -> m = message_of d)).
  { intros v. cbv zeta. destruct (detail v) as [d|].
    - split; [|split; [|split; [|split; [discriminate|]]]].
      + intros s0 Hs ->.
        destruct d as [|b|q|s| |]; cbn [truthy message_of] in Hs; try discriminate Hs.
        * destruct b; discriminate Hs.
        * destruct (negb (Qeq_bool q 0)); discriminate Hs.
        * destruct (bool_decide_reflect (s = "")); cbn [negb] in Hs;
            [discriminate Hs | congruence].
      + intros s [= ->] Hs. cbn [truthy message_of].
        now rewrite bool_decide_false.
      + intros d' [= <-] ->. reflexivity.
      + intros d' [= <-] ->. reflexivity.
    - split; [intros s [= <-]; discriminate|].
      split; [discriminate|]. split; [discriminate|]. split; [reflexivity | discriminate]. }
  split.
  - intros v. destruct (json r) as [[]|]; discriminate.
  - destruct (json r) as [v|]; cbn [default].
    + destruct v; try reflexivity; (eexists; split; [reflexivity | apply Hmsg]).
    + cbn. destruct (bool_decide (statusText r = "")); reflexivity.
Qed.

Lemma api_failed_response_witness :
  apiFetch_result validation_failure =
    Err (ApiError 422 (Literal "File type not supported")).
Proof.
  destruct (api_failed_response validation_failure eq_refl) as [_ (m & -> & _ & Hm & _)].
  rewrite (Hm "File type not supported" eq_refl); [reflexivity | discriminate].
Defined.

End ApiFacts.

Module TransactionsFacts.
Import Transactions.

(** X21. Toggling the selection of a transaction flips the membership of its
    id and of no other id and changes the size of the selection by one;
    toggling the same id twice gives back the selection. *)
Theorem selection_toggle (i : Z) (prev : gset Z) :
  let next := handleToggleSelect i prev in
  (i ∈ next <-> i ∉ prev) /\
  (forall j, j <> i -> (j ∈ next <-> j ∈ prev)) /\
  handleToggleSelect i next = prev /\
  size next = (if bool_decide (i ∈ prev) then size prev - 1 else size prev + 1)%nat.
Proof.
  cbv zeta. unfold handleToggleSelect.
  destruct (bool_decide_reflect (i ∈ prev)) as [Hin | Hout].
  - split; [set_solver|]. split; [set_solver|]. split.
    + rewrite bool_decide_false by set_solver.
      apply set_eq. intros j. destruct (decide (j = i)) as [->|]; set_solver.
    + rewrite size_difference by set_solver. now rewrite size_singleton.
  - split; [set_solver|]. split; [set_solver|]. split.
    + rewrite bool_decide_true by set_solver. set_solver.
    + rewrite size_union by set_solver. now rewrite size_singleton.
Qed.

Lemma size_page_ids (txs : list Transaction) :
  NoDup (map id txs) ->
  size (list_to_set (map id txs) : gset Z) = length txs.
Proof. intros Hnd. rewrite size_list_to_set by assumption. apply length_map. Qed.

Lemma all_rows_selected (txs : list Transaction) (sel : gset Z) :
  (forall tx, tx ∈ txs -> isSelected sel tx = true) <->
  list_to_set (map id txs) ⊆ sel.
Proof.
  unfold isSelected. split.
  - intros H j Hj. apply elem_of_list_to_set, list_elem_of_fmap in Hj as (tx & -> & Htx).
    specialize (H tx Htx). now apply bool_decide_eq_true in H.
  - intros H tx Htx. apply bool_decide_eq_true, H, elem_of_list_to_set.
    apply list_elem_of_fmap. now exists tx.
Qed.

(** X22. When the ids of the page are distinct and the selection holds only
    ids of the page, the checkbox in the table head is checked exactly when
    the page is not empty and every row is selected; toggling it when it is
    checked clears the selection, and toggling it when it is not checked, on
    a page that is not empty, selects every row and leaves it checked. *)
Theorem select_all_checkbox (txs : list Transaction) (sel : gset Z) :
  NoDup (map id txs) ->
  sel ⊆ list_to_set (map id txs) ->
  (allSelected txs sel = true <->
   txs <> [] /\ forall tx, tx ∈ txs -> isSelected sel tx = true) /\
  (allSelected txs sel = true -> handleToggleAll txs sel = ∅) /\
  (txs <> [] -> allSelected txs sel = false ->
   allSelected txs (handleToggleAll txs sel) = true /\
   forall tx, tx ∈ txs -> isSelected (handleToggleAll txs sel) tx = true).
Proof.
  intros Hnd Hsub. pose proof (size_page_ids txs Hnd) as Hsize.
  assert (Hpos : txs <> [] <-> (0 < length txs)%nat).
  { destruct txs; cbn; split; intros; try lia; congruence. }
  split; [|split].
  - unfold allSelected. rewrite andb_true_iff, !bool_decide_eq_true, <- Hpos.
    rewrite all_rows_selected. split; intros [Hne H]; (split; [exact Hne|]).
    + assert (sel = list_to_set (map id txs)) as Heq; [|now rewrite Heq].
      apply set_subseteq_size_eq; [exact Hsub | lia].
    + rewrite <- Hsize. f_equal. apply set_eq. intros j. split; [apply Hsub | apply H].
  - unfold allSelected, handleToggleAll. intros [_ H]%andb_true_iff.
    apply bool_decide_eq_true in H. now rewrite bool_decide_true.
  - intros Hne Hnot. unfold allSelected, handleToggleAll in *.
    apply Hpos in Hne. rewrite (bool_decide_true _ Hne) in *. cbn [andb] in *.
    apply bool_decide_eq_false in Hnot. rewrite (bool_decide_false _ Hnot).
    split; [apply bool_decide_eq_true; exact Hsize|].
    now apply all_rows_selected.
Qed.

Lemma select_all_checkbox_witness :
  allSelected sample_page {[41]} = false /\
  allSelected sample_page (handleToggleAll sample_page {[41]}) = true /\
  handleToggleAll sample_page (handleToggleAll sample_page {[41]}) = ∅.
Proof.
  assert (Hnd : NoDup (map id sample_page)).
  { apply (bool_decide_unpack _). vm_compute. exact I. }
  assert (Hsub : ({[41]} : gset Z) ⊆ list_to_set (map id sample_page)).
  { apply (bool_decide_unpack _). vm_compute. exact I. }
  assert (Hsub' : handleToggleAll sample_page {[41]} ⊆ list_to_set (map id sample_page)).
  { apply (bool_decide_unpack _). vm_compute. exact I. }
  destruct (select_all_checkbox sample_page {[41]} Hnd Hsub) as (_ & _ & Hall).
  destruct (select_all_checkbox sample_page _ Hnd Hsub') as (_ & Hclear & _).
  assert (Hfalse : allSelected sample_page {[41]} = false) by (vm_compute; reflexivity).
  destruct (Hall ltac:(discriminate) Hfalse) as [Htrue _].
  split; [exact Hfalse|]. split; [exact Htrue|]. now apply Hclear.
Defined.

(** The header checkbox compares sizes only: a selection made on another
    page, as large as this page, checks it although no row is selected. *)
Example select_all_stale_selection :
  allSelected sample_page {[7; 8]} = true /\
  Forall (fun tx => isSelected {[7; 8]} tx = false) sample_page /\
  handleToggleAll sample_page {[7; 8]} = ∅.
Proof. vm_compute. repeat split; repeat constructor. Qed.


(** [Math.ceil(total / limit)] on integers. *)
Lemma ceil_div (total lim : Z) :
  0 < lim -> Math_ceil (inject_Z total / inject_Z lim) = - ((- total) / lim).
Proof.
  intros Hlim. destruct lim as [|p|p]; try lia.
  unfold Math_ceil, Qceiling, Qfloor, Qdiv, Qinv, Qmult, Qopp, inject_Z. cbn [Qnum Qden].
  rewrite Z.mul_1_r. change (Z.pos (1 * p)) with (Z.pos p). reflexivity.
Qed.

Lemma totalPages_bounds (total lim : Z) :
  0 < lim -> 0 < total ->
  let n := totalPages total lim in
  1 <= n /\ (n - 1) * lim < total <= n * lim.
Proof.
  intros Hlim Htot. cbv zeta. unfold totalPages. rewrite ceil_div by assumption.
  pose proof (Z.div_mod (- total) lim ltac:(lia)) as Hdm.
  pose proof (Z.mod_pos_bound (- total) lim Hlim) as Hmod.
  set (q := (- total) / lim) in *. set (r := (- total) mod lim) in *.
  assert (Hq : q <= -1) by nia.
  rewrite Z.max_r by lia. split; [lia|]. nia.
Qed.

Lemma PAGE_SIZES_positive (size : Z) : size ∈ PAGE_SIZES -> 0 < size.
Proof.
  unfold PAGE_SIZES. rewrite !elem_of_cons, elem_of_nil. lia.
Qed.

Lemma paging_step_inv (total : Z) (p : Paging) (ev : PagingEvent) :
  0 < total ->
  limit p ∈ PAGE_SIZES /\ 1 <= page p <= totalPages total (limit p) ->
  limit (paging_step total p ev) ∈ PAGE_SIZES /\
  1 <= page (paging_step total p ev)
    <= totalPages total (limit (paging_step total p ev)).
Proof.
  intros Htot [Hlim Hpage].
  assert (Hone : forall size, size ∈ PAGE_SIZES -> 1 <= 1 <= totalPages total size).
  { intros size Hs. apply PAGE_SIZES_positive in Hs.
    pose proof (totalPages_bounds total size Hs Htot). cbv zeta in *. lia. }
  destruct ev as [| | i |]; cbn [paging_step].
  - destruct (Z.ltb_spec 0 total); [|lia]. cbn [andb].
    destruct (Z.leb_spec (page p) 1); cbn [negb page limit]; [auto|].
    split; [exact Hlim | lia].
  - destruct (Z.ltb_spec 0 total); [|lia]. cbn [andb].
    destruct (Z.leb_spec (totalPages total (limit p)) (page p)); cbn [negb page limit];
      [auto|]. split; [exact Hlim | lia].
  - destruct (Z.ltb_spec 0 total); [|lia].
    destruct (PAGE_SIZES !! i) as [size|] eqn:E; [|auto].
    destruct (size =? limit p); [auto|]. cbn [page limit].
    apply list_elem_of_lookup_2 in E. split; [exact E | now apply Hone].
  - cbn [page limit]. split; [exact Hlim | now apply Hone].
Qed.

Lemma paging_run_inv (total : Z) (evs : list PagingEvent) (p : Paging) :
  0 < total ->
  limit p ∈ PAGE_SIZES /\ 1 <= page p <= totalPages total (limit p) ->
  limit (paging_run total p evs) ∈ PAGE_SIZES /\
  1 <= page (paging_run total p evs) <= totalPages total (limit (paging_run total p evs)).
Proof.
  intros Htot. revert p. induction evs as [|ev evs IH]; intros p Hp; [exact Hp|].
  cbn [paging_run foldl]. apply IH. now apply paging_step_inv.
Qed.

(** X23. While the total stays the same and positive, the pagination keeps
    the page in range: after any clicks on the two arrows, choices of a page
    size and changes of the filters, the page size is 10, 20 or 50, the page
    is between 1 and totalPages, and the showing line has 1 <= from <= to <=
    total with at most limit rows, exactly limit rows before the last page,
    and to = total on the last page. *)
Theorem pagination_stays_in_range (total : Z) (evs : list PagingEvent) :
  0 < total ->
  let p := paging_run total initial_paging evs in
  let first := showing_from (page p) (limit p) total in
  let last := showing_to (page p) (limit p) total in
  limit p ∈ PAGE_SIZES /\
  1 <= page p <= totalPages total (limit p) /\
  1 <= first <= last /\ last <= total /\
  last - first + 1 <= limit p /\
  (page p < totalPages total (limit p) -> last - first + 1 = limit p) /\
  (page p = totalPages total (limit p) -> last = total).
Proof.
  intros Htot. cbv zeta.
  destruct (paging_run_inv total evs initial_paging Htot) as [Hlim Hpage].
  { split; [unfold PAGE_SIZES, initial_paging; cbn; set_solver|].
    cbn [initial_paging page limit].
    pose proof (totalPages_bounds total 20 ltac:(lia) Htot). cbv zeta in *. lia. }
  set (p := paging_run total initial_paging evs) in *.
  pose proof (PAGE_SIZES_positive _ Hlim) as Hpos.
  pose proof (totalPages_bounds total (limit p) Hpos Htot) as Hn. cbv zeta in Hn.
  set (n := totalPages total (limit p)) in *.
  unfold showing_from, showing_to.
  destruct (Z.eqb_spec total 0); [lia|].
  split; [exact Hlim|]. split; [exact Hpage|].
  assert (Hfirst : (page p - 1) * limit p < total) by nia.
  repeat split; try nia.
Qed.

Lemma pagination_stays_in_range_witness :
  paging_run 45 initial_paging [ClickNext; ClickNext; ClickNext] =
    {| page := 3; limit := 20 |} /\
  1 <= showing_from 3 20 45 <= showing_to 3 20 45 /\
  showing_to 3 20 45 <= 45.
Proof.
  split; [reflexivity|].
  pose proof (pagination_stays_in_range 45 [ClickNext; ClickNext; ClickNext] eq_refl) as H.
  cbv zeta in H. destruct H as (_ & _ & Hrange & Hlast & _).
  split; [exact Hrange | exact Hlast].
Defined.

Lemma popover_step_selected toLowerCase (p : PopoverProps) (st : PopoverState)
    (ev : PopoverEvent) :
  (selected st = currentCategoryId p \/
   exists c, selected st = Some c /\ c ∈ map cat_id (categories p)) ->
  (selected (fst (popover_step toLowerCase p st ev)) = currentCategoryId p \/
   exists c, selected (fst (popover_step toLowerCase p st ev)) = Some c /\
             c ∈ map cat_id (categories p)) /\
  forall c a, In (onConfirm c a) (snd (popover_step toLowerCase p st ev)) ->
    Some c <> currentCategoryId p /\ c ∈ map cat_id (categories p) /\
    selected st = Some c /\ a = applyToSimilar st.
Proof.
  intros Hst. destruct ev as [v | i | b | |]; cbn [popover_step].
  - split; [exact Hst | intros c a []].
  - destruct (filtered toLowerCase p st !! i) as [cat|] eqn:E;
      [|split; [exact Hst | intros c a []]].
    split; [|intros c a []]. right. exists (cat_id cat). split; [reflexivity|].
    apply list_elem_of_lookup_2, list_elem_of_In in E.
    unfold filtered in E. apply filter_In in E as [E _].
    apply list_elem_of_fmap. exists cat. split; [reflexivity | now apply list_elem_of_In].
  - split; [exact Hst | intros c a []].
  - destruct (selected st) as [s|] eqn:Hsel;
      [|cbn [fst snd]; split; [rewrite Hsel; exact Hst | intros c a []]].
    destruct (bool_decide_reflect (Some s = currentCategoryId p)) as [Heq | Hne];
      cbn [fst snd]; (split; [rewrite Hsel; exact Hst|]); [intros c a []|].
    intros c a [[= <- <-] | []]. split; [exact Hne|].
    split; [|split; reflexivity].
    destruct Hst as [Hst | (c & [= <-] & Hc)]; [congruence | exact Hc].
  - split; [exact Hst|]. intros c a [H | []]. discriminate.
Qed.

(** X24. The category popover confirms only a change to a category of its
    list: in every session with the popover, each call of onConfirm carries
    a category id that is not the current category of the transaction and
    that is the id of one of the categories the popover was given. *)
Theorem popover_confirms_changed_category (toLowerCase : string -> string)
    (p : PopoverProps) (evs : list PopoverEvent) (c : Z) (a : bool) :
  In (onConfirm c a) (snd (popover_run toLowerCase p (popover_initial p) evs)) ->
  Some c <> currentCategoryId p /\ c ∈ map cat_id (categories p).
Proof.
  assert (Hgen : forall st,
    (selected st = currentCategoryId p \/
     exists c, selected st = Some c /\ c ∈ map cat_id (categories p)) ->
    In (onConfirm c a) (snd (popover_run toLowerCase p st evs)) ->
    Some c <> currentCategoryId p /\ c ∈ map cat_id (categories p)).
  { induction evs as [|ev evs IH]; intros st Hst Hin; [destruct Hin|].
    cbn [popover_run] in Hin.
    destruct (popover_step_selected toLowerCase p st ev Hst) as [Hnext Hout].
    destruct (popover_step toLowerCase p st ev) as [st1 out1].
    specialize (IH st1 Hnext).
    destruct (popover_run toLowerCase p st1 evs) as [st2 out2].
    cbn [fst snd] in *. apply in_app_or in Hin as [Hin | Hin].
    - destruct (Hout c a Hin) as (H1 & H2 & _). now split.
    - now apply IH. }
  apply Hgen. now left.
Qed.

Lemma popover_confirms_changed_category_witness :
  snd (popover_run ascii_lower sample_popover (popover_initial sample_popover)
         [ClickConfirmAction; ChangeSearch "ut"; ClickOption 0;
          CheckApplyToSimilar true; ClickConfirmAction]) = [onConfirm 6 true] /\
  (6 : Z) ∈ map cat_id (categories sample_popover).
Proof.
  split; [vm_compute; reflexivity|].
  apply (popover_confirms_changed_category ascii_lower sample_popover
           [ClickConfirmAction; ChangeSearch "ut"; ClickOption 0;
            CheckApplyToSimilar true; ClickConfirmAction] 6 true).
  vm_compute. now left.
Defined.

End TransactionsFacts.

Module CurrencyFacts.
Import Text Format Normalization TextFacts FormatFacts.

(** A formatted amount of whole cents reads back as these cents. *)
Lemma parse_formatted_cents (g : nat) (c : Z) :
  parseLocalizedAmount (formatCurrency g (c # 100)) = Ok {| coeff := c; scale := 2 |}.
Proof.
  change (c # 100) with (decimal_value {| coeff := c; scale := 2 |}).
  unfold parseLocalizedAmount, formatCurrency. rewrite of_to_string.
  unfold formatCurrency_chars.
  rewrite round_half_expand_cents by (cbn; lia).
  cbn [decimal_value Qnum coeff scale Nat.sub Z.of_nat].
  change (10 ^ 0) with 1. rewrite Z.mul_1_r.
  set (m := Z.to_N (Z.abs c)).
  assert (Hfrac : (m mod 100 < 100)%N) by (apply N.mod_lt; discriminate).
  destruct (two_digits_spec _ Hfrac) as [Hfd _].
  assert (Hsign : forall P : ascii -> Prop, P "-"%char ->
            Forall P (if c <? 0 then ["-"%char] else [])).
  { intros P HP. destruct (c <? 0); repeat constructor; assumption. }
  rewrite strip_formatted;
    [| apply Hsign; reflexivity | apply Hsign; discriminate
     | apply digits_of_N_digit | exact Hfd].
  rewrite comma_to_point_formatted;
    [| apply Hsign; discriminate | apply digits_of_N_digit | exact Hfd].
  rewrite parse_decimal_formatted by exact Hfrac.
  f_equal. f_equal.
  assert (Hm : Z.of_N (m / 100) * 100 + Z.of_N (m mod 100) = Z.abs c).
  { rewrite <- (N2Z.inj_mul _ 100), <- N2Z.inj_add.
    rewrite N.mul_comm, <- N.div_mod by discriminate.
    unfold m. rewrite Z2N.id; lia. }
  rewrite Hm. destruct (Z.ltb_spec c 0); lia.
Qed.

(** The rational [c / 100] is an amount of whole cents, and below 2^46 in
    magnitude when [c] is below 2^46 * 100. *)
Lemma cents_below_limit (c : Z) :
  Z.abs c < 7036874417766400 ->
  ((c # 100) * 100 == inject_Z c)%Q /\ (Qabs (c # 100) < 2 ^ 46)%Q.
Proof.
  intros Hc. split.
  - unfold Qeq, Qmult, inject_Z. cbn [Qnum Qden]. lia.
  - assert (E : (2 ^ 46 == 70368744177664)%Q) by reflexivity.
    rewrite E. unfold Qabs, Qlt. cbn [Qnum Qden]. lia.
Qed.

(** X25. Different amounts of whole cents below 2^46 euros in magnitude are
    displayed differently: when the integers a and b differ and are both
    below 7036874417766400 in magnitude, a/100 and b/100 become two numbers
    that formatCurrency formats differently, whatever the grouping of the
    runtime. *)
Theorem formatCurrency_cents_injective (g : nat) (a b : Z) :
  a <> b -> Z.abs a < 7036874417766400 -> Z.abs b < 7036874417766400 ->
  exists x y,
    Number.of_decimal (a # 100) = Some x /\
    Number.of_decimal (b # 100) = Some y /\
    formatCurrency g x <> formatCurrency g y.
Proof.
  intros Hne Ha Hb.
  destruct (cents_below_limit a Ha) as [Ha1 Ha2].
  destruct (cents_below_limit b Hb) as [Hb1 Hb2].
  destruct (NumberFacts.of_decimal_cents _ _ Ha1 Ha2) as (x & Hx & Ex).
  destruct (NumberFacts.of_decimal_cents _ _ Hb1 Hb2) as (y & Hy & Ey).
  exists x, y. split; [exact Hx|]. split; [exact Hy|].
  rewrite (formatCurrency_comp g x _ Ex), (formatCurrency_comp g y _ Ey).
  intros H. apply Hne. pose proof (parse_formatted_cents g a) as Hp.
  rewrite H, parse_formatted_cents in Hp. congruence.
Qed.

Lemma formatCurrency_cents_injective_witness :
  exists x y,
    Number.of_decimal (100 # 100) = Some x /\
    Number.of_decimal (1000 # 100) = Some y /\
    formatCurrency 2 x <> formatCurrency 2 y.
Proof.
  apply (formatCurrency_cents_injective 2 100 1000); [discriminate | reflexivity..].
Defined.

(** Above the limit two amounts of whole cents can be one number, and are
    then displayed alike. *)
Example large_cents_collide :
  Number.of_decimal (9007199254740991 # 100) =
  Number.of_decimal (9007199254740990 # 100).
Proof. vm_compute. reflexivity. Qed.

Lemma integer_part_short (g : nat) (digits : chars) :
  (length digits <= 3)%nat -> integer_part g digits = digits.
Proof.
  intros H. unfold integer_part. destruct (bool_decide _); [|reflexivity].
  destruct digits as [|a [|b [|c [|d rest]]]]; try reflexivity.
  simpl in H. lia.
Qed.

(** X26. A negative amount that rounds to zero cents is displayed with a
    minus sign: every amount strictly between -0.005 and 0 is formatted as
    -0,00 followed by a no-break space and the euro sign, whatever the
    grouping of the runtime. *)
Theorem formatCurrency_negative_zero (g : nat) (q : Q) :
  (- (1 # 200) < q)%Q -> (q < 0)%Q ->
  formatCurrency g q = "-0,00" +:+ to_string nbsp +:+ "€".
Proof.
  destruct q as [n d]. unfold Qlt. cbn [Qnum Qden Qopp]. intros Hlow Hneg.
  assert (Hn : n < 0) by lia.
  unfold formatCurrency, formatCurrency_chars. cbn [Qnum].
  assert (Hround : round_half_expand ((n # d) * 100) = 0).
  { unfold round_half_expand. cbn [Qmult Qnum Qden].
    rewrite Pos.mul_1_r.
    rewrite (Z.div_small (2 * Z.abs (n * 100) + Z.pos d) (2 * Z.pos d)) by lia.
    lia. }
  rewrite Hround. destruct (Z.ltb_spec n 0); [|lia].
  rewrite integer_part_short by (vm_compute; lia). reflexivity.
Qed.

Lemma formatCurrency_negative_zero_witness :
  formatCurrency 2 (- (4 # 1000)) = "-0,00" +:+ to_string nbsp +:+ "€".
Proof.
  apply formatCurrency_negative_zero; reflexivity.
Defined.

Lemma of_string_app (a b : string) : of_string (a +:+ b) = of_string a ++ of_string b.
Proof.
  induction a as [|c a IH]; [reflexivity|].
  change (String c a +:+ b) with (String c (a +:+ b)).
  cbn [of_string String.list_ascii_of_string app]. f_equal. exact IH.
Qed.

Lemma filter_digits_none (c : ascii) (l : chars) :
  is_digit c = false -> Forall (fun x => is_digit x = true) l ->
  List.filter (fun x => bool_decide (x = c)) l = [].
Proof.
  intros Hc. induction 1 as [|x l Hx _ IH]; [reflexivity|]. cbn [List.filter].
  rewrite bool_decide_false; [exact IH|]. intros ->. congruence.
Qed.

(** The signs in a formatted amount: one minus in front of a negative
    amount, and nothing else. *)
Lemma formatCurrency_sign (g : nat) (c : ascii) (q : Q) :
  c = "-"%char \/ c = "+"%char ->
  List.filter (fun x => bool_decide (x = c)) (formatCurrency_chars g q) =
  if (Qnum q <? 0) && bool_decide (c = "-"%char) then ["-"%char] else [].
Proof.
  intros Hc. unfold formatCurrency_chars.
  assert (Hnd : is_digit c = false) by (destruct Hc as [-> | ->]; reflexivity).
  assert (Hdot : bool_decide ("."%char = c) = false)
    by (destruct Hc as [-> | ->]; reflexivity).
  rewrite !List.filter_app.
  rewrite (integer_part_filter (fun x => bool_decide (x = c))) by exact Hdot.
  rewrite (filter_digits_none c (digits_of_N _) Hnd) by apply digits_of_N_digit.
  assert (Hfrac : forall n, (n mod 100 < 100)%N) by (intros; apply N.mod_lt; discriminate).
  rewrite (filter_digits_none c (two_digits _) Hnd)
    by apply (proj1 (two_digits_spec _ (Hfrac _))).
  destruct Hc as [-> | ->]; destruct (Qnum q <? 0); reflexivity.
Qed.

Lemma occurrences_app (c : ascii) (a b : string) :
  Transactions.occurrences c (a +:+ b) =
  (Transactions.occurrences c a + Transactions.occurrences c b)%nat.
Proof.
  unfold Transactions.occurrences. now rewrite of_string_app, List.filter_app, length_app.
Qed.

Lemma occurrences_formatCurrency (g : nat) (c : ascii) (q : Q) :
  c = "-"%char \/ c = "+"%char ->
  Transactions.occurrences c (formatCurrency g q) =
  if (Qnum q <? 0) && bool_decide (c = "-"%char) then 1%nat else 0%nat.
Proof.
  intros Hc. unfold Transactions.occurrences, formatCurrency.
  rewrite of_to_string, formatCurrency_sign by exact Hc.
  now destruct (_ && _).
Qed.

End CurrencyFacts.

Module AmountCellFacts.
Import Dom DomFacts CurrencyFacts.

(** X27. The amount cell of the transactions table takes its sign from the
    type alone: its text is + for income, - for an expense and nothing for a
    transfer, followed by the formatted absolute value of the amount, so it
    holds exactly one minus sign for an expense and none otherwise, and
    exactly one plus sign for income and none otherwise, whatever the sign
    of the amount. *)
Theorem transactions_table_amount_sign (g : nat) (tx : Transactions.Transaction) :
  let text := text_content (Transactions.amount_cell g tx) in
  text =
    (match Transactions.type tx with
     | Preview.income => "+"
     | Preview.expense => "-"
     | Preview.transfer => ""
     end) +:+ Format.formatCurrency g (Qabs (Transactions.amount tx)) /\
  Transactions.occurrences "-" text =
    match Transactions.type tx with Preview.expense => 1%nat | _ => 0%nat end /\
  Transactions.occurrences "+" text =
    match Transactions.type tx with Preview.income => 1%nat | _ => 0%nat end.
Proof.
  cbv zeta. unfold Transactions.amount_cell. text_simpl.
  split; [reflexivity|].
  rewrite !occurrences_app, !occurrences_formatCurrency by auto.
  assert (Hpos : (Qnum (Qabs (Transactions.amount tx)) <? 0) = false).
  { destruct (Transactions.amount tx) as [n d]. cbn. apply Z.ltb_ge. lia. }
  rewrite Hpos. cbn [andb]. destruct (Transactions.type tx); split; reflexivity.
Qed.

(** X28. The amount of a category row is the sign of the category type
    followed by the formatted total, the total being taken as it is: the
    text holds one minus sign for the type expense and one more when the
    total is negative, so an expense category with a negative total shows
    two minus signs. *)
Theorem category_total_sign (g : nat) (cat : Categories.Category) :
  let text := text_content (Categories.stats_cell g cat) in
  text =
    (match Categories.type cat with Categories.income => "+" | Categories.expense => "-" end)
    +:+ Format.formatCurrency g (Categories.totalAmount cat) /\
  Transactions.occurrences "-" text =
    (match Categories.type cat with Categories.expense => 1 | Categories.income => 0 end +
     if (Qnum (Categories.totalAmount cat) <? 0)%Z then 1 else 0)%nat.
Proof.
  cbv zeta. unfold Categories.stats_cell. text_simpl.
  split; [reflexivity|].
  rewrite !occurrences_app, !occurrences_formatCurrency by auto.
  rewrite andb_true_r. destruct (Categories.type cat); reflexivity.
Qed.

End AmountCellFacts.

Module CategoriesFacts.
Import Categories.

Lemma handleDelete_In (cid : string) (prev : list Category) (c : Category) :
  c ∈ handleDelete cid prev <-> c ∈ prev /\ id c <> cid /\ parentId c <> Some cid.
Proof.
  unfold handleDelete. rewrite !list_elem_of_In, filter_In, andb_true_iff,
    !negb_true_iff, !bool_decide_eq_false. reflexivity.
Qed.

(** X29. Deleting a category removes it and the categories that have it as
    their parent, and nothing else; in a list where every parent named is a
    top-level category of the list, this still holds after the deletion, and
    every other top-level category stays. *)
Theorem category_delete_keeps_two_levels (cid : string) (prev : list Category) :
  two_levels prev ->
  let next := handleDelete cid prev in
  (forall c, c ∈ next <-> c ∈ prev /\ id c <> cid /\ parentId c <> Some cid) /\
  two_levels next /\
  (forall c, c ∈ prev -> parentId c = None -> id c <> cid -> c ∈ next).
Proof.
  intros Hwf. cbv zeta. split; [apply handleDelete_In|]. split.
  - intros c p Hc Hp. apply handleDelete_In in Hc as (Hc & Hid & Hpar).
    destruct (Hwf c p Hc Hp) as (q & Hq & Hqid & Hqtop).
    exists q. split; [|now split]. apply handleDelete_In.
    split; [exact Hq|]. split; congruence.
  - intros c Hc Htop Hid. apply handleDelete_In. split; [exact Hc|].
    split; [exact Hid | congruence].
Qed.

Lemma category_delete_keeps_two_levels_witness :
  handleDelete "casa" [sample_home; sample_rent; sample_refund] = [sample_refund] /\
  two_levels (handleDelete "casa" [sample_home; sample_rent; sample_refund]).
Proof.
  split; [reflexivity|].
  apply (category_delete_keeps_two_levels "casa" [sample_home; sample_rent; sample_refund]).
  intros c p Hc Hp. exists sample_home.
  repeat (apply elem_of_cons in Hc as [-> | Hc]); try discriminate Hp;
    [| now apply elem_of_nil in Hc].
  injection Hp as <-. split; [apply list_elem_of_here | split; reflexivity].
Defined.

Lemma form_step_parent (p : FormProps) (st : FormState) (ev : FormEvent) :
  parent_offered p st -> parent_offered p (fst (form_step p st ev)).
Proof.
  intros Hst. destruct ev as [v | v | i | ty | i | now |]; cbn [form_step fst];
    try exact Hst.
  - destruct (COLOR_PRESETS p !! i); exact Hst.
  - intros v [=].
  - destruct (parent_values p st !! i) as [v|] eqn:E; [|exact Hst].
    cbn [fst]. intros w. cbn [st_parentId st_type].
    destruct (bool_decide_reflect (v = "")) as [|Hne]; [discriminate|].
    intros [= <-]. unfold parent_values in E.
    apply list_elem_of_lookup_2, elem_of_cons in E as [E | E]; [contradiction|].
    apply list_elem_of_fmap in E as (q & -> & Hq).
    unfold parentOptions in Hq. apply list_elem_of_In, filter_In in Hq as [Hq Hty].
    apply andb_true_iff in Hty as [Hty _]. apply bool_decide_eq_true in Hty.
    exists q. split; [now apply list_elem_of_In | now split].
Qed.

Lemma form_run_parent (p : FormProps) (evs : list FormEvent) (st : FormState)
    (saved : Category) :
  parent_offered p st ->
  In (onSave saved) (snd (form_run p st evs)) ->
  exists st' now, parent_offered p st' /\ handleSubmit p st' now = [onSave saved].
Proof.
  revert st. induction evs as [|ev evs IH]; intros st Hst Hr; [destruct Hr|].
  cbn [form_run] in Hr.
  pose proof (form_step_parent p st ev Hst) as Hnext.
  destruct (form_step p st ev) as [st1 out1] eqn:Estep.
  specialize (IH st1 Hnext).
  destruct (form_run p st1 evs) as [st2 out2].
  cbn [fst snd] in *. apply in_app_or in Hr as [Hr | Hr]; [|now apply IH].
  destruct ev as [v | v | i | ty | i | now |]; cbn [form_step] in Estep.
  - injection Estep as <- <-. destruct Hr.
  - injection Estep as <- <-. destruct Hr.
  - destruct (COLOR_PRESETS p !! i); injection Estep as <- <-; destruct Hr.
  - injection Estep as <- <-. destruct Hr.
  - destruct (parent_values p st !! i); injection Estep as <- <-; destruct Hr.
  - injection Estep as <- <-. exists st, now. split; [exact Hst|].
    unfold handleSubmit in *. destruct (bool_decide _); [destruct Hr|].
    destruct Hr as [Hr | []]. now rewrite Hr.
  - injection Estep as <- <-. destruct Hr as [Hr | []]. discriminate.
Qed.

Lemma handleSave_fresh (saved : Category) (prev : list Category) :
  id saved ∉ map id prev -> handleSave saved prev = prev ++ [saved].
Proof.
  intros Hfresh. unfold handleSave.
  destruct (List.find _ prev) as [c|] eqn:E; [|reflexivity].
  apply find_some in E as [Hc Hid]. apply bool_decide_eq_true in Hid.
  exfalso. apply Hfresh. rewrite <- Hid. apply list_elem_of_fmap.
  exists c. split; [reflexivity | now apply list_elem_of_In].
Qed.

Lemma handleDelete_two_levels (cid : string) (prev : list Category) :
  two_levels prev -> two_levels (handleDelete cid prev).
Proof.
  intros Hwf c p Hc Hp. apply handleDelete_In in Hc as (Hc & Hid & Hpar).
  destruct (Hwf c p Hc Hp) as (q & Hq & Hqid & Hqtop).
  exists q. split; [|now split]. apply handleDelete_In.
  split; [exact Hq|]. split; congruence.
Qed.

Lemma handleDelete_ids (cid : string) (prev : list Category) (x : string) :
  x ∈ map id (handleDelete cid prev) -> x ∈ map id prev.
Proof.
  intros (c & -> & Hc)%list_elem_of_fmap. apply handleDelete_In in Hc as [Hc _].
  apply list_elem_of_fmap. eauto.
Qed.

Lemma create_run_snoc fp mp s evs ev :
  create_run fp mp s (evs ++ [ev]) = create_step fp mp (create_run fp mp s evs) ev.
Proof. unfold create_run. now rewrite foldl_app. Qed.

(** While the form is open nothing has been saved: the list has lost
    categories at most, it is two levels deep, and the parent chosen is
    still in it unless it has been deleted. *)
Lemma create_run_open fp mp (all : list Category) (evs : list CreateEvent) :
  two_levels all ->
  is_Some (snd (create_run fp mp (open_create fp mp all) evs)) ->
  two_levels (fst (create_run fp mp (open_create fp mp all) evs)) /\
  (forall x, x ∈ map id (fst (create_run fp mp (open_create fp mp all) evs)) ->
             x ∈ map id all) /\
  parent_in_list evs (create_run fp mp (open_create fp mp all) evs).
Proof.
  intros Hwf. induction evs as [|ev evs IH] using rev_ind.
  - intros _. cbn. split; [exact Hwf|]. split; [auto|].
    intros st p [= <-] Hp. discriminate Hp.
  - rewrite create_run_snoc.
    destruct (create_run fp mp (open_create fp mp all) evs) as [cats fs].
    cbn [fst snd] in *.
    destruct ev as [fev | cid]; cbn [create_step fst snd].
    + destruct fs as [st|]; [|intros [? [=]]].
      destruct IH as (Hcats & Hids & Hpar); [eauto|].
      destruct (form_step (create_form fp mp cats) st fev) as [st' calls] eqn:Estep.
      destruct calls as [|[saved|] calls]; cbn [fst snd];
        [| intros [? [=]] | intros [? [=]]].
      intros _. split; [exact Hcats|]. split; [exact Hids|].
      intros st0 p [= <-] Hp.
      assert (Hsame : st_parentId st' = st_parentId st /\ st_type st' = st_type st \/
                      parent_offered (create_form fp mp cats) st').
      { assert (Hst' : st' = fst (form_step (create_form fp mp cats) st fev))
          by now rewrite Estep.
        clear Estep. subst st'.
        destruct fev as [v | v | i | ty | i | now |]; cbn [form_step fst] in *;
          try (now left).
        - destruct (COLOR_PRESETS _ !! i); now left.
        - destruct (parent_values _ st !! i) as [v|] eqn:E; [|now left].
          right. cbn [fst] in *. intros w Hw.
          cbn [st_parentId st_type] in Hw |- *.
          destruct (bool_decide_reflect (v = "")) as [|Hne]; [discriminate|].
          injection Hw as <-. unfold parent_values in E.
          apply list_elem_of_lookup_2, elem_of_cons in E as [E | E]; [contradiction|].
          apply list_elem_of_fmap in E as (q & -> & Hq).
          unfold parentOptions in Hq. apply list_elem_of_In, filter_In in Hq as [Hq Hty].
          apply andb_true_iff in Hty as [Hty _]. apply bool_decide_eq_true in Hty.
          exists q. split; [now apply list_elem_of_In | now split]. }
      destruct Hsame as [[Hp' Hty'] | Hoff].
      * rewrite Hp' in Hp. destruct (Hpar st p eq_refl Hp) as [Hdel | Hq].
        -- left. apply in_or_app. now left.
        -- right. now rewrite Hty'.
      * right. destruct (Hoff p Hp) as (q & Hq & Hid & Hty).
        unfold create_form, parents in Hq. cbn [categories] in Hq.
        apply list_elem_of_In, filter_In in Hq as [Hq Htop].
        apply bool_decide_eq_true in Htop.
        exists q. split; [now apply list_elem_of_In | auto].
    + intros Hopen. destruct IH as (Hcats & Hids & Hpar); [exact Hopen|].
      destruct (deletable cid cats); [|split; [exact Hcats|]; split; [exact Hids|]];
        [split; [now apply handleDelete_two_levels|]; split|].
      * intros x Hx. apply Hids. now apply handleDelete_ids in Hx.
      * intros st p Hst Hp. cbn [fst snd] in *.
        destruct (decide (p = cid)) as [->|Hne];
          [left; apply in_or_app; right; now left|].
        destruct (Hpar st p Hst Hp) as [Hdel | (q & Hq & Hid & Htop & Hty)];
          [left; apply in_or_app; now left|].
        right. exists q. split; [|auto]. apply handleDelete_In.
        split; [exact Hq|]. split; congruence.
      * intros st p Hst Hp. cbn [fst snd] in *.
        destruct (Hpar st p Hst Hp) as [Hdel | Hq];
          [left; apply in_or_app; now left | now right].
Qed.

(** X30. Creating a category keeps the list two levels deep as long as the
    parent chosen is not deleted before the form is submitted.  In a
    session with the create form, opened on a list in which every parent
    named is a top-level category of the list, during which rows of the
    list may be deleted: when the form is submitted with a name that is not
    blank, at a time whose id is new to the list, and the parent chosen, if
    any, has not been deleted meanwhile, then the form closes and the
    category is appended to the list as it is then, under the new id and
    with the trimmed name, not as a system category, its parent, if it has
    one, being a top-level category of that list of the same type; and in
    the new list every parent named is again a top-level category of the
    list. *)
Theorem category_create_keeps_two_levels (first_preset : string)
    (more_presets : list string) (all : list Category) (evs : list CreateEvent)
    (st : FormState) (now : Z) :
  two_levels all ->
  fresh_id now ∉ map id all ->
  snd (create_run first_preset more_presets
         (open_create first_preset more_presets all) evs) = Some st ->
  JsText.trim (st_name st) <> "" ->
  (forall p, st_parentId st = Some p -> ~ In (ClickDelete p) evs) ->
  let cats := fst (create_run first_preset more_presets
                     (open_create first_preset more_presets all) evs) in
  exists saved,
    create_run first_preset more_presets
      (open_create first_preset more_presets all) (evs ++ [InForm (Submit now)]) =
      (cats ++ [saved], None) /\
    id saved = fresh_id now /\ name saved = JsText.trim (st_name st) /\
    isSystem saved = false /\ parentId saved = st_parentId st /\
    (forall p, parentId saved = Some p ->
       exists q, q ∈ cats /\ id q = p /\ parentId q = None /\ type q = type saved) /\
    two_levels (cats ++ [saved]).
Proof.
  intros Hwf Hfresh Hopen Hname Hkept. cbv zeta.
  destruct (create_run_open first_preset more_presets all evs Hwf) as (Hcats & Hids & Hpar);
    [rewrite Hopen; eauto|].
  rewrite create_run_snoc.
  destruct (create_run first_preset more_presets
              (open_create first_preset more_presets all) evs) as [cats fs].
  cbn [fst snd] in *. subst fs.
  cbn [create_step fst snd form_step]. unfold handleSubmit.
  rewrite bool_decide_false by exact Hname.
  cbn [create_form category fmap option_fmap option_map default].
  eexists. split.
  { rewrite handleSave_fresh; [reflexivity|]. cbn [id]. intros Hin.
    apply Hfresh, Hids, Hin. }
  cbn [id name isSystem parentId type].
  assert (Hparent : forall p, st_parentId st = Some p ->
            exists q, q ∈ cats /\ id q = p /\ parentId q = None /\ type q = st_type st).
  { intros p Hp. destruct (Hpar st p eq_refl Hp) as [Hdel | Hq]; [|exact Hq].
    now destruct (Hkept p Hp). }
  repeat (split; [reflexivity|]). split; [exact Hparent|].
  intros c p Hc Hp. apply elem_of_app in Hc as [Hc | Hc].
  - destruct (Hcats c p Hc Hp) as (q & Hq & Hqid & Hqtop).
    exists q. split; [apply elem_of_app; now left | now split].
  - apply list_elem_of_singleton in Hc as ->. cbn [parentId] in Hp.
    destruct (Hparent p Hp) as (q & Hq & Hqid & Hqtop & _).
    exists q. split; [apply elem_of_app; now left | now split].
Qed.

Lemma category_create_keeps_two_levels_witness :
  exists saved,
    create_run "#4CAF50" [] (open_create "#4CAF50" [] [sample_home; sample_rent; sample_refund])
      ([InForm (ChangeName " Bollette "); InForm (SelectParent 1); ClickDelete "rimborsi"] ++
       [InForm (Submit 1700000000000)]) =
      ([sample_home; sample_rent] ++ [saved], None) /\
    parentId saved = Some "casa" /\
    two_levels ([sample_home; sample_rent] ++ [saved]).
Proof.
  destruct (category_create_keeps_two_levels "#4CAF50" []
              [sample_home; sample_rent; sample_refund]
              [InForm (ChangeName " Bollette "); InForm (SelectParent 1);
               ClickDelete "rimborsi"]
              {| st_name := " Bollette "; st_icon := default_icon; st_color := "#4CAF50";
                 st_parentId := Some "casa"; st_type := expense |}
              1700000000000)
    as (saved & Hrun & _ & _ & _ & Hparent & _ & Htwo).
  - intros c p Hc Hp. exists sample_home.
    repeat (apply elem_of_cons in Hc as [-> | Hc]); try discriminate Hp;
      [| now apply elem_of_nil in Hc].
    injection Hp as <-. split; [apply list_elem_of_here | split; reflexivity].
  - apply (bool_decide_unpack _). vm_compute. exact I.
  - vm_compute. reflexivity.
  - vm_compute. discriminate.
  - intros p [= <-] Hin. vm_compute in Hin.
    repeat (destruct Hin as [Hin | Hin]; [discriminate Hin|]). exact Hin.
  - exists saved. split; [exact Hrun|]. split; [exact Hparent | exact Htwo].
Defined.

(** When the parent chosen is deleted before the form is submitted, the
    category is saved under a parent that is gone. *)
Example category_create_under_deleted_parent :
  let final :=
    fst (create_run "#4CAF50" []
           (open_create "#4CAF50" [] [sample_home; sample_rent; sample_refund])
           [InForm (ChangeName "Resi"); InForm (SelectParent 2);
            ClickDelete "rimborsi"; InForm (Submit 1700000000000)]) in
  map parentId final = [None; Some "casa"; Some "rimborsi"] /\
  map id final = ["casa"; "affitto"; "cust-1700000000000"] /\
  ~ two_levels final.
Proof.
  cbv zeta. split; [vm_compute; reflexivity|]. split; [vm_compute; reflexivity|].
  intros Hwf.
  destruct (Hwf {| id := "cust-1700000000000"; name := "Resi"; icon := default_icon;
                   color := "#4CAF50"; type := expense; parentId := Some "rimborsi";
                   isSystem := false; transactionCount := 0; totalAmount := 0 |}
                "rimborsi") as (q & Hq & Hid & _).
  - vm_compute. do 2 apply list_elem_of_further. apply list_elem_of_here.
  - reflexivity.
  - vm_compute in Hq.
    repeat (apply elem_of_cons in Hq as [-> | Hq]); try discriminate.
    now apply elem_of_nil in Hq.
Qed.

(** Editing is another matter: a top-level category that has children can
    be given a parent, and its children are then two levels down. *)
Example category_edit_can_deepen :
  let moved := {| id := "casa"; name := "Casa"; icon := "C"; color := "#2196F3";
                  type := expense; parentId := Some "rimborsi"; isSystem := false;
                  transactionCount := 12; totalAmount := 145000 # 100 |} in
  In moved (saved_categories
              {| category := Some sample_home;
                 categories := parents [sample_home; sample_rent; sample_refund];
                 first_preset := "#4CAF50"; more_presets := [] |}
              [SelectParent 1; Submit 1700000000000]) /\
  ~ two_levels (handleSave moved [sample_home; sample_rent; sample_refund]).
Proof.
  cbv zeta. split; [vm_compute; now left|].
  intros Hwf. destruct (Hwf sample_rent "casa") as (q & Hq & Hid & Htop).
  - vm_compute. apply list_elem_of_further, list_elem_of_here.
  - reflexivity.
  - vm_compute in Hq.
    repeat (apply elem_of_cons in Hq as [-> | Hq]); try discriminate.
    now apply elem_of_nil in Hq.
Qed.

End CategoriesFacts.
